(** * Reachability engine of unusedfunc (internal/rta/rta.go)

    A shallow embedding of the modified Rapid Type Analysis of
    [internal/rta/rta.go].  The SSA program and the type system
    ([golang.org/x/tools/go/ssa], [go/types]) are libraries the engine
    borrows from; they appear here as plain data ([Program]) together with
    the few library operations the engine calls on them.  The engine
    itself is translated function by function, names kept, as state
    passing over the record [rta]. *)

From Stdlib Require Import ZArith Ascii String.
From stdpp Require Import gmap strings list fin_maps pretty.

Open Scope string_scope.
Open Scope list_scope.

(** ** Outcomes of engine operations

    Go code may panic (nil dereference, failed type assertion, write to a
    nil map); the recursive runtime-type walk and the worklist loop are
    run with a depth budget. *)

Inductive outcome (A : Type) : Type :=
| Ok (a : A)
| Panic
| OutOfFuel.
Arguments Ok {A} a.
Arguments Panic {A}.
Arguments OutOfFuel {A}.

Definition obind {A B} (m : outcome A) (k : A → outcome B) : outcome B :=
  match m with
  | Ok a => k a
  | Panic => Panic
  | OutOfFuel => OutOfFuel
  end.

Notation "x ←! m ; k" := (obind m (λ x, k))
  (at level 20, m at level 100, k at level 200, only parsing).
Notation "' pat ←! m ; k" := (obind m (λ x, match x with pat => k end))
  (at level 20, pat pattern, m at level 100, k at level 200, only parsing).

(** [forM l body r] is a Go [for _, x := range l { body(x) }] over the
    engine state. *)
Fixpoint forM {A S : Type} (l : list A) (body : A → S → outcome S) (s : S)
  : outcome S :=
  match l with
  | [] => Ok s
  | x :: l' => s' ←! body x s; forM l' body s'
  end.

(** ** Types ([go/types]) *)

(** Handles of SSA functions ([*ssa.Function]); a nil pointer is [None]
    of [option fn]. *)
Definition fn := nat.

#[warnings="-register-all"]
Inductive type : Type :=
| TBasic (kind : string)
| TPointer (elem : type)
| TSlice (elem : type)
| TArray (len : N) (elem : type)
| TChan (elem : type)
| TMap (key elem : type)
| TStruct (fields : list type)
| TTuple (vars : list type)
| TSignature (params results : list type)
| TNamed (id : nat)
| TInterface (id : nat)
| TTypeParam (id : nat) (constraint : nat)
| TAlias (id : nat) (rhs : type)
| TUnion (id : nat).

Lemma type_eq_dec : ∀ x y : type, {x = y} + {x ≠ y}.
Proof.
  fix IH 1. intros x y.
  decide equality;
    try apply Nat.eq_dec; try apply N.eq_dec; try apply string_dec;
    apply (List.list_eq_dec IH).
Defined.

Global Instance type_eq : EqDecision type := type_eq_dec.

(** [types.Unalias]. *)
Fixpoint Unalias (T : type) : type :=
  match T with
  | TAlias _ rhs => Unalias rhs
  | _ => T
  end.

(** [types.Identical] looks through aliases at every level; [canon] is the
    alias-free representative, so that [Identical T U] is
    [canon T = canon U].  [typeutil.Map] identifies keys this way. *)
Fixpoint canon (T : type) : type :=
  match T with
  | TBasic k => TBasic k
  | TPointer e => TPointer (canon e)
  | TSlice e => TSlice (canon e)
  | TArray n e => TArray n (canon e)
  | TChan e => TChan (canon e)
  | TMap k e => TMap (canon k) (canon e)
  | TStruct fs => TStruct (map canon fs)
  | TTuple vs => TTuple (map canon vs)
  | TSignature ps rs => TSignature (map canon ps) (map canon rs)
  | TNamed n => TNamed n
  | TInterface i => TInterface i
  | TTypeParam i c => TTypeParam i c
  | TAlias _ rhs => canon rhs
  | TUnion i => TUnion i
  end.

(** A method object ([*types.Func]): identity, defining package (nil for
    universe objects such as [error.Error]), name and signature. *)
Record Func := {
  fo_uid : nat;
  fo_pkg : option string;
  fo_name : string;
  fo_params : list type;
  fo_results : list type;
}.

Definition fo_type (m : Func) : type := TSignature (fo_params m) (fo_results m).

(** An entry of a method set ([*types.Selection]) together with what
    [prog.MethodValue] returns for it: the SSA function, or nil for an
    interface method or a generic template method. *)
Record Selection := {
  sel_obj : Func;
  sel_fn : option fn;
}.

Definition is_upper (c : ascii) : bool :=
  (65 <=? nat_of_ascii c)%nat && (nat_of_ascii c <=? 90)%nat.

(** [token.IsExported]: the name starts with an upper-case letter. *)
Definition IsExported (name : string) : bool :=
  match name with
  | String c _ => is_upper c
  | EmptyString => false
  end.

Definition Exported (m : Func) : bool := IsExported (fo_name m).

(** [types.Id]: exported names stand for themselves, unexported names are
    qualified by the package path. *)
Definition Id (pkg : option string) (name : string) : string :=
  if IsExported name then name
  else
    let path := match pkg with
                | Some p => if String.eqb p "" then "_" else p
                | None => "_"
                end in
    path +:+ "." +:+ name.

Definition fo_Id (m : Func) : string := Id (fo_pkg m) (fo_name m).

(** [MethodSet.Lookup] of go/types. *)
Definition Lookup (mset : list Selection) (pkg : option string) (name : string)
  : option Selection :=
  if String.eqb name "_" then None
  else find (λ sel, String.eqb (fo_Id (sel_obj sel)) (Id pkg name)) mset.

(** ** SSA values and instructions ([go/ssa]) *)

Inductive value : Type :=
| VFunction (f : fn)
| VMakeClosure (f : fn)
| VMakeInterface (x : value) (t : type)
| VBuiltin (name : string)
| VOther (t : type).

(** [ssa.CallCommon]: [cc_method] is set exactly for invoke-mode calls. *)
Record CallCommon := {
  cc_value : value;
  cc_method : option Func;
  cc_args : list value;
}.

Inductive Instruction : Type :=
| ICall (call : CallCommon)
| IMakeInterface (x : value) (t : type)
| ITypeAssert (x : value) (asserted : type)
| IChangeInterface (x : value) (t : type)
| IOther (operands : list value).

(** The object a function was declared as ([f.Object()]). *)
Record Object := {
  ob_pkg : option string;
  ob_name : string;
}.

Record Function := {
  fn_string : string;            (* f.String() *)
  fn_origin : option fn;         (* f.Origin() *)
  fn_signature : type;           (* f.Signature *)
  fn_object : option Object;     (* f.Object() *)
  fn_pkg : option string;        (* f.Pkg.Pkg.Path(), None if f.Pkg or f.Pkg.Pkg is nil *)
  fn_blocks : list (list Instruction);
}.

Inductive Member : Type :=
| MType (T : type)
| MOther.

Record Package := {
  pkg_path : option string;      (* pkg.Pkg.Path(), None if pkg.Pkg is nil *)
  pkg_members : list Member;
}.

(** The SSA program with the type information the engine asks for. *)
Record Program := {
  prog_funcs : gmap fn Function;
  prog_msets : type → list Selection;      (* method sets of concrete types *)
  prog_underlying : nat → type;            (* Named.Underlying *)
  prog_named_methods : nat → list Func;    (* Named.Method(i) *)
  prog_iface_methods : nat → list Func;    (* Interface.Method(i) *)
  prog_packages : list Package;            (* prog.AllPackages() *)
  prog_reflectValueCall : option fn;       (* reflect.Value.Call, if reflect is imported *)
}.

(** A function without an entry in [prog_funcs] is an external one: no
    body, no origin, no object. *)
Definition extern : Function :=
  {| fn_string := ""; fn_origin := None; fn_signature := TSignature [] [];
     fn_object := None; fn_pkg := None; fn_blocks := [] |}.

(** ** [typeutil.Map]

    A map keyed by types up to [types.Identical]; entries are kept in
    insertion order, which is the order [Iterate] is given here. *)

Definition tmap (V : Type) := list (type * V).

Fixpoint tm_lookup {V} (k : type) (m : tmap V) : option V :=
  match m with
  | [] => None
  | (k', v) :: m' => if decide (k' = k) then Some v else tm_lookup k m'
  end.

Fixpoint tm_insert {V} (k : type) (v : V) (m : tmap V) : tmap V :=
  match m with
  | [] => [(k, v)]
  | (k', v') :: m' =>
      if decide (k' = k) then (k', v) :: m' else (k', v') :: tm_insert k v m'
  end.

Definition At {V} (m : tmap V) (T : type) : option V := tm_lookup (canon T) m.
Definition Set_ {V} (m : tmap V) (T : type) (v : V) : tmap V := tm_insert (canon T) v m.

(** ** Fingerprints: [hash/crc32] and [Fingerprint] *)

Definition crc_step (c : Z) : Z :=
  if Z.testbit c 0 then Z.lxor (Z.shiftr c 1) 0xEDB88320%Z else Z.shiftr c 1.

Definition crc_byte (crc : Z) (b : ascii) : Z :=
  Nat.iter 8 crc_step (Z.lxor crc (Z.of_nat (nat_of_ascii b))).

(** [crc32.ChecksumIEEE]. *)
Definition ChecksumIEEE (data : list ascii) : Z :=
  Z.lxor (fold_left crc_byte data 0xFFFFFFFF%Z) 0xFFFFFFFF%Z.

(** [fmt.Appendf(space[:], "%s/%d/%d", id, nparams, nresults)]: the
    formatted text is appended to the whole 64-byte array [space], so the
    checksum runs over 64 zero bytes followed by the text. *)
Definition method_key (m : Func) : list ascii :=
  replicate 64 zero ++
  list_ascii_of_string
    (fo_Id m +:+ "/" +:+ pretty (length (fo_params m)) +:+ "/" +:+
     pretty (length (fo_results m))).

Definition method_bit (m : Func) : Z :=
  Z.shiftl 1 (ChecksumIEEE (method_key m) `mod` 64)%Z.

Definition Fingerprint (mset : list Selection) : Z :=
  fold_left (λ mask sel, Z.lor mask (method_bit (sel_obj sel))) mset 0%Z.

(** ** The allow-list of reflection consumers *)

Definition knownSafeFunctions : list (string * list string) :=
  [ ("encoding/json.Marshal", ["MarshalJSON"; "MarshalText"]);
    ("encoding/json.MarshalIndent", ["MarshalJSON"; "MarshalText"]);
    ("encoding/json.Unmarshal", ["UnmarshalJSON"; "UnmarshalText"]);
    ("(*encoding/json.Encoder).Encode", ["MarshalJSON"; "MarshalText"]);
    ("(*encoding/json.Decoder).Decode", ["UnmarshalJSON"; "UnmarshalText"]);
    ("fmt.Printf", ["String"; "GoString"; "Error"; "Format"]);
    ("fmt.Sprintf", ["String"; "GoString"; "Error"; "Format"]);
    ("fmt.Fprintf", ["String"; "GoString"; "Error"; "Format"]);
    ("fmt.Print", ["String"; "GoString"; "Error"]);
    ("fmt.Sprint", ["String"; "GoString"; "Error"]);
    ("fmt.Fprint", ["String"; "GoString"; "Error"]);
    ("fmt.Println", ["String"; "GoString"; "Error"]);
    ("fmt.Sprintln", ["String"; "GoString"; "Error"]);
    ("fmt.Fprintln", ["String"; "GoString"; "Error"]);
    ("fmt.Errorf", ["String"; "GoString"; "Error"; "Format"]);
    ("encoding/xml.Marshal", ["MarshalXML"; "MarshalXMLAttr"]);
    ("encoding/xml.MarshalIndent", ["MarshalXML"; "MarshalXMLAttr"]);
    ("encoding/xml.Unmarshal", ["UnmarshalXML"; "UnmarshalXMLAttr"]);
    ("(*encoding/xml.Encoder).Encode", ["MarshalXML"; "MarshalXMLAttr"]);
    ("(*encoding/xml.Decoder).Decode", ["UnmarshalXML"; "UnmarshalXMLAttr"]);
    ("gopkg.in/yaml.v3.Marshal", ["MarshalYAML"]);
    ("gopkg.in/yaml.v3.Unmarshal", ["UnmarshalYAML"]);
    ("gopkg.in/yaml.v2.Marshal", ["MarshalYAML"]);
    ("gopkg.in/yaml.v2.Unmarshal", ["UnmarshalYAML"]);
    ("(*encoding/gob.Encoder).Encode", ["GobEncode"]);
    ("(*encoding/gob.Decoder).Decode", ["GobDecode"]);
    ("encoding/binary.Write", ["MarshalBinary"]);
    ("encoding/binary.Read", ["UnmarshalBinary"]);
    ("(*database/sql.DB).Query", ["Scan"; "Value"]);
    ("(*database/sql.DB).QueryRow", ["Scan"; "Value"]);
    ("(*database/sql.DB).Exec", ["Value"]);
    ("(*database/sql.Stmt).Query", ["Scan"; "Value"]);
    ("(*database/sql.Stmt).QueryRow", ["Scan"; "Value"]);
    ("(*database/sql.Stmt).Exec", ["Value"]) ].

Definition knownSafe (key : string) : option (list string) :=
  snd <$> find (λ e, String.eqb (fst e) key) knownSafeFunctions.

(** [slices.Contains] on strings. *)
Definition Contains (l : list string) (s : string) : bool :=
  existsb (String.eqb s) l.

(** [hasModulePath]: a dot before the first slash. *)
Fixpoint hasModulePath (path : string) : bool :=
  match path with
  | EmptyString => false
  | String ch rest =>
      if Ascii.eqb ch "/" then false
      else if Ascii.eqb ch "." then true
      else hasModulePath rest
  end.

(** ** Result and working state *)

Record Result := {
  Reachable : gmap fn bool;          (* the value is the AddrTaken flag *)
  ReachableObjects : gset nat;       (* method objects, by identity *)
  RuntimeTypes : tmap bool;          (* the value is the skip flag *)
}.

Record concreteTypeInfo := {
  ci_C : type;
  ci_mset : list Selection;
  ci_fprint : Z;
  ci_implements : list nat;
}.

Record interfaceTypeInfo := {
  ii_I : nat;
  ii_mset : list Selection;
  ii_fprint : Z;
  ii_implementations : list type;
  ii_computed : bool;
}.

Record rta := {
  result : Result;
  reflectValueCall : option fn;
  currentFunction : option fn;
  worklist : list fn;
  addrTakenFuncsBySig : tmap (gset fn);
  dynCallSites : tmap (list CallCommon);
  invokeSites : tmap (list CallCommon);
  concreteTypes : tmap concreteTypeInfo;
  interfaceTypes : tmap interfaceTypeInfo;
  interfaceToTypes : option (gmap nat (list type));      (* None is the nil map *)
  typeToInterfaces : option (list (type * list nat));    (* None is the nil map *)
  userTypesIndexBuilt : bool;
  userTypes : list type;
}.

Definition with_result (x : Result) (r : rta) : rta :=
  {| result := x; reflectValueCall := reflectValueCall r;
     currentFunction := currentFunction r; worklist := worklist r;
     addrTakenFuncsBySig := addrTakenFuncsBySig r; dynCallSites := dynCallSites r;
     invokeSites := invokeSites r; concreteTypes := concreteTypes r;
     interfaceTypes := interfaceTypes r; interfaceToTypes := interfaceToTypes r;
     typeToInterfaces := typeToInterfaces r;
     userTypesIndexBuilt := userTypesIndexBuilt r; userTypes := userTypes r |}.

Definition with_worklist (x : list fn) (r : rta) : rta :=
  {| result := result r; reflectValueCall := reflectValueCall r;
     currentFunction := currentFunction r; worklist := x;
     addrTakenFuncsBySig := addrTakenFuncsBySig r; dynCallSites := dynCallSites r;
     invokeSites := invokeSites r; concreteTypes := concreteTypes r;
     interfaceTypes := interfaceTypes r; interfaceToTypes := interfaceToTypes r;
     typeToInterfaces := typeToInterfaces r;
     userTypesIndexBuilt := userTypesIndexBuilt r; userTypes := userTypes r |}.

Definition with_currentFunction (x : option fn) (r : rta) : rta :=
  {| result := result r; reflectValueCall := reflectValueCall r;
     currentFunction := x; worklist := worklist r;
     addrTakenFuncsBySig := addrTakenFuncsBySig r; dynCallSites := dynCallSites r;
     invokeSites := invokeSites r; concreteTypes := concreteTypes r;
     interfaceTypes := interfaceTypes r; interfaceToTypes := interfaceToTypes r;
     typeToInterfaces := typeToInterfaces r;
     userTypesIndexBuilt := userTypesIndexBuilt r; userTypes := userTypes r |}.

Definition with_addrTakenFuncsBySig (x : tmap (gset fn)) (r : rta) : rta :=
  {| result := result r; reflectValueCall := reflectValueCall r;
     currentFunction := currentFunction r; worklist := worklist r;
     addrTakenFuncsBySig := x; dynCallSites := dynCallSites r;
     invokeSites := invokeSites r; concreteTypes := concreteTypes r;
     interfaceTypes := interfaceTypes r; interfaceToTypes := interfaceToTypes r;
     typeToInterfaces := typeToInterfaces r;
     userTypesIndexBuilt := userTypesIndexBuilt r; userTypes := userTypes r |}.

Definition with_dynCallSites (x : tmap (list CallCommon)) (r : rta) : rta :=
  {| result := result r; reflectValueCall := reflectValueCall r;
     currentFunction := currentFunction r; worklist := worklist r;
     addrTakenFuncsBySig := addrTakenFuncsBySig r; dynCallSites := x;
     invokeSites := invokeSites r; concreteTypes := concreteTypes r;
     interfaceTypes := interfaceTypes r; interfaceToTypes := interfaceToTypes r;
     typeToInterfaces := typeToInterfaces r;
     userTypesIndexBuilt := userTypesIndexBuilt r; userTypes := userTypes r |}.

Definition with_invokeSites (x : tmap (list CallCommon)) (r : rta) : rta :=
  {| result := result r; reflectValueCall := reflectValueCall r;
     currentFunction := currentFunction r; worklist := worklist r;
     addrTakenFuncsBySig := addrTakenFuncsBySig r; dynCallSites := dynCallSites r;
     invokeSites := x; concreteTypes := concreteTypes r;
     interfaceTypes := interfaceTypes r; interfaceToTypes := interfaceToTypes r;
     typeToInterfaces := typeToInterfaces r;
     userTypesIndexBuilt := userTypesIndexBuilt r; userTypes := userTypes r |}.

Definition with_concreteTypes (x : tmap concreteTypeInfo) (r : rta) : rta :=
  {| result := result r; reflectValueCall := reflectValueCall r;
     currentFunction := currentFunction r; worklist := worklist r;
     addrTakenFuncsBySig := addrTakenFuncsBySig r; dynCallSites := dynCallSites r;
     invokeSites := invokeSites r; concreteTypes := x;
     interfaceTypes := interfaceTypes r; interfaceToTypes := interfaceToTypes r;
     typeToInterfaces := typeToInterfaces r;
     userTypesIndexBuilt := userTypesIndexBuilt r; userTypes := userTypes r |}.

Definition with_interfaceTypes (x : tmap interfaceTypeInfo) (r : rta) : rta :=
  {| result := result r; reflectValueCall := reflectValueCall r;
     currentFunction := currentFunction r; worklist := worklist r;
     addrTakenFuncsBySig := addrTakenFuncsBySig r; dynCallSites := dynCallSites r;
     invokeSites := invokeSites r; concreteTypes := concreteTypes r;
     interfaceTypes := x; interfaceToTypes := interfaceToTypes r;
     typeToInterfaces := typeToInterfaces r;
     userTypesIndexBuilt := userTypesIndexBuilt r; userTypes := userTypes r |}.

Definition with_index (x : option (gmap nat (list type)))
    (y : option (list (type * list nat))) (r : rta) : rta :=
  {| result := result r; reflectValueCall := reflectValueCall r;
     currentFunction := currentFunction r; worklist := worklist r;
     addrTakenFuncsBySig := addrTakenFuncsBySig r; dynCallSites := dynCallSites r;
     invokeSites := invokeSites r; concreteTypes := concreteTypes r;
     interfaceTypes := interfaceTypes r; interfaceToTypes := x;
     typeToInterfaces := y;
     userTypesIndexBuilt := userTypesIndexBuilt r; userTypes := userTypes r |}.

Definition with_userTypes (built : bool) (x : list type) (r : rta) : rta :=
  {| result := result r; reflectValueCall := reflectValueCall r;
     currentFunction := currentFunction r; worklist := worklist r;
     addrTakenFuncsBySig := addrTakenFuncsBySig r; dynCallSites := dynCallSites r;
     invokeSites := invokeSites r; concreteTypes := concreteTypes r;
     interfaceTypes := interfaceTypes r; interfaceToTypes := interfaceToTypes r;
     typeToInterfaces := typeToInterfaces r;
     userTypesIndexBuilt := built; userTypes := x |}.

Definition with_Reachable (x : gmap fn bool) (r : rta) : rta :=
  with_result {| Reachable := x; ReachableObjects := ReachableObjects (result r);
                 RuntimeTypes := RuntimeTypes (result r) |} r.

Definition with_ReachableObjects (x : gset nat) (r : rta) : rta :=
  with_result {| Reachable := Reachable (result r); ReachableObjects := x;
                 RuntimeTypes := RuntimeTypes (result r) |} r.

Definition with_RuntimeTypes (x : tmap bool) (r : rta) : rta :=
  with_result {| Reachable := Reachable (result r);
                 ReachableObjects := ReachableObjects (result r);
                 RuntimeTypes := x |} r.

Existing Class Program.

Section Engine.

Context {prog : Program}.

Definition func (f : fn) : Function := default extern (prog_funcs prog !! f).

Definition Origin (f : fn) : option fn := fn_origin (func f).

(** [T.Underlying()]. *)
Definition Underlying (T : type) : type :=
  match Unalias T with
  | TNamed n => prog_underlying prog n
  | TTypeParam _ c => TInterface c
  | U => U
  end.

(** The comma-ok assertion of [T.Underlying()] to an interface. *)
Definition asInterface (T : type) : option nat :=
  match Underlying T with
  | TInterface i => Some i
  | _ => None
  end.

Definition isInterface (T : type) : bool :=
  match asInterface T with Some _ => true | None => false end.

Definition NumMethods (i : nat) : nat := length (prog_iface_methods prog i).

(** [prog.MethodSets.MethodSet(T)]: the method set of an interface is
    made of its abstract methods. *)
Definition MethodSet (T : type) : list Selection :=
  match asInterface T with
  | Some i => map (λ m, {| sel_obj := m; sel_fn := None |}) (prog_iface_methods prog i)
  | None => prog_msets prog (canon T)
  end.

Definition MethodValue (sel : Selection) : option fn := sel_fn sel.

(** [prog.LookupMethod]: panics when [T] has no such method. *)
Definition LookupMethod (T : type) (pkg : option string) (name : string)
  : outcome (option fn) :=
  match Lookup (MethodSet T) pkg name with
  | None => Panic
  | Some sel => Ok (MethodValue sel)
  end.

(** [types.Implements(T, I)]: every method of [I] is in the method set of
    [T] under the same id and with an identical signature. *)
Definition same_method (m : Func) (sel : Selection) : bool :=
  String.eqb (fo_Id (sel_obj sel)) (fo_Id m)
  && bool_decide (canon (fo_type (sel_obj sel)) = canon (fo_type m)).

Definition types_Implements (T : type) (i : nat) : bool :=
  forallb (λ m, existsb (same_method m) (MethodSet T)) (prog_iface_methods prog i).

Definition value_type (v : value) : type :=
  match v with
  | VFunction f => fn_signature (func f)
  | VMakeClosure f => fn_signature (func f)
  | VMakeInterface _ t => t
  | VBuiltin _ => TSignature [] []
  | VOther t => t
  end.

Definition IsInvoke (c : CallCommon) : bool :=
  match cc_method c with Some _ => true | None => false end.

(** [CallCommon.StaticCallee] of go/ssa. *)
Definition StaticCallee (c : CallCommon) : option fn :=
  match cc_value c with
  | VFunction f => Some f
  | VMakeClosure f => Some f
  | _ => None
  end.

(** [instr.Operands]: for a call, the called value comes first. *)
Definition Operands (i : Instruction) : list value :=
  match i with
  | ICall c => cc_value c :: cc_args c
  | IMakeInterface x _ => [x]
  | ITypeAssert x _ => [x]
  | IChangeInterface x _ => [x]
  | IOther ops => ops
  end.

(** ** Reachability marks *)

(** [markGenericTemplateReachable]. *)
Definition markGenericTemplateReachable (f : fn) (r : rta) : rta :=
  match Origin f with
  | None => r
  | Some template =>
      if decide (template = f) then r
      else match Reachable (result r) !! template with
           | Some _ => r
           | None => with_Reachable (<[template := false]> (Reachable (result r))) r
           end
  end.

(** [addReachable]. *)
Definition addReachable (f : option fn) (addrTaken : bool) (r : rta) : rta :=
  match f with
  | None => r
  | Some f =>
      let reachable := Reachable (result r) in
      let n := size reachable in
      let v := default false (reachable !! f) in
      let v := if addrTaken then true else v in
      let reachable := <[f := v]> reachable in
      let r := with_Reachable reachable r in
      if decide (n < size reachable) then
        markGenericTemplateReachable f (with_worklist (worklist r ++ [f]) r)
      else r
  end.

(** [addReachableObject]. *)
Definition addReachableObject (obj : option Func) (r : rta) : rta :=
  match obj with
  | Some o => with_ReachableObjects ({[fo_uid o]} ∪ ReachableObjects (result r)) r
  | None => r
  end.

(** [addEdge]: the caller and the site are not recorded by this engine. *)
Definition addEdge (callee : option fn) (addrTaken : bool) (r : rta) : rta :=
  addReachable callee addrTaken r.

(** The statement the source repeats after every method lookup:
    [if fn := r.prog.MethodValue(sel); fn != nil { r.addReachable(fn, true) }
     else if sel.Obj() != nil { r.addReachableObject(sel.Obj()) }]. *)
Definition markSelection (sel : Selection) (r : rta) : rta :=
  match MethodValue sel with
  | Some f => addReachable (Some f) true r
  | None => addReachableObject (Some (sel_obj sel)) r
  end.

(** ** Address-taken functions and dynamic call sites *)

Definition visitAddrTakenFunc (f : fn) (r : rta) : rta :=
  let S := fn_signature (func f) in
  let funcs := default ∅ (At (addrTakenFuncsBySig r) S) in
  let r := match At (addrTakenFuncsBySig r) S with
           | None => with_addrTakenFuncsBySig (Set_ (addrTakenFuncsBySig r) S ∅) r
           | Some _ => r
           end in
  if decide (f ∈ funcs) then r
  else
    let r := with_addrTakenFuncsBySig (Set_ (addrTakenFuncsBySig r) S ({[f]} ∪ funcs)) r in
    let sites := default [] (At (dynCallSites r) S) in
    let r := foldl (λ r _, addEdge (Some f) true r) r sites in
    match reflectValueCall r with
    | Some _ => addEdge (Some f) true r
    | None => r
    end.

(** [site.Common().Signature()]. *)
Definition callSignature (c : CallCommon) : type :=
  match cc_method c with
  | Some m => fo_type m
  | None => Underlying (value_type (cc_value c))
  end.

Definition visitDynCall (site : CallCommon) (r : rta) : rta :=
  let S := callSignature site in
  let sites := default [] (At (dynCallSites r) S) in
  let r := with_dynCallSites (Set_ (dynCallSites r) S (sites ++ [site])) r in
  let funcs := default ∅ (At (addrTakenFuncsBySig r) S) in
  foldl (λ r g, addEdge (Some g) true r) r (elements funcs).

(** ** Concrete types and invoke sites *)

(** [implements]: fingerprint test, then the type checker. *)
Definition implements (cinfo : concreteTypeInfo) (iinfo : interfaceTypeInfo) : bool :=
  (Z.ldiff (ii_fprint iinfo) (ci_fprint cinfo) =? 0)%Z
  && types_Implements (ci_C cinfo) (ii_I iinfo).

Definition getConcreteTypeInfo (C : type) (r : rta) : concreteTypeInfo * rta :=
  let origC := C in
  let C := Unalias C in
  match At (concreteTypes r) C with
  | Some cinfo => (cinfo, r)
  | None =>
      let mset := MethodSet C in
      let cinfo := {| ci_C := C; ci_mset := mset; ci_fprint := Fingerprint mset;
                      ci_implements := [] |} in
      let r := with_concreteTypes (Set_ (concreteTypes r) C cinfo) r in
      let r := if decide (origC = C) then r
               else with_concreteTypes (Set_ (concreteTypes r) origC cinfo) r in
      (cinfo, r)
  end.

Definition getInterfaceTypeInfo (I : nat) (r : rta) : interfaceTypeInfo * rta :=
  match At (interfaceTypes r) (TInterface I) with
  | Some iinfo => (iinfo, r)
  | None =>
      let mset := MethodSet (TInterface I) in
      let iinfo := {| ii_I := I; ii_mset := mset; ii_fprint := Fingerprint mset;
                      ii_implementations := []; ii_computed := false |} in
      (iinfo, with_interfaceTypes (Set_ (interfaceTypes r) (TInterface I) iinfo) r)
  end.

Definition ci_with_implements (l : list nat) (c : concreteTypeInfo) : concreteTypeInfo :=
  {| ci_C := ci_C c; ci_mset := ci_mset c; ci_fprint := ci_fprint c;
     ci_implements := l |}.

Definition ii_with_implementations (l : list type) (computed : bool)
    (i : interfaceTypeInfo) : interfaceTypeInfo :=
  {| ii_I := ii_I i; ii_mset := ii_mset i; ii_fprint := ii_fprint i;
     ii_implementations := l; ii_computed := computed |}.

(** [interfaces(C)]: the interfaces known so far that [C] implements. *)
Definition interfaces (C : type) (r : rta) : list nat * rta :=
  let '(cinfo, r) := getConcreteTypeInfo C r in
  match ci_implements cinfo with
  | [] =>
      let impl := map (λ e, ii_I (snd e))
                      (filter (λ e, implements cinfo (snd e) = true) (interfaceTypes r)) in
      let cinfo := ci_with_implements (ci_implements cinfo ++ impl) cinfo in
      (ci_implements cinfo, with_concreteTypes (Set_ (concreteTypes r) C cinfo) r)
  | l => (l, r)
  end.

(** [implementations(I)]: the concrete types known so far that implement [I]. *)
Definition implementations (I : nat) (r : rta) : list type * rta :=
  let '(iinfo, r) := getInterfaceTypeInfo I r in
  if ii_computed iinfo then (ii_implementations iinfo, r)
  else
    match interfaceToTypes r ≫= (λ m, m !! I) with
    | Some cached =>
        let iinfo := ii_with_implementations cached true iinfo in
        (cached, with_interfaceTypes (Set_ (interfaceTypes r) (TInterface I) iinfo) r)
    | None =>
        let hit (e : type * concreteTypeInfo) := implements (snd e) iinfo in
        let cts := map (λ e, if hit e
                             then (fst e, ci_with_implements (ci_implements (snd e) ++ [I]) (snd e))
                             else e) (concreteTypes r) in
        let impls := ii_implementations iinfo ++
                     map (λ e, ci_C (snd e)) (filter (λ e, hit e = true) (concreteTypes r)) in
        let iinfo := ii_with_implementations impls true iinfo in
        let r := with_concreteTypes cts r in
        let r := with_interfaceTypes (Set_ (interfaceTypes r) (TInterface I) iinfo) r in
        let r := match interfaceToTypes r with
                 | Some m => with_index (Some (<[I := impls]> m)) (typeToInterfaces r) r
                 | None => r
                 end in
        (impls, r)
    end.

(** [addInvokeEdge]: called for each new pair (site, C). *)
Definition addInvokeEdge (site : CallCommon) (C : type) (r : rta) : outcome rta :=
  let C := Unalias C in
  match cc_method site with
  | None => Panic
  | Some imethod =>
      let methodName := fo_name imethod in
      let sel := Lookup (MethodSet C) (fo_pkg imethod) methodName in
      let '(sel, C) :=
        match sel with
        | Some s => (Some s, C)
        | None =>
            match C with
            | TPointer _ => (None, C)
            | _ =>
                match Lookup (MethodSet (TPointer C)) (fo_pkg imethod) methodName with
                | Some s => (Some s, TPointer C)
                | None => (None, C)
                end
            end
        end in
      match sel with
      | None => Ok r
      | Some _ =>
          cmethod ←! LookupMethod C (fo_pkg imethod) methodName;
          Ok (addEdge cmethod true r)
      end
  end.

(** The loop the source repeats for a new concrete runtime type:
    [for _, I := range r.interfaces(T) { for _, site := range sites(I)
     { r.addInvokeEdge(site, T) } }]. *)
Definition addInvokeEdges (T : type) (r : rta) : outcome rta :=
  let '(Is, r) := interfaces T r in
  forM Is (λ I r,
    forM (default [] (At (invokeSites r) (TInterface I)))
         (λ site r, addInvokeEdge site T r) r) r.

Definition visitInvoke (site : CallCommon) (r : rta) : outcome rta :=
  match asInterface (value_type (cc_value site)) with
  | None => Panic
  | Some iface =>
      let sites := default [] (At (invokeSites r) (TInterface iface)) in
      let r := with_invokeSites (Set_ (invokeSites r) (TInterface iface) (sites ++ [site])) r in
      let '(Cs, r) := implementations iface r in
      forM Cs (λ C r, addInvokeEdge site C r) r
  end.

(** ** Known-safe contexts *)

Definition callsKnownSafe (i : Instruction) : option (list string) :=
  match i with
  | ICall c =>
      match StaticCallee c with
      | Some g => knownSafe (fn_string (func g))
      | None => None
      end
  | _ => None
  end.

(** [isInKnownSafeContext]. *)
Definition isInKnownSafeContext (r : rta) : bool :=
  match currentFunction r with
  | None => false
  | Some f =>
      existsb (λ block, existsb (λ i, bool_decide (is_Some (callsKnownSafe i))) block)
              (fn_blocks (func f))
  end.

Definition commonReflectionMethods : list string :=
  ["MarshalJSON"; "UnmarshalJSON"; "MarshalText"; "UnmarshalText";
   "String"; "GoString"; "Error"; "Format"].

(** [shouldMarkMethodForReflection]: dereferences [r.currentFunction]. *)
Definition shouldMarkMethodForReflection (method : Func) (r : rta) : outcome bool :=
  match currentFunction r with
  | None => Panic
  | Some f =>
      Ok (existsb (λ block,
                     existsb (λ i, match callsKnownSafe i with
                                   | Some methods => Contains methods (fo_name method)
                                   | None => false
                                   end) block)
                  (fn_blocks (func f))
          || Contains commonReflectionMethods (fo_name method))
  end.

(** ** The implementation index *)

(** [r.interfaceToTypes[iface] = append(..., T)] and the same for
    [r.typeToInterfaces]; a write to a nil map panics. *)
Definition indexAdd (iface : nat) (T : type) (r : rta) : outcome rta :=
  match interfaceToTypes r, typeToInterfaces r with
  | Some i2t, Some t2i =>
      Ok (with_index
            (Some (<[iface := default [] (i2t !! iface) ++ [T]]> i2t))
            (Some (tm_insert T (default [] (tm_lookup T t2i) ++ [iface]) t2i)) r)
  | _, _ => Panic
  end.

(** [addTypeToIndex]. *)
Definition addTypeToIndex (T : type) (r : rta) : outcome rta :=
  match interfaceToTypes r with
  | None => Ok r
  | Some _ =>
      if isInterface T then Ok r
      else
        let '(cinfo, r) := getConcreteTypeInfo T r in
        forM (interfaceTypes r)
          (λ e r,
             let iinfo := snd e in
             if negb (Z.ldiff (ii_fprint iinfo) (ci_fprint cinfo) =? 0)%Z then Ok r
             else if types_Implements T (ii_I iinfo)
                     || types_Implements (TPointer T) (ii_I iinfo)
                  then indexAdd (ii_I iinfo) T r
                  else Ok r) r
  end.

Definition memberTypes (members : list Member) : list type :=
  omap (λ m, match m with MType T => Some T | MOther => None end) members.

(** Appends to [userTypes] the types of [Ts] not seen before. *)
Definition collectUnseen (Ts : list type) (acc : list type * list type)
  : list type * list type :=
  foldl (λ '(userTypes, seen) T,
           if isInterface T then (userTypes, seen)
           else if bool_decide (T ∈ seen) then (userTypes, seen)
           else (userTypes ++ [T], T :: seen)) acc Ts.

(** [buildUserTypesIndex]. *)
Definition buildUserTypesIndex (r : rta) : outcome rta :=
  if userTypesIndexBuilt r then Ok r
  else
    let acc := collectUnseen (map fst (RuntimeTypes (result r))) (userTypes r, []) in
    let acc := foldl (λ acc pkg,
                        match pkg_path pkg with
                        | None => acc
                        | Some path =>
                            if negb (hasModulePath path) then acc
                            else collectUnseen (memberTypes (pkg_members pkg)) acc
                        end) acc (prog_packages prog) in
    let r := with_userTypes (userTypesIndexBuilt r) (fst acc) r in
    let r := foldl (λ r T, snd (getConcreteTypeInfo (TPointer T)
                                  (snd (getConcreteTypeInfo T r)))) r (userTypes r) in
    let r := match interfaceToTypes r with
             | None => with_index (Some ∅) (Some []) r
             | Some _ => r
             end in
    let iinfoCache := map snd (interfaceTypes r) in
    r ←! forM (userTypes r)
          (λ T r,
             let '(valueInfo, r) := getConcreteTypeInfo T r in
             let '(ptrInfo, r) := getConcreteTypeInfo (TPointer T) r in
             forM iinfoCache
               (λ iinfo r,
                  let valueFingerprintMatches :=
                    (Z.ldiff (ii_fprint iinfo) (ci_fprint valueInfo) =? 0)%Z in
                  let ptrFingerprintMatches :=
                    (Z.ldiff (ii_fprint iinfo) (ci_fprint ptrInfo) =? 0)%Z in
                  if negb valueFingerprintMatches && negb ptrFingerprintMatches then Ok r
                  else if types_Implements T (ii_I iinfo)
                          || types_Implements (TPointer T) (ii_I iinfo)
                       then indexAdd (ii_I iinfo) T r
                       else Ok r) r) r;
    Ok (with_userTypes true (userTypes r) r).

(** [r.interfaceToTypes[iface]]: reading a nil map gives nil. *)
Definition indexLookup (iface : nat) (r : rta) : list type :=
  default [] (interfaceToTypes r ≫= (λ m, m !! iface)).

(** [findAllImplementationsInProgram]. *)
Definition findAllImplementationsInProgram (iface : nat) (r : rta)
  : outcome (list type * rta) :=
  r ←! buildUserTypesIndex r;
  Ok (indexLookup iface r, r).

(** [markInterfaceMethodsReachable]: both the value and the pointer
    method set are searched. *)
Definition markInterfaceMethodsReachable (T : type) (iface : nat) (r : rta) : rta :=
  let valueMset := MethodSet T in
  let ptrMset := MethodSet (TPointer T) in
  foldl (λ r method,
           foldl (λ r mset,
                    match Lookup mset (fo_pkg method) (fo_name method) with
                    | Some sel => markSelection sel r
                    | None => r
                    end) r [valueMset; ptrMset])
        r (prog_iface_methods prog iface).

(** [isStdlibFunction]. *)
Definition isStdlibFunction (f : option fn) : bool :=
  match f with
  | None => false
  | Some f =>
      match fn_pkg (func f) with
      | None => false
      | Some path => negb (hasModulePath path)
      end
  end.

(** ** Finalizers *)

(** [checkSetFinalizer]. *)
Definition checkSetFinalizer (call : CallCommon) (r : rta) : rta :=
  if IsInvoke call then r
  else
    match cc_value call with
    | VFunction calledFn =>
        match fn_object (func calledFn) with
        | None => r
        | Some obj =>
            match ob_pkg obj with
            | None => r
            | Some path =>
                if negb (String.eqb path "runtime")
                   || negb (String.eqb (ob_name obj) "SetFinalizer")
                   || bool_decide (length (cc_args call) < 2)
                then r
                else
                  match cc_args call !! 1 with
                  | None => r
                  | Some finalizerArg =>
                      let finalizerArg :=
                        match finalizerArg with
                        | VMakeInterface x _ => x
                        | _ => finalizerArg
                        end in
                      match finalizerArg with
                      | VFunction f => addReachable (Some f) true r
                      | VMakeClosure closureFn => addReachable (Some closureFn) true r
                      | _ => r
                      end
                  end
            end
        end
    | _ => r
    end.

(** ** Runtime types *)

Definition inRuntimeTypes (T : type) (r : rta) : bool :=
  bool_decide (is_Some (At (RuntimeTypes (result r)) T)).

Definition setRuntimeType (T : type) (skip : bool) (r : rta) : rta :=
  with_RuntimeTypes (Set_ (RuntimeTypes (result r)) T skip) r.

(** [addRuntimeTypeStructure], over the recursive call [rec] to
    [addRuntimeType]. *)
Definition addRuntimeTypeStructure_ (rec : type → bool → rta → outcome rta)
    (T : type) (r : rta) : outcome rta :=
  match T with
  | TAlias _ _ => rec (Unalias T) true r
  | TPointer e => rec e true r
  | TSlice e => rec e true r
  | TChan e => rec e true r
  | TMap k e => r ←! rec k true r; rec e true r
  | TNamed n =>
      r ←! rec (TPointer T) true r;
      rec (prog_underlying prog n) true r
  | TArray _ e => rec e true r
  | TStruct fields => forM fields (λ F, rec F true) r
  | TTuple vars => forM vars (λ V, rec V true) r
  | _ => Ok r
  end.

(** The second walk over the type structure, at the end of
    [addRuntimeType]. *)
Definition addRuntimeTypeChildren (rec : type → bool → rta → outcome rta)
    (T : type) (skip : bool) (r : rta) : outcome rta :=
  match T with
  | TAlias _ _ => rec (Unalias T) skip r
  | TBasic _ => Ok r
  | TInterface _ => Ok r
  | TPointer e => rec e skip r
  | TSlice e => rec e skip r
  | TChan e => rec e skip r
  | TMap k e => r ←! rec k skip r; rec e skip r
  | TSignature params results =>
      r ←! rec (TTuple params) skip r;
      rec (TTuple results) skip r
  | TNamed n =>
      r ←! rec (TPointer T) skip r;
      r ←! rec (prog_underlying prog n) true r;
      forM (prog_named_methods prog n) (λ m, rec (fo_type m) skip) r
  | TArray _ e => rec e skip r
  | TStruct fields => forM fields (λ F, rec F skip) r
  | TTuple vars => forM vars (λ V, rec V skip) r
  | TTypeParam _ _ => Ok r
  | TUnion _ => Ok r      (* default: a warning is logged, nothing else *)
  end.

(** The methods [addRuntimeType] marks when the current function is
    itself an allow-listed function. *)
Definition markContextMethods (mset : list Selection) (r : rta) : rta :=
  match currentFunction r with
  | None => r
  | Some calledFunc =>
      match knownSafe (fn_string (func calledFunc)) with
      | Some methodNames =>
          foldl (λ r methodName,
                   match Lookup mset None methodName with
                   | Some sel => markSelection sel r
                   | None => r
                   end) r methodNames
      | None => r
      end
  end.

(** The loop over all exported methods in [addRuntimeType]. *)
Definition markExportedMethods (mset : list Selection) (r : rta) : rta :=
  foldl (λ r sel,
           let m := sel_obj sel in
           if Exported m then
             if bool_decide (is_Some (currentFunction r)) && isInKnownSafeContext r
                && match currentFunction r with
                   | Some f =>
                       match knownSafe (fn_string (func f)) with
                       | Some methodNames => Contains methodNames (fo_name m)
                       | None => false
                       end
                   | None => false
                   end
             then r
             else markSelection sel r
           else r) r mset.

(** [addRuntimeType] after [r.result.RuntimeTypes.Set(T, skip)], for a
    type that was not a runtime type yet. *)
Definition addRuntimeTypeNew (rec : type → bool → rta → outcome rta)
    (T : type) (skip : bool) (r : rta) : outcome rta :=
  r ←! addTypeToIndex T r;
  r ←! addRuntimeTypeStructure_ rec T r;
  let mset := MethodSet T in
  r ←! (if negb skip && negb (isInterface T) then addInvokeEdges T r else Ok r);
  let '(skip, r) :=
    if negb skip && bool_decide (is_Some (currentFunction r))
       && isInKnownSafeContext r
    then (true, markContextMethods mset r)
    else (skip, r) in
  let r := if negb skip then markExportedMethods mset r else r in
  addRuntimeTypeChildren rec T skip r.

(** [addRuntimeType]; [fuel] bounds the depth of the recursion. *)
Fixpoint addRuntimeType (fuel : nat) (T : type) (skip : bool) (r : rta)
  : outcome rta :=
  match fuel with
  | O => OutOfFuel
  | S fuel =>
      match At (RuntimeTypes (result r)) T with
      | Some prev =>
          Ok (if skip && negb prev then setRuntimeType T skip r else r)
      | None =>
          addRuntimeTypeNew (addRuntimeType fuel) T skip (setRuntimeType T skip r)
      end
  end.

(** [addRuntimeTypeStructure]. *)
Definition addRuntimeTypeStructure (fuel : nat) (T : type) (r : rta) : outcome rta :=
  addRuntimeTypeStructure_ (addRuntimeType fuel) T r.

(** [addRuntimeTypeForInterface]; a nil [iface] is [None]. *)
Definition addRuntimeTypeForInterface (fuel : nat) (T : type) (iface : option nat)
    (skip : bool) (r : rta) : outcome rta :=
  let T := Unalias T in
  let alreadyInRuntimeTypes := inRuntimeTypes T r in
  let r := if alreadyInRuntimeTypes then r else setRuntimeType T skip r in
  let mset := MethodSet T in
  r ←! (if isInterface T then Ok r
        else
          match iface with
          | None => Panic
          | Some i =>
              let r := foldl (λ r method,
                                match Lookup mset (fo_pkg method) (fo_name method) with
                                | Some sel => markSelection sel r
                                | None => r
                                end) r (prog_iface_methods prog i) in
              if alreadyInRuntimeTypes then Ok r else addInvokeEdges T r
          end);
  if alreadyInRuntimeTypes then Ok r else addRuntimeTypeStructure fuel T r.

(** [addRuntimeTypeSelective]. *)
Definition addRuntimeTypeSelective (T : type) (skip : bool) (r : rta) : outcome rta :=
  let T := Unalias T in
  if inRuntimeTypes T r then Ok r
  else
    let r := setRuntimeType T skip r in
    let mset := MethodSet T in
    if isInterface T then Ok r
    else
      r ←! forM mset
            (λ sel r,
               let m := sel_obj sel in
               if Exported m then
                 b ←! shouldMarkMethodForReflection m r;
                 Ok (if b then markSelection sel r else r)
               else Ok r) r;
      addInvokeEdges T r.

(** [markImplementorsMethodsReachable]. *)
Definition markImplementorsMethodsReachable (fuel : nat) (targetIface : nat) (r : rta)
  : outcome rta :=
  forM (prog_packages prog)
    (λ pkg r,
       match pkg_path pkg with
       | None => Ok r
       | Some _ =>
           forM (memberTypes (pkg_members pkg))
             (λ T r,
                if isInterface T then Ok r
                else if types_Implements T targetIface
                        || types_Implements (TPointer T) targetIface
                then
                  if inRuntimeTypes T r then
                    Ok (foldl (λ r ifaceMethod,
                                 match Lookup (MethodSet T) (fo_pkg ifaceMethod)
                                              (fo_name ifaceMethod) with
                                 | Some sel => markSelection sel r
                                 | None => r
                                 end) r (prog_iface_methods prog targetIface))
                  else addRuntimeType fuel T false r
                else Ok r) r
       end) r.

(** ** Instructions *)

(** [handleMakeInterface]. *)
Definition handleMakeInterface (fuel : nat) (x : value) (t : type) (r : rta)
  : outcome rta :=
  match asInterface t with
  | Some iface =>
      if Nat.eqb (NumMethods iface) 0 then
        let targetIface :=
          match value_type x with
          | TPointer elemType =>
              match elemType with
              | TNamed n =>
                  match prog_underlying prog n with
                  | TInterface i => Some i
                  | _ => None
                  end
              | _ => asInterface elemType
              end
          | _ => None
          end in
        match targetIface with
        | Some ti => markImplementorsMethodsReachable fuel ti r
        | None =>
            if isInKnownSafeContext r
            then addRuntimeTypeSelective (value_type x) false r
            else addRuntimeType fuel (value_type x) false r
        end
      else addRuntimeTypeForInterface fuel (value_type x) (Some iface) false r
  | None => addRuntimeTypeForInterface fuel (value_type x) None false r
  end.

(** [handleTypeAssert]. *)
Definition handleTypeAssert (x : value) (AssertedType : type) (r : rta)
  : outcome rta :=
  let toConcrete :=
    match asInterface (value_type x) with
    | Some sourceIface =>
        if Nat.ltb 0 (NumMethods sourceIface) && negb (isInterface AssertedType)
        then Some sourceIface else None
    | None => None
    end in
  match toConcrete with
  | Some sourceIface => Ok (markInterfaceMethodsReachable AssertedType sourceIface r)
  | None =>
      match asInterface AssertedType with
      | None => Ok r
      | Some iface =>
          if Nat.eqb (NumMethods iface) 0 then Ok r
          else
            r ←! buildUserTypesIndex r;
            if isStdlibFunction (currentFunction r) then
              Ok (foldl (λ r T,
                           if inRuntimeTypes T r
                           then markInterfaceMethodsReachable T iface r
                           else r) r (indexLookup iface r))
            else
              '(Ts, r) ←! findAllImplementationsInProgram iface r;
              Ok (foldl (λ r T, markInterfaceMethodsReachable T iface r) r Ts)
      end
  end.

(** [handleChangeInterface]. *)
Definition handleChangeInterface (t : type) (r : rta) : outcome rta :=
  match asInterface t with
  | None => Ok r
  | Some targetIface =>
      if Nat.eqb (NumMethods targetIface) 0 then Ok r
      else
        '(Ts, r) ←! findAllImplementationsInProgram targetIface r;
        Ok (foldl (λ r T, markInterfaceMethodsReachable T targetIface r) r Ts)
  end.

(** The body of the instruction loop of [visitFunc]. *)
Definition visitInstr (fuel : nat) (instr : Instruction) (r : rta) : outcome rta :=
  let rands := Operands instr in
  '(rands, r) ←!
    match instr with
    | ICall call =>
        r ←! (if IsInvoke call then visitInvoke call r
              else match StaticCallee call with
                   | Some g => Ok (checkSetFinalizer call (addEdge (Some g) false r))
                   | None =>
                       match cc_value call with
                       | VBuiltin _ => Ok r
                       | _ => Ok (visitDynCall call r)
                       end
                   end);
        Ok (tail rands, r)
    | IMakeInterface x t => r ←! handleMakeInterface fuel x t r; Ok (rands, r)
    | ITypeAssert x t => r ←! handleTypeAssert x t r; Ok (rands, r)
    | IChangeInterface _ t => r ←! handleChangeInterface t r; Ok (rands, r)
    | IOther _ => Ok (rands, r)
    end;
  Ok (foldl (λ r op, match op with
                     | VFunction g => visitAddrTakenFunc g r
                     | _ => r
                     end) r rands).

(** [visitFunc]: the deferred reset of [currentFunction] runs last. *)
Definition visitFunc (fuel : nat) (f : fn) (r : rta) : outcome rta :=
  let r := with_currentFunction (Some f) r in
  r ←! forM (fn_blocks (func f)) (λ b r, forM b (visitInstr fuel) r) r;
  Ok (with_currentFunction None r).

(** ** Analyze *)

Definition initial : rta :=
  {| result := {| Reachable := ∅; ReachableObjects := ∅; RuntimeTypes := [] |};
     reflectValueCall := prog_reflectValueCall prog;
     currentFunction := None; worklist := [];
     addrTakenFuncsBySig := []; dynCallSites := []; invokeSites := [];
     concreteTypes := []; interfaceTypes := [];
     interfaceToTypes := None; typeToInterfaces := None;
     userTypesIndexBuilt := false; userTypes := [] |}.

(** The worklist loop: [shadow] takes the pending functions, the worklist
    restarts empty, every function of [shadow] is visited.  The functions
    visited so far are returned next to the state; [rounds] bounds the
    number of swaps. *)
Fixpoint drain (rounds fuel : nat) (visited : list fn) (r : rta)
  : outcome (list fn * rta) :=
  match worklist r with
  | [] => Ok (visited, r)
  | shadow =>
      match rounds with
      | O => OutOfFuel
      | S rounds =>
          r ←! forM shadow (visitFunc fuel) (with_worklist [] r);
          drain rounds fuel (visited ++ shadow) r
      end
  end.

Definition seed (roots : list (option fn)) : rta :=
  foldl (λ r root, addReachable root false r) initial roots.

(** [Analyze] with the order in which functions were visited.  All
    functions belong to the program [prog]; reading [roots[0].Prog]
    through a nil first root is a nil dereference. *)
Definition AnalyzeTrace (fuel : nat) (roots : list (option fn))
  : outcome (option (list fn * Result)) :=
  match roots with
  | [] => Ok None
  | None :: _ => Panic
  | Some _ :: _ =>
      '(visited, r) ←! drain fuel fuel [] (seed roots);
      Ok (Some (visited, result r))
  end.

Definition Analyze (fuel : nat) (roots : list (option fn)) : outcome (option Result) :=
  x ←! AnalyzeTrace fuel roots; Ok (snd <$> x).

End Engine.


(** ** Steps of the engine on the result and the worklist

    Every operation of the engine changes [Reachable], [ReachableObjects],
    [RuntimeTypes] and the worklist only through the primitive updates
    below; all other changes touch the tables and caches. *)

Section Steps.

Context {prog : Program}.

Inductive steps : rta → rta → Prop :=
| steps_aux r r' :
    result r' = result r → worklist r' = worklist r → steps r r'
| steps_reach r f b : steps r (addReachable (Some f) b r)
| steps_obj r o : steps r (addReachableObject (Some o) r)
| steps_rt_new r T b :
    At (RuntimeTypes (result r)) T = None → steps r (setRuntimeType T b r)
| steps_rt_true r T :
    At (RuntimeTypes (result r)) T = Some false → steps r (setRuntimeType T true r)
| steps_trans r1 r2 r3 : steps r1 r2 → steps r2 r3 → steps r1 r3.

(** The result only grows: functions and objects stay, a set
    address-taken flag stays set. *)
Definition Reachable_le (m m' : gmap fn bool) : Prop :=
  ∀ f b, m !! f = Some b → ∃ b', m' !! f = Some b' ∧ (b = true → b' = true).

Definition Result_le (res res' : Result) : Prop :=
  Reachable_le (Reachable res) (Reachable res')
  ∧ ReachableObjects res ⊆ ReachableObjects res'.

(** Operations on the tables and caches leave the result, the worklist
    and the current function alone. *)
Definition core_eq (r r' : rta) : Prop :=
  result r' = result r ∧ worklist r' = worklist r
  ∧ currentFunction r' = currentFunction r
  ∧ reflectValueCall r' = reflectValueCall r.

(** Runtime types stay, and a skip flag that is set stays set. *)
Definition RuntimeTypes_le (m m' : tmap bool) : Prop :=
  ∀ T b, At m T = Some b → ∃ b', At m' T = Some b' ∧ (b = true → b' = true).

(** The worklist discipline. [hist] holds the functions already taken
    off the worklist: no function is pending or visited twice, everything
    pending or visited is reachable, and a reachable function is pending
    or visited unless it is the origin template of one that is. *)
Definition WInv (hist : list fn) (res : Result) (wl : list fn) : Prop :=
  NoDup (hist ++ wl)
  ∧ (∀ f, f ∈ hist ++ wl → is_Some (Reachable res !! f))
  ∧ (∀ f, is_Some (Reachable res !! f) →
          f ∈ hist ++ wl ∨ ∃ g, g ∈ hist ++ wl ∧ Origin g = Some f ∧ f ≠ g).

(** The operations of the engine that can change the result. *)
Inductive engine_op : rta → rta → Prop :=
| op_addReachable f b r : engine_op r (addReachable f b r)
| op_addReachableObject o r : engine_op r (addReachableObject o r)
| op_markGenericTemplateReachable f r : engine_op r (markGenericTemplateReachable f r)
| op_visitAddrTakenFunc f r : engine_op r (visitAddrTakenFunc f r)
| op_visitDynCall site r : engine_op r (visitDynCall site r)
| op_addInvokeEdge site C r r' : addInvokeEdge site C r = Ok r' → engine_op r r'
| op_visitInvoke site r r' : visitInvoke site r = Ok r' → engine_op r r'
| op_markInterfaceMethodsReachable T i r :
    engine_op r (markInterfaceMethodsReachable T i r)
| op_checkSetFinalizer call r : engine_op r (checkSetFinalizer call r)
| op_markImplementorsMethodsReachable fuel i r r' :
    markImplementorsMethodsReachable fuel i r = Ok r' → engine_op r r'
| op_addRuntimeType fuel T skip r r' :
    addRuntimeType fuel T skip r = Ok r' → engine_op r r'
| op_addRuntimeTypeStructure fuel T r r' :
    addRuntimeTypeStructure fuel T r = Ok r' → engine_op r r'
| op_addRuntimeTypeForInterface fuel T iface skip r r' :
    addRuntimeTypeForInterface fuel T iface skip r = Ok r' → engine_op r r'
| op_addRuntimeTypeSelective T skip r r' :
    addRuntimeTypeSelective T skip r = Ok r' → engine_op r r'
| op_handleMakeInterface fuel x t r r' :
    handleMakeInterface fuel x t r = Ok r' → engine_op r r'
| op_handleTypeAssert x t r r' : handleTypeAssert x t r = Ok r' → engine_op r r'
| op_handleChangeInterface t r r' : handleChangeInterface t r = Ok r' → engine_op r r'
| op_buildUserTypesIndex r r' : buildUserTypesIndex r = Ok r' → engine_op r r'
| op_visitFunc fuel f r r' : visitFunc fuel f r = Ok r' → engine_op r r'
| op_drain rounds fuel visited r visited' r' :
    drain rounds fuel visited r = Ok (visited', r') → engine_op r r'.

(** The function a finalizer argument stands for, in the words of the
    specification: a make-interface wrapper is removed if present, and a
    closure construction gives its underlying function. *)
Definition unwrapMakeInterface (v : value) : value :=
  match v with
  | VMakeInterface x _ => x
  | _ => v
  end.

Definition finalizerFunction (arg : value) : option fn :=
  match unwrapMakeInterface arg with
  | VFunction f => Some f
  | VMakeClosure f => Some f
  | _ => None
  end.

(** The callee is the finalizer-registration function [runtime.SetFinalizer]. *)
Definition isSetFinalizer (g : fn) : Prop :=
  ∃ obj, fn_object (func g) = Some obj
         ∧ ob_pkg obj = Some "runtime" ∧ ob_name obj = "SetFinalizer".

(** The types [addRuntimeTypeStructure] walks to from [T]. *)
Definition structureTypes (T : type) : list type :=
  match T with
  | TAlias _ _ => [Unalias T]
  | TPointer e => [e]
  | TSlice e => [e]
  | TChan e => [e]
  | TArray _ e => [e]
  | TMap k e => [k; e]
  | TNamed n => [TPointer T; prog_underlying prog n]
  | TStruct fields => fields
  | TTuple vars => vars
  | _ => []
  end.

(** The parameter and result tuples of a signature and the signatures of
    the methods of a named type. *)
Definition signatureTypes (T : type) : list type :=
  match T with
  | TSignature params results => [TTuple params; TTuple results]
  | TNamed n => fo_type <$> prog_named_methods prog n
  | _ => []
  end.

(** The function [f] statically calls the allow-listed function [F],
    whose entry in the allow-list is [methods]. *)
Definition callsAllowListed (f F : fn) (methods : list string) : Prop :=
  ∃ block call,
    block ∈ fn_blocks (func f) ∧ ICall call ∈ block
    ∧ StaticCallee call = Some F ∧ knownSafe (fn_string (func F)) = Some methods.

(** The methods the selective marking picks inside [f]: exported, and
    named in the allow-list entry of a function called in [f] or among
    the common reflection methods. *)
Definition forceMarked (f : fn) (m : Func) : Prop :=
  Exported m = true
  ∧ ((∃ F methods, callsAllowListed f F methods ∧ fo_name m ∈ methods)
     ∨ fo_name m ∈ commonReflectionMethods).

(** A method-set entry is marked: its function is reachable and
    address-taken, or, without SSA function, its object is recorded. *)
Definition marked (sel : Selection) (res : Result) : Prop :=
  match sel_fn sel with
  | Some g => Reachable res !! g = Some true
  | None => fo_uid (sel_obj sel) ∈ ReachableObjects res
  end.

Definition registeredSite (r : rta) (site : CallCommon) : Prop :=
  ∃ iface sites, At (invokeSites r) (TInterface iface) = Some sites ∧ site ∈ sites.

(** The invoke at [site] resolves to function [g] on [T] or on
    pointer-to-[T]. *)
Definition invokeResolves (site : CallCommon) (T : type) (g : fn) : Prop :=
  ∃ m C sel,
    cc_method site = Some m ∧ (C = Unalias T ∨ C = TPointer (Unalias T))
    ∧ Lookup (MethodSet C) (fo_pkg m) (fo_name m) = Some sel ∧ sel_fn sel = Some g.

(** [T] is a pointer to an interface. *)
Definition pointerToInterface (T : type) : bool :=
  match T with
  | TPointer e => isInterface e
  | _ => false
  end.

(** Everything new in the result of [r] with respect to [r0] is a
    function of [X], the origin template of one, or an object of [Y]. *)
Definition Bound (r0 : rta) (X : fn → Prop) (Y : nat → Prop) (r : rta) : Prop :=
  (∀ g, is_Some (Reachable (result r) !! g) →
        is_Some (Reachable (result r0) !! g)
        ∨ ∃ h, (h = g ∨ Origin h = Some g) ∧ X h)
  ∧ (∀ o, o ∈ ReachableObjects (result r) → o ∈ ReachableObjects (result r0) ∨ Y o).

(** The part of the state the marks never touch. *)
Definition frame (r r' : rta) : Prop :=
  currentFunction r' = currentFunction r ∧ invokeSites r' = invokeSites r
  ∧ RuntimeTypes (result r') = RuntimeTypes (result r).

(** The functions the selective marking of [T] inside [f] may add:
    methods of [T] picked by [forceMarked], and methods that invoke
    sites registered in [r] resolve to. *)
Definition selectiveFunctions (f : fn) (T : type) (r : rta) (h : fn) : Prop :=
  (∃ sel, sel ∈ MethodSet T ∧ forceMarked f (sel_obj sel) ∧ sel_fn sel = Some h)
  ∨ (∃ site, registeredSite r site ∧ invokeResolves site T h).

Definition selectiveObjects (f : fn) (T : type) (o : nat) : Prop :=
  ∃ sel, sel ∈ MethodSet T ∧ forceMarked f (sel_obj sel)
         ∧ sel_fn sel = None ∧ fo_uid (sel_obj sel) = o.

(** *** Well-formed finite programs

    The SSA builder gives every invoke-mode call an interface-typed
    receiver and every make-interface an interface target; a program has
    finitely many types, so its types lie in a finite universe [U] closed
    under the walk of [addRuntimeType]. *)

Definition typeSuccessors (T : type) : list type :=
  structureTypes T ++ signatureTypes T.

Definition closedUniverse (U : list type) : bool :=
  forallb (λ T, forallb (λ S, bool_decide (canon S ∈ U)) (typeSuccessors T)) U.

Definition wf_instr (U : list type) (i : Instruction) : bool :=
  match i with
  | ICall c => negb (IsInvoke c) || isInterface (value_type (cc_value c))
  | IMakeInterface x t => isInterface t && bool_decide (canon (value_type x) ∈ U)
  | _ => true
  end.

Definition wf_function (U : list type) (F : Function) : bool :=
  forallb (forallb (wf_instr U)) (fn_blocks F).

Definition wf_program (U : list type) : bool :=
  closedUniverse U
  && bool_decide (map_Forall (λ _ F, wf_function U F = true) (prog_funcs prog))
  && forallb (λ pkg, forallb (λ T, bool_decide (canon T ∈ U))
                             (memberTypes (pkg_members pkg)))
             (prog_packages prog).

(** The types of [U] that are not runtime types yet. *)
Definition missing (U : list type) (m : tmap bool) : list type :=
  filter (λ T, At m T = None) U.

(** What the tables must satisfy for the engine not to panic: the two
    index maps are made together, and every registered invoke site is an
    invoke-mode call. *)
Definition index_ok (r : rta) : Prop :=
  is_Some (interfaceToTypes r) → is_Some (typeToInterfaces r).

Definition sites_ok (r : rta) : Prop :=
  ∀ k sites site, (k, sites) ∈ invokeSites r → site ∈ sites → is_Some (cc_method site).

Definition tables_ok (r : rta) : Prop := index_ok r ∧ sites_ok r.

(** Operations that leave the index, the invoke sites and the current
    function alone. *)
Definition keeps (r r' : rta) : Prop :=
  interfaceToTypes r' = interfaceToTypes r
  ∧ typeToInterfaces r' = typeToInterfaces r
  ∧ invokeSites r' = invokeSites r
  ∧ currentFunction r' = currentFunction r.

(** The loop of [addRuntimeTypeSelective] over the method set. *)
Definition selectiveBody (sel : Selection) (r : rta) : outcome rta :=
  let m := sel_obj sel in
  if Exported m then
    b ←! shouldMarkMethodForReflection m r;
    Ok (if b then markSelection sel r else r)
  else Ok r.

(** The index of implementations was built. *)
Definition indexed (r : rta) : Prop := tables_ok r ∧ is_Some (interfaceToTypes r).

(** Enough fuel is left at [x]: the tables are sound and fewer than [n]
    types of the universe [U] are still missing. *)
Definition ready (U : list type) (n : nat) (x : rta) : Prop :=
  tables_ok x ∧ (length (missing U (RuntimeTypes (result x))) < n)%nat.

(** The functions with a body that were not visited yet. *)
Definition pending (visited : list fn) : nat :=
  size (dom (prog_funcs prog) ∖ list_to_set visited : gset fn).

End Steps.

(** ** Call sites and function values

    The state of the cross product of function values and dynamic call
    sites, and what the operations that do not belong to it leave alone. *)

Section Closure.

Context {prog : Program}.

(** No function and no object was marked and nothing was enqueued. *)
Definition unmarked (r r' : rta) : Prop :=
  Reachable (result r') = Reachable (result r)
  ∧ ReachableObjects (result r') = ReachableObjects (result r)
  ∧ worklist r' = worklist r.

(** The operation recorded no dynamic call site and no function value,
    and left the current function alone. *)
Definition quiet (r r' : rta) : Prop :=
  dynCallSites r' = dynCallSites r
  ∧ addrTakenFuncsBySig r' = addrTakenFuncsBySig r
  ∧ reflectValueCall r' = reflectValueCall r
  ∧ currentFunction r' = currentFunction r.

(** [site] is a recorded dynamic call site. *)
Definition dynSite (r : rta) (site : CallCommon) : Prop :=
  ∃ sites, At (dynCallSites r) (callSignature site) = Some sites ∧ site ∈ sites.

(** [g] is a recorded function value. *)
Definition addrTakenFunc (r : rta) (g : fn) : Prop :=
  ∃ funcs, At (addrTakenFuncsBySig r) (fn_signature (func g)) = Some funcs ∧ g ∈ funcs.

(** The cross product is tabulated: a function value whose signature has
    a recorded dynamic call site is reachable and address-taken. *)
Definition dynResolved (r : rta) : Prop :=
  ∀ S sites funcs g,
    At (dynCallSites r) S = Some sites → sites ≠ [] →
    At (addrTakenFuncsBySig r) S = Some funcs → g ∈ funcs →
    Reachable (result r) !! g = Some true.

(** When the program holds [reflect.Value.Call], every recorded function
    value is reachable and address-taken. *)
Definition reflResolved (r : rta) : Prop :=
  is_Some (reflectValueCall r) →
  ∀ S funcs g, At (addrTakenFuncsBySig r) S = Some funcs → g ∈ funcs →
    Reachable (result r) !! g = Some true.

(** From [r] to [r'] the result only grew, recorded sites and function
    values stayed, and the tabulation was kept up. *)
Definition tracks (r r' : rta) : Prop :=
  Result_le (result r) (result r')
  ∧ RuntimeTypes_le (RuntimeTypes (result r)) (RuntimeTypes (result r'))
  ∧ reflectValueCall r' = reflectValueCall r
  ∧ (∀ site, dynSite r site → dynSite r' site)
  ∧ (∀ g, addrTakenFunc r g → addrTakenFunc r' g)
  ∧ (dynResolved r → dynResolved r')
  ∧ (reflResolved r → reflResolved r').

(** The implementation index lists, under an interface, only types that
    implement it themselves or through their pointer. *)
Definition index_sound (r : rta) : Prop :=
  ∀ m I Ts T, interfaceToTypes r = Some m → m !! I = Some Ts → T ∈ Ts →
    types_Implements T I || types_Implements (TPointer T) I = true.

(** The call is a dynamic call in "call" mode: neither an invoke, nor a
    static call, nor a call of a builtin. *)
Definition isDynCall (call : CallCommon) : Prop :=
  IsInvoke call = false ∧ StaticCallee call = None
  ∧ ∀ name, cc_value call ≠ VBuiltin name.

(** The operands [visitFunc] scans for function values: all but the
    called value of a call. *)
Definition scannedOperands (i : Instruction) : list value :=
  match i with
  | ICall _ => tail (Operands i)
  | _ => Operands i
  end.

End Closure.

(** ** Small programs

    Concrete SSA programs on which the engine is run. *)

Definition mkFunction (name : string) (origin : option fn)
    (blocks : list (list Instruction)) : Function :=
  {| fn_string := name; fn_origin := origin; fn_signature := TSignature [] [];
     fn_object := Some {| ob_pkg := Some "example.com/app"; ob_name := name |};
     fn_pkg := Some "example.com/app"; fn_blocks := blocks |}.

Definition libFunction (pkg name : string) : Function :=
  {| fn_string := pkg +:+ "." +:+ name; fn_origin := None;
     fn_signature := TSignature [] [];
     fn_object := Some {| ob_pkg := Some pkg; ob_name := name |};
     fn_pkg := Some pkg; fn_blocks := [] |}.

Definition staticCall (g : fn) (args : list value) : Instruction :=
  ICall {| cc_value := VFunction g; cc_method := None; cc_args := args |}.

Definition noTypes (funcs : list (fn * Function)) : Program :=
  {| prog_funcs := list_to_map funcs;
     prog_msets := λ _, [];
     prog_underlying := λ _, TStruct [];
     prog_named_methods := λ _, [];
     prog_iface_methods := λ _, [];
     prog_packages := [];
     prog_reflectValueCall := None |}.

(** [main] calls the instantiation [Container[int].Add] (function 1) of
    the generic method [Container[T].Add] (function 2). *)
Definition genericProgram : Program :=
  noTypes
    [ (0, mkFunction "main" None [[staticCall 1 [VOther (TBasic "int")]]]);
      (1, mkFunction "Container[int].Add" (Some 2) [[IOther []]]);
      (2, mkFunction "Container[T].Add" None [[IOther []]]) ].

(** [main] registers the closure 2 as a finalizer:
    [runtime.SetFinalizer(r, func() { ... })]. *)
Definition setFinalizerCall : CallCommon :=
  {| cc_value := VFunction 1; cc_method := None;
     cc_args := [VMakeInterface (VOther (TPointer (TNamed 0))) (TInterface 0);
                 VMakeInterface (VMakeClosure 2) (TInterface 0)] |}.

Definition finalizerProgram : Program :=
  noTypes
    [ (0, mkFunction "main" None [[ICall setFinalizerCall]]);
      (1, libFunction "runtime" "SetFinalizer");
      (2, mkFunction "main$1" None [[IOther []]]) ].

(** An invoke of [Write] on a type whose method sets are empty. *)
Definition writeMethod : Func :=
  {| fo_uid := 10; fo_pkg := Some "io"; fo_name := "Write";
     fo_params := [TSlice (TBasic "byte")]; fo_results := [TBasic "int"] |}.

Definition writeSite : CallCommon :=
  {| cc_value := VOther (TInterface 1); cc_method := Some writeMethod;
     cc_args := [VOther (TSlice (TBasic "byte"))] |}.

Definition emptyResult : Result :=
  {| Reachable := ∅; ReachableObjects := ∅; RuntimeTypes := [] |}.

(** The result of [Analyze] on the generic program. *)
Definition genericResult : Result :=
  Eval vm_compute in
    match AnalyzeTrace (prog:=genericProgram) 5 [Some 0] with
    | Ok (Some (_, res)) => res
    | _ => emptyResult
    end.

(** The state after [main] of the finalizer program has been visited. *)
Definition finalizerVisited : rta :=
  Eval vm_compute in
    match visitFunc (prog:=finalizerProgram) 5 0 (seed (prog:=finalizerProgram) [Some 0]) with
    | Ok r => r
    | _ => initial (prog:=finalizerProgram)
    end.

(** The marker-method pattern: interface [AppError] (named type 1 over
    interface 1) requires [Error] and the unexported [marker]; the struct
    [NotFoundError] (named type 2) has both with value receivers
    (functions 2 and 3) and an unrelated helper (function 4).  [main]
    passes [&appErr] to [errors.As], which converts the pointer to the
    interface into the empty interface (interface 0). *)
Definition methError : Func :=
  {| fo_uid := 100; fo_pkg := None; fo_name := "Error";
     fo_params := []; fo_results := [TBasic "string"] |}.
Definition methMarker : Func :=
  {| fo_uid := 101; fo_pkg := Some "example.com/app"; fo_name := "marker";
     fo_params := []; fo_results := [] |}.
Definition nfError : Func :=
  {| fo_uid := 200; fo_pkg := None; fo_name := "Error";
     fo_params := []; fo_results := [TBasic "string"] |}.
Definition nfMarker : Func :=
  {| fo_uid := 201; fo_pkg := Some "example.com/app"; fo_name := "marker";
     fo_params := []; fo_results := [] |}.
Definition nfGetField : Func :=
  {| fo_uid := 202; fo_pkg := Some "example.com/app"; fo_name := "getField";
     fo_params := []; fo_results := [TBasic "string"] |}.

Definition nfMethodSet : list Selection :=
  [ {| sel_obj := nfError; sel_fn := Some 2 |};
    {| sel_obj := nfGetField; sel_fn := Some 4 |};
    {| sel_obj := nfMarker; sel_fn := Some 3 |} ].

Definition markerProgram : Program :=
  {| prog_funcs := list_to_map
       [ (0, mkFunction "main" None
               [[ IMakeInterface (VOther (TPointer (TNamed 1))) (TInterface 0);
                  staticCall 1 [VOther (TNamed 5);
                                VMakeInterface (VOther (TPointer (TNamed 1))) (TInterface 0)] ]]);
         (1, libFunction "errors" "As");
         (2, mkFunction "NotFoundError.Error" None [[IOther []]]);
         (3, mkFunction "NotFoundError.marker" None [[IOther []]]);
         (4, mkFunction "NotFoundError.getField" None [[IOther []]]) ];
     prog_msets := λ T,
       if decide (T = TNamed 2) then nfMethodSet
       else if decide (T = TPointer (TNamed 2)) then nfMethodSet
       else [];
     prog_underlying := λ n,
       if decide (n = 1) then TInterface 1
       else if decide (n = 2) then TStruct [TBasic "string"]
       else TInterface 2;
     prog_named_methods := λ n, if decide (n = 2) then [nfError; nfGetField; nfMarker] else [];
     prog_iface_methods := λ i,
       if decide (i = 1) then [methError; methMarker]
       else if decide (i = 2) then [methError]
       else [];
     prog_packages :=
       [ {| pkg_path := Some "example.com/app";
            pkg_members := [MOther; MType (TNamed 1); MType (TNamed 2)] |} ];
     prog_reflectValueCall := None |}.

(** The types of the marker program: the operand of its conversion, the
    members of its package and everything their structure leads to. *)
Definition markerUniverse : list type :=
  [ TPointer (TNamed 1); TNamed 1; TInterface 1;
    TNamed 2; TPointer (TNamed 2); TStruct [TBasic "string"]; TBasic "string";
    TSignature [] [TBasic "string"]; TSignature [] [];
    TTuple [TBasic "string"]; TTuple [] ].

(** [main] passes a [User] (named type 1) to [json.Marshal]; [User] has
    the exported methods [Export], [MarshalJSON] and [String] (functions
    4, 2 and 3). *)
Definition userMarshalJSON : Func :=
  {| fo_uid := 300; fo_pkg := Some "example.com/app"; fo_name := "MarshalJSON";
     fo_params := []; fo_results := [TSlice (TBasic "byte"); TNamed 9] |}.
Definition userString : Func :=
  {| fo_uid := 301; fo_pkg := Some "example.com/app"; fo_name := "String";
     fo_params := []; fo_results := [TBasic "string"] |}.
Definition userExport : Func :=
  {| fo_uid := 302; fo_pkg := Some "example.com/app"; fo_name := "Export";
     fo_params := []; fo_results := [] |}.

Definition userMethodSet : list Selection :=
  [ {| sel_obj := userExport; sel_fn := Some 4 |};
    {| sel_obj := userMarshalJSON; sel_fn := Some 2 |};
    {| sel_obj := userString; sel_fn := Some 3 |} ].

Definition jsonProgram : Program :=
  {| prog_funcs := list_to_map
       [ (0, mkFunction "main" None
               [[ IMakeInterface (VOther (TNamed 1)) (TInterface 0);
                  staticCall 1 [VMakeInterface (VOther (TNamed 1)) (TInterface 0)] ]]);
         (1, libFunction "encoding/json" "Marshal");
         (2, mkFunction "User.MarshalJSON" None [[IOther []]]);
         (3, mkFunction "User.String" None [[IOther []]]);
         (4, mkFunction "User.Export" None [[IOther []]]) ];
     prog_msets := λ T, if decide (T = TNamed 1) then userMethodSet else [];
     prog_underlying := λ _, TStruct [TBasic "string"];
     prog_named_methods := λ n, if decide (n = 1) then [userExport; userMarshalJSON; userString] else [];
     prog_iface_methods := λ _, [];
     prog_packages := [ {| pkg_path := Some "example.com/app";
                           pkg_members := [MType (TNamed 1)] |} ];
     prog_reflectValueCall := None |}.

(** The state in which [main] of the JSON program is visited. *)
Definition jsonVisiting : rta :=
  with_currentFunction (Some 0) (seed (prog:=jsonProgram) [Some 0]).

Definition jsonConverted : rta :=
  Eval vm_compute in
    match handleMakeInterface (prog:=jsonProgram) 5 (VOther (TNamed 1)) (TInterface 0)
            jsonVisiting with
    | Ok r => r
    | _ => initial (prog:=jsonProgram)
    end.

(** A program with the types of [P] and other functions. *)
Definition withFuncs (P : Program) (funcs : list (fn * Function))
    (reflectCall : option fn) : Program :=
  {| prog_funcs := list_to_map funcs;
     prog_msets := prog_msets P;
     prog_underlying := prog_underlying P;
     prog_named_methods := prog_named_methods P;
     prog_iface_methods := prog_iface_methods P;
     prog_packages := prog_packages P;
     prog_reflectValueCall := reflectCall |}.

(** [main] stores the function [handler] (function 1) in a variable and
    calls through a variable of the same function type:
    [h := handler; ...; g()]. *)
Definition dynamicCall : CallCommon :=
  {| cc_value := VOther (TSignature [] []); cc_method := None; cc_args := [] |}.

Definition dynamicFuncs : list (fn * Function) :=
  [ (0, mkFunction "main" None [[IOther [VFunction 1]]; [ICall dynamicCall]]);
    (1, mkFunction "handler" None [[IOther []]]) ].

Definition dynamicProgram : Program := withFuncs (noTypes []) dynamicFuncs None.

(** The same [main] without the call, in a program that holds
    [reflect.Value.Call] (function 7). *)
Definition reflectProgram : Program :=
  withFuncs (noTypes [])
    [ (0, mkFunction "main" None [[IOther [VFunction 1]]]);
      (1, mkFunction "handler" None [[IOther []]]) ]
    (Some 7).

(** With the types of the marker program: [main] asserts an [AppError]
    to the concrete [NotFoundError], [err.(NotFoundError)]. *)
Definition assertProgram : Program :=
  withFuncs markerProgram
    [ (0, mkFunction "main" None [[ITypeAssert (VOther (TNamed 1)) (TNamed 2)]]) ]
    None.

(** [main] converts a [NotFoundError] to [AppError]. *)
Definition convertProgram : Program :=
  withFuncs markerProgram
    [ (0, mkFunction "main" None [[IMakeInterface (VOther (TNamed 2)) (TNamed 1)]]) ]
    None.

Definition nfMarkerSel : Selection := {| sel_obj := nfMarker; sel_fn := Some 3 |}.
Definition nfErrorSel : Selection := {| sel_obj := nfError; sel_fn := Some 2 |}.

(** The state of the marker program after [NotFoundError] has become a
    runtime type as a mere component of another type. *)
Definition markerSkipped : rta :=
  Eval vm_compute in
    match addRuntimeType (prog:=markerProgram) 10 (TNamed 2) true
            (initial (prog:=markerProgram)) with
    | Ok r => r
    | _ => initial (prog:=markerProgram)
    end.

(** The marker program once the interface [AppError] is known to the
    engine. *)
Definition markerKnown : rta :=
  snd (getInterfaceTypeInfo (prog:=markerProgram) 1 (initial (prog:=markerProgram))).

(** An invoke of [marker] through an [AppError]. *)
Definition markerSite : CallCommon :=
  {| cc_value := VOther (TNamed 1); cc_method := Some methMarker; cc_args := [] |}.

(** ** The caller of the engine ([findReachableMethods])

    The SSA analyzer of the tool hands its entry points to [Analyze] and
    turns the result into the set of objects it treats as used. *)

Global Instance Object_eq : EqDecision Object.
Proof. solve_decision. Defined.

Global Instance Object_countable : Countable Object.
Proof.
  refine (inj_countable' (λ o, (ob_pkg o, ob_name o))
            (λ x, {| ob_pkg := x.1; ob_name := x.2 |}) _).
  by intros [].
Defined.

(** The members of the reachable set ([types.Object]): the object of an
    SSA function, or a method object the engine tracked without an SSA
    function. *)
Inductive tobject : Type :=
| ObjFunction (o : Object)
| ObjMethod (uid : nat).

Global Instance tobject_eq : EqDecision tobject.
Proof. solve_decision. Defined.

Global Instance tobject_countable : Countable tobject.
Proof.
  refine (inj_countable' (λ o, match o with
                               | ObjFunction o => inl o
                               | ObjMethod uid => inr uid
                               end)
            (λ x, match x with
                  | inl o => ObjFunction o
                  | inr uid => ObjMethod uid
                  end) _).
  by intros [].
Defined.

(** The errors [findReachableMethods] can build. *)
Inductive analyzerError : Type :=
| ErrProgramNotInitialized       (* SSA program not initialized *)
| ErrEntryPointsNotInitialized   (* entry points not initialized *)
| ErrRTAFailed.                  (* RTA analysis failed *)

(** The fields of the analyzer that [findReachableMethods] reads; [None]
    is a nil program, a nil slice, a nil object. *)
Record Analyzer := {
  sa_program : option Program;
  sa_entryPoints : option (list (option fn));
  sa_exportedTemplateObjects : list (option nat);
}.

Section Caller.

(** [fn.TypeParams()], nil for a function that is not generic, and the
    walk of [markTemplateMethodCalls] over the syntax tree of a template
    method, which adds the methods called there to the set. *)
Variable TypeParams : fn → option (list nat).
Variable markTemplateMethodCalls : nat → gset tobject → gset tobject.

(** The filter loop: templates that are not instantiated are dropped; a
    nil entry point is dereferenced by [fn.TypeParams()]. *)
Definition concreteEntryPoints (P : Program) (entryPoints : list (option fn))
  : outcome (list fn) :=
  forM entryPoints
    (λ fn concreteEntryPoints,
       match fn with
       | None => Panic
       | Some f =>
           match TypeParams f, Origin (prog:=P) f with
           | Some _, None => Ok concreteEntryPoints
           | _, _ => Ok (concreteEntryPoints ++ [f])
           end
       end) [].

(** The two loops over the result of [Analyze]. *)
Definition reachableObjects (P : Program) (res : Result) : gset tobject :=
  let reachable : gset tobject := ∅ in
  let reachable :=
    foldl (λ reachable '(f, _),
             match fn_object (func (prog:=P) f) with
             | Some o => {[ObjFunction o]} ∪ reachable
             | None => reachable
             end) reachable (map_to_list (Reachable res)) in
  foldl (λ reachable obj, {[ObjMethod obj]} ∪ reachable) reachable
        (elements (ReachableObjects res)).

(** [findReachableMethods]: the set and the error it returns. *)
Definition findReachableMethods (fuel : nat) (sa : Analyzer)
  : outcome (option (gset tobject) * option analyzerError) :=
  match sa_program sa with
  | None => Ok (None, Some ErrProgramNotInitialized)
  | Some P =>
      match sa_entryPoints sa with
      | None => Ok (None, Some ErrEntryPointsNotInitialized)
      | Some [] => Ok (None, None)
      | Some entryPoints =>
          concrete ←! concreteEntryPoints P entryPoints;
          match concrete with
          | [] => Ok (None, None)
          | _ =>
              result ←! Analyze (prog:=P) fuel (Some <$> concrete);
              match result with
              | None => Ok (None, Some ErrRTAFailed)
              | Some res =>
                  let reachable := reachableObjects P res in
                  let reachable :=
                    foldl (λ reachable obj,
                             match obj with
                             | Some m =>
                                 markTemplateMethodCalls m ({[ObjMethod m]} ∪ reachable)
                             | None => reachable
                             end) reachable (sa_exportedTemplateObjects sa) in
                  Ok (Some reachable, None)
              end
          end
      end
  end.

End Caller.

(** The marker program handed to the analyzer, with and without entry
    points that can be analysed. *)
Definition markerAnalyzer : Analyzer :=
  {| sa_program := Some markerProgram;
     sa_entryPoints := Some [Some 0; Some 2];
     sa_exportedTemplateObjects := [Some 7; None] |}.

Definition emptyAnalyzer : Analyzer :=
  {| sa_program := None; sa_entryPoints := None;
     sa_exportedTemplateObjects := [] |}.

(** ** The test harness ([internal/harness]) *)

(** [strings.HasSuffix]. *)
Definition HasSuffix (s suffix : string) : bool :=
  (String.length suffix <=? String.length s)%nat
  && String.eqb (substring (String.length s - String.length suffix)
                   (String.length suffix) s) suffix.

(** [strings.Contains] and [strings.HasPrefix]. *)
Definition strings_Contains (s substr : string) : bool :=
  match String.index 0 substr s with
  | Some _ => true
  | None => false
  end.

Definition HasPrefix (s prefix : string) : bool := String.prefix prefix s.

(** [isInternalPackage] of the SSA analyzer. *)
Definition isInternalPackage (pkgPath : string) : bool :=
  strings_Contains pkgPath "/internal/"
  || HasSuffix pkgPath "/internal"
  || HasPrefix pkgPath "internal/"
  || String.eqb pkgPath "internal".

(** [sort.Strings]: ascending, bytes compared. *)
Fixpoint insertString (s : string) (l : list string) : list string :=
  match l with
  | [] => [s]
  | x :: l' => if String.leb s x then s :: l else x :: insertString s l'
  end.

Definition sortStrings (l : list string) : list string :=
  foldr insertString [] l.

Record ExpectedFunc := {
  ef_FuncName : string;
  ef_Reason : string;
  ef_File : string;
}.

Record UnusedFunc := {
  uf_Name : string;
  uf_Package : string;
  uf_File : string;
}.

(** The fields of [ConfigurationResult] that [validateResults] sets. *)
Record ConfigurationResult := {
  cr_Success : bool;
  cr_Message : string;
  cr_Details : list string;
}.

(** The part of [packages.Package] that [getDisplayPackageName] reads. *)
Record GoModule := { mod_Path : string }.

Record GoPackage := {
  gp_Name : string;
  gp_PkgPath : string;
  gp_Module : option GoModule;
}.

Definition getDisplayPackageName (pkg : option GoPackage) : string :=
  let pkgMain := "main" in
  match pkg with
  | None => "unknown"
  | Some pkg =>
      let packageName := gp_PkgPath pkg in
      if String.eqb (gp_Name pkg) pkgMain then
        match gp_Module pkg with
        | Some m =>
            if negb (String.eqb (mod_Path m) "")
               && String.eqb (gp_PkgPath pkg) (mod_Path m)
            then
              if negb (String.eqb (mod_Path m) pkgMain) then mod_Path m
              else pkgMain
            else packageName
        | None => packageName
        end
      else packageName
  end.

(** The maps of [validateResults]: a later entry with the same name
    replaces an earlier one. *)
Definition expectedMap (expected : list ExpectedFunc) : gmap string ExpectedFunc :=
  foldl (λ m e, <[ef_FuncName e := e]> m) ∅ expected.

Definition actualMap (actual : list UnusedFunc) : gmap string UnusedFunc :=
  foldl (λ m a, <[uf_Name a := a]> m) ∅ actual.

Section Harness.

(** The verb [%q] of [fmt.Sprintf] ([strconv.Quote]). *)
Variable quote : string → string.

(** [validateResults].  The maps are ranged over in the order of
    [map_to_list]; Go fixes no order, and the two sorted lists do not
    depend on it. *)
Definition validateResults (expected : list ExpectedFunc) (actual : list UnusedFunc)
  : ConfigurationResult :=
  let expectedMap := expectedMap expected in
  let actualMap := actualMap actual in
  let details : list string := [] in
  let success := true in
  let '(missing, success) :=
    foldl (λ '(missing, success) '(key, exp),
             match actualMap !! key with
             | None => (missing ++ [ef_FuncName exp +:+ " (" +:+ ef_Reason exp +:+ ")"],
                        false)
             | Some _ => (missing, success)
             end) ([], success) (map_to_list expectedMap) in
  let '(unexpected, success) :=
    foldl (λ '(unexpected, success) '(key, act),
             match expectedMap !! key with
             | None => (unexpected ++ [uf_Name act], false)
             | Some _ => (unexpected, success)
             end) ([], success) (map_to_list actualMap) in
  let missing := sortStrings missing in
  let unexpected := sortStrings unexpected in
  let details :=
    foldl (λ details m, details ++ ["Should have been marked unused: " +:+ m])
          details missing in
  let details :=
    foldl (λ details u, details ++ ["Should have been marked used: " +:+ u])
          details unexpected in
  let '(details, success) :=
    foldl (λ '(details, success) '(key, exp),
             match actualMap !! key with
             | Some act =>
                 if negb (String.eqb (ef_File exp) "")
                    && negb (HasSuffix (uf_File act) (ef_File exp))
                 then (details ++ ["File mismatch for " +:+ ef_FuncName exp
                                   +:+ ": expected file ending with "
                                   +:+ quote (ef_File exp) +:+ ", got "
                                   +:+ quote (uf_File act)], false)
                 else (details, success)
             | None => (details, success)
             end) (details, success) (map_to_list expectedMap) in
  let message :=
    if success
    then "All " +:+ pretty (length expected) +:+ " expected unused functions found"
    else "Test failed: " +:+ pretty (length missing) +:+ " missing, "
         +:+ pretty (length unexpected) +:+ " unexpected" in
  {| cr_Success := success; cr_Message := message; cr_Details := details |}.

End Harness.

(** ** Basic facts *)

Lemma tm_lookup_insert {V} k (v : V) m : tm_lookup k (tm_insert k v m) = Some v.
Proof.
  induction m as [|[k' v'] m IH]; simpl; repeat (case_decide; simpl); congruence.
Qed.

Lemma tm_lookup_insert_ne {V} k k' (v : V) m :
  k ≠ k' → tm_lookup k' (tm_insert k v m) = tm_lookup k' m.
Proof.
  intros Hne. induction m as [|[k0 v0] m IH]; simpl;
    repeat (case_decide; simpl); congruence.
Qed.

Lemma At_Set_eq {V} (m : tmap V) T T' v :
  canon T = canon T' → At (Set_ m T v) T' = Some v.
Proof. intros E. unfold At, Set_. rewrite E. apply tm_lookup_insert. Qed.

Lemma At_Set_ne {V} (m : tmap V) T T' v :
  canon T ≠ canon T' → At (Set_ m T v) T' = At m T'.
Proof. intros E. unfold At, Set_. by apply tm_lookup_insert_ne. Qed.

Lemma canon_idemp T : canon (canon T) = canon T.
Proof.
  revert T. fix IH 1. intros [ | | | | | |fs|vs|ps rs| | | | | ]; simpl;
    rewrite ?IH; try reflexivity.
  - f_equal. induction fs as [|x l IHl]; simpl; [done|]. by rewrite IH, IHl.
  - f_equal. induction vs as [|x l IHl]; simpl; [done|]. by rewrite IH, IHl.
  - f_equal.
    + induction ps as [|x l IHl]; simpl; [done|]. by rewrite IH, IHl.
    + induction rs as [|x l IHl]; simpl; [done|]. by rewrite IH, IHl.
Qed.

Lemma canon_Unalias T : canon (Unalias T) = canon T.
Proof. induction T; simpl; auto. Qed.

Section Facts.

Context {prog : Program}.

Lemma addReachable_old r f b v :
  Reachable (result r) !! f = Some v →
  addReachable (Some f) b r
  = with_Reachable (<[f := b || v]> (Reachable (result r))) r.
Proof.
  intros H. unfold addReachable. rewrite H. simpl.
  rewrite map_size_insert_Some by (rewrite H; eauto).
  rewrite decide_False by lia. by destruct b.
Qed.

Lemma addReachable_new r f b :
  Reachable (result r) !! f = None →
  addReachable (Some f) b r
  = markGenericTemplateReachable f
      (with_worklist (worklist r ++ [f])
         (with_Reachable (<[f := b]> (Reachable (result r))) r)).
Proof.
  intros H. unfold addReachable. rewrite H. simpl.
  rewrite map_size_insert_None by done.
  rewrite decide_True by lia. by destruct b.
Qed.

End Facts.

Arguments addReachable : simpl never.
Arguments addReachableObject : simpl never.
Arguments addEdge : simpl never.
Arguments markSelection : simpl never.
Arguments markGenericTemplateReachable : simpl never.
Arguments visitAddrTakenFunc : simpl never.
Arguments visitDynCall : simpl never.
Arguments checkSetFinalizer : simpl never.
Arguments addInvokeEdge : simpl never.
Arguments addInvokeEdges : simpl never.
Arguments visitInvoke : simpl never.
Arguments interfaces : simpl never.
Arguments implementations : simpl never.
Arguments getConcreteTypeInfo : simpl never.
Arguments getInterfaceTypeInfo : simpl never.
Arguments addTypeToIndex : simpl never.
Arguments buildUserTypesIndex : simpl never.
Arguments findAllImplementationsInProgram : simpl never.
Arguments markInterfaceMethodsReachable : simpl never.
Arguments markImplementorsMethodsReachable : simpl never.
Arguments markContextMethods : simpl never.
Arguments markExportedMethods : simpl never.
Arguments setRuntimeType : simpl never.
Arguments addRuntimeTypeNew : simpl never.
Arguments handleMakeInterface : simpl never.
Arguments handleTypeAssert : simpl never.
Arguments handleChangeInterface : simpl never.
Arguments addRuntimeTypeSelective : simpl never.
Arguments addRuntimeTypeForInterface : simpl never.
Arguments visitInstr : simpl never.
Arguments visitFunc : simpl never.
Arguments isInKnownSafeContext : simpl never.
Arguments shouldMarkMethodForReflection : simpl never.
Arguments MethodSet : simpl never.
Arguments types_Implements : simpl never.
Arguments Fingerprint : simpl never.

(** ** Every operation is a sequence of primitive steps *)

Section StepLemmas.

Context {prog : Program}.

Ltac core_tac :=
  unfold core_eq in *; simpl in *;
  repeat match goal with H : _ ∧ _ |- _ => destruct H end;
  repeat split; congruence.

Lemma core_eq_refl r : core_eq r r.
Proof. by repeat split. Qed.

Lemma core_eq_trans r1 r2 r3 : core_eq r1 r2 → core_eq r2 r3 → core_eq r1 r3.
Proof. unfold core_eq. intros (?&?&?&?) (?&?&?&?). repeat split; congruence. Qed.

Lemma core_eq_steps r r' : core_eq r r' → steps r r'.
Proof. intros (?&?&_). by apply steps_aux. Qed.

Lemma core_then r x y : core_eq x y → core_eq r x → core_eq r y.
Proof. intros. by eapply core_eq_trans. Qed.

Lemma steps_refl r : steps r r.
Proof. by apply steps_aux. Qed.

Lemma steps_then_core r x y : core_eq x y → steps r x → steps r y.
Proof. intros. eapply steps_trans; [done|by apply core_eq_steps]. Qed.

Lemma steps_then_addReachable r x f b : steps r x → steps r (addReachable f b x).
Proof.
  intros. eapply steps_trans; [done|].
  destruct f; [apply steps_reach | apply steps_refl].
Qed.

Lemma steps_then_addReachableObject r x o :
  steps r x → steps r (addReachableObject o x).
Proof.
  intros. eapply steps_trans; [done|].
  destruct o; [apply steps_obj | apply steps_refl].
Qed.

Lemma steps_then_markSelection r x sel : steps r x → steps r (markSelection sel x).
Proof.
  intros. unfold markSelection. destruct (MethodValue sel).
  - by apply steps_then_addReachable.
  - by apply steps_then_addReachableObject.
Qed.

Lemma steps_then_foldl {A} (f : rta → A → rta) l r x :
  (∀ x y, steps r x → steps r (f x y)) → steps r x → steps r (foldl f x l).
Proof.
  intros Hf. revert x. induction l as [|y l IH]; intros x Hx; simpl; auto.
Qed.

Lemma steps_then_forM {A} (body : A → rta → outcome rta) l r x r' :
  (∀ a x y, steps r x → body a x = Ok y → steps r y) →
  steps r x → forM l body x = Ok r' → steps r r'.
Proof.
  intros Hb. revert x. induction l as [|a l IH]; intros x Hx; simpl.
  - by intros [= <-].
  - destruct (body a x) as [x1| |] eqn:E; simpl; try done.
    apply IH. by eapply Hb.
Qed.

Lemma core_then_forM {A} (body : A → rta → outcome rta) l r x r' :
  (∀ a x y, core_eq r x → body a x = Ok y → core_eq r y) →
  core_eq r x → forM l body x = Ok r' → core_eq r r'.
Proof.
  intros Hb. revert x. induction l as [|a l IH]; intros x Hx; simpl.
  - by intros [= <-].
  - destruct (body a x) as [x1| |] eqn:E; simpl; try done.
    apply IH. by eapply Hb.
Qed.

Lemma core_then_foldl {A} (f : rta → A → rta) l r x :
  (∀ x y, core_eq r x → core_eq r (f x y)) → core_eq r x → core_eq r (foldl f x l).
Proof.
  intros Hf. revert x. induction l as [|y l IH]; intros x Hx; simpl; auto.
Qed.

Lemma steps_then_visitAddrTakenFunc r x f :
  steps r x → steps r (visitAddrTakenFunc f x).
Proof.
  intros Hx. unfold visitAddrTakenFunc.
  set (x1 := match At (addrTakenFuncsBySig x) _ with None => _ | Some _ => x end).
  assert (steps r x1) as H1.
  { subst x1. destruct (At _ _); [done|].
    eapply steps_then_core; [|exact Hx]. core_tac. }
  case_decide; [done|].
  destruct (reflectValueCall _); [apply steps_then_addReachable|];
    (apply steps_then_foldl; [intros; by apply steps_then_addReachable|]);
    (eapply steps_then_core; [|exact H1]; core_tac).
Qed.

Lemma steps_then_visitDynCall r x site : steps r x → steps r (visitDynCall site x).
Proof.
  intros Hx. unfold visitDynCall.
  apply steps_then_foldl; [intros; by apply steps_then_addReachable|].
  eapply steps_then_core; [|exact Hx]. core_tac.
Qed.

Lemma core_eq_getConcreteTypeInfo C r : core_eq r (snd (getConcreteTypeInfo C r)).
Proof.
  unfold getConcreteTypeInfo. destruct (At _ _); simpl; [apply core_eq_refl|].
  case_decide; core_tac.
Qed.

Lemma core_eq_getInterfaceTypeInfo i r : core_eq r (snd (getInterfaceTypeInfo i r)).
Proof.
  unfold getInterfaceTypeInfo. destruct (At _ _); core_tac.
Qed.

Lemma core_eq_interfaces C r : core_eq r (snd (interfaces C r)).
Proof.
  unfold interfaces.
  pose proof (core_eq_getConcreteTypeInfo C r) as H.
  destruct (getConcreteTypeInfo C r) as [cinfo r1]. simpl in H.
  destruct (ci_implements cinfo); simpl; core_tac.
Qed.

Lemma core_eq_implementations i r : core_eq r (snd (implementations i r)).
Proof.
  unfold implementations.
  pose proof (core_eq_getInterfaceTypeInfo i r) as H.
  destruct (getInterfaceTypeInfo i r) as [iinfo r1]. simpl in H.
  destruct (ii_computed iinfo); simpl; [done|].
  destruct (interfaceToTypes r1 ≫= _) eqn:E; simpl.
  - core_tac.
  - destruct (interfaceToTypes r1); core_tac.
Qed.

Lemma steps_then_addInvokeEdge r x site C r' :
  steps r x → addInvokeEdge site C x = Ok r' → steps r r'.
Proof.
  intros Hx. unfold addInvokeEdge. destruct (cc_method site) as [m|]; [|done].
  set (p := match Lookup (MethodSet (Unalias C)) _ _ with Some s => _ | None => _ end).
  destruct p as [[s|] C']; [|by intros [= <-]].
  destruct (LookupMethod C' _ _); simpl; try done.
  intros [= <-]. by apply steps_then_addReachable.
Qed.

Lemma steps_then_addInvokeEdges r x T r' :
  steps r x → addInvokeEdges T x = Ok r' → steps r r'.
Proof.
  intros Hx. unfold addInvokeEdges.
  pose proof (core_eq_interfaces T x) as H.
  destruct (interfaces T x) as [Is x1]. simpl in H.
  apply steps_then_forM; [|by eapply steps_then_core; [exact H|]].
  intros I0 ra rb Hra.
  apply steps_then_forM; [|done].
  intros. by eapply steps_then_addInvokeEdge.
Qed.

Lemma steps_then_visitInvoke r x site r' :
  steps r x → visitInvoke site x = Ok r' → steps r r'.
Proof.
  intros Hx. unfold visitInvoke. destruct (asInterface _) as [i|]; [|done].
  match goal with |- context [implementations i ?y] =>
    pose proof (core_eq_implementations i y) as H;
    destruct (implementations i y) as [Cs x1] end.
  simpl in H.
  apply steps_then_forM.
  - intros. by eapply steps_then_addInvokeEdge.
  - eapply steps_then_core; [exact H|].
    eapply steps_then_core; [|exact Hx]. core_tac.
Qed.

Lemma core_eq_indexAdd i T r r' : indexAdd i T r = Ok r' → core_eq r r'.
Proof.
  unfold indexAdd. destruct (interfaceToTypes r), (typeToInterfaces r); try done.
  intros [= <-]. core_tac.
Qed.

Lemma core_then_indexStep r x i T (b : bool) y :
  core_eq r x → (if b then indexAdd i T x else Ok x) = Ok y → core_eq r y.
Proof.
  intros Hx. destruct b.
  - intros H%core_eq_indexAdd. by eapply core_eq_trans.
  - by intros [= <-].
Qed.

Lemma core_eq_addTypeToIndex T r r' : addTypeToIndex T r = Ok r' → core_eq r r'.
Proof.
  unfold addTypeToIndex. destruct (interfaceToTypes r); [|intros [= <-]; apply core_eq_refl].
  destruct (isInterface T); [intros [= <-]; apply core_eq_refl|].
  pose proof (core_eq_getConcreteTypeInfo T r) as H.
  destruct (getConcreteTypeInfo T r) as [cinfo r1]. simpl in H.
  apply core_then_forM; [|done]. intros e ra rb Hra.
  destruct (negb _); [by intros [= <-]|].
  by apply core_then_indexStep.
Qed.

Lemma core_eq_buildUserTypesIndex r r' : buildUserTypesIndex r = Ok r' → core_eq r r'.
Proof.
  unfold buildUserTypesIndex. destruct (userTypesIndexBuilt r);
    [intros [= <-]; apply core_eq_refl|].
  match goal with |- obind (forM ?l ?body ?x) _ = _ → _ =>
    assert (core_eq r x) as H0; [|destruct (forM l body x) as [r2| |] eqn:E; simpl; try done] end.
  - match goal with |- core_eq r (match interfaceToTypes ?y with _ => _ end) =>
      assert (core_eq r y) as Hy end.
    { apply core_then_foldl; [|core_tac].
      intros ra T Hra.
      eapply core_then; [apply core_eq_getConcreteTypeInfo|].
      eapply core_then; [apply core_eq_getConcreteTypeInfo|]. done. }
    destruct (interfaceToTypes _); [done|]. core_tac.
  - intros [= <-].
    eapply core_then; [instantiate (1 := r2); core_tac|].
    revert E. apply core_then_forM; [|done]. intros T ra rb Hra.
    pose proof (core_eq_getConcreteTypeInfo T ra) as Ha.
    destruct (getConcreteTypeInfo T ra) as [vi r3]. simpl in Ha.
    pose proof (core_eq_getConcreteTypeInfo (TPointer T) r3) as Hb.
    destruct (getConcreteTypeInfo (TPointer T) r3) as [pi r4]. simpl in Hb.
    apply core_then_forM.
    + intros iinfo rc rd Hrc.
      destruct (_ && _); [by intros [= <-]|].
      by apply core_then_indexStep.
    + eapply core_then; [exact Hb|]. by eapply core_then.
Qed.

Lemma steps_then_markInterfaceMethodsReachable r x T i :
  steps r x → steps r (markInterfaceMethodsReachable T i x).
Proof.
  intros Hx. unfold markInterfaceMethodsReachable.
  apply steps_then_foldl; [|done]. intros ra m Hra.
  apply steps_then_foldl; [|done]. intros rb mset Hrb.
  destruct (Lookup _ _ _); [by apply steps_then_markSelection | done].
Qed.

Lemma steps_then_checkSetFinalizer r x call :
  steps r x → steps r (checkSetFinalizer call x).
Proof.
  intros Hx. unfold checkSetFinalizer.
  repeat match goal with
         | |- steps _ (match ?x with _ => _ end) => destruct x
         | |- steps _ (if ?x then _ else _) => destruct x
         end; try done; by apply steps_then_addReachable.
Qed.

Lemma steps_then_setRuntimeType_new r x T b :
  At (RuntimeTypes (result x)) T = None → steps r x → steps r (setRuntimeType T b x).
Proof. intros. eapply steps_trans; [done|]. by apply steps_rt_new. Qed.

Section Rec.

Variable rec : type → bool → rta → outcome rta.
Variable r : rta.
Hypothesis Hrec : ∀ T b x y, steps r x → rec T b x = Ok y → steps r y.

Lemma steps_then_rec_forM (l : list type) b x y :
  steps r x → forM l (λ T, rec T b) x = Ok y → steps r y.
Proof. apply steps_then_forM. intros. by eapply Hrec. Qed.

Lemma steps_then_structure T x y :
  steps r x → addRuntimeTypeStructure_ rec T x = Ok y → steps r y.
Proof.
  intros Hx. destruct T; simpl; try (by intros [= <-]);
    try (by apply Hrec); try (by apply steps_then_rec_forM).
  - destruct (rec T1 true x) as [x1| |] eqn:E; simpl; try done.
    apply Hrec. by eapply Hrec.
  - destruct (rec (TPointer (TNamed id)) true x) as [x1| |] eqn:E; simpl; try done.
    apply Hrec. by eapply Hrec.
Qed.

Lemma steps_then_children T skip x y :
  steps r x → addRuntimeTypeChildren rec T skip x = Ok y → steps r y.
Proof.
  intros Hx. destruct T; simpl; try (by intros [= <-]);
    try (by apply Hrec); try (by apply steps_then_rec_forM).
  - destruct (rec T1 skip x) as [x1| |] eqn:E; simpl; try done.
    apply Hrec. by eapply Hrec.
  - destruct (rec (TTuple params) skip x) as [x1| |] eqn:E; simpl; try done.
    apply Hrec. by eapply Hrec.
  - destruct (rec (TPointer (TNamed id)) skip x) as [x1| |] eqn:E; simpl; try done.
    destruct (rec (prog_underlying prog id) true x1) as [x2| |] eqn:E2; simpl; try done.
    apply steps_then_forM.
    + intros. by eapply Hrec.
    + eapply Hrec; [|exact E2]. by eapply Hrec.
Qed.

End Rec.

Lemma steps_then_markContextMethods r x mset :
  steps r x → steps r (markContextMethods mset x).
Proof.
  intros Hx. unfold markContextMethods.
  destruct (currentFunction x); [|done]. destruct (knownSafe _); [|done].
  apply steps_then_foldl; [|done]. intros ra m Hra.
  destruct (Lookup _ _ _); [by apply steps_then_markSelection|done].
Qed.

Lemma steps_then_markExportedMethods r x mset :
  steps r x → steps r (markExportedMethods mset x).
Proof.
  intros Hx. unfold markExportedMethods.
  apply steps_then_foldl; [|done]. intros ra sel Hra.
  destruct (Exported _); [|done].
  destruct (_ && _); [done|by apply steps_then_markSelection].
Qed.

Lemma steps_then_addRuntimeTypeNew rec r T skip x y :
  (∀ T b x y, steps r x → rec T b x = Ok y → steps r y) →
  steps r x → addRuntimeTypeNew rec T skip x = Ok y → steps r y.
Proof.
  intros Hrec Hx. unfold addRuntimeTypeNew.
  destruct (addTypeToIndex T x) as [x1| |] eqn:E1; simpl; try done.
  assert (steps r x1) as H1.
  { eapply steps_then_core; [by eapply core_eq_addTypeToIndex|done]. }
  destruct (addRuntimeTypeStructure_ rec T x1) as [x2| |] eqn:E2;
    simpl; try done.
  assert (steps r x2) as H2 by (eapply steps_then_structure; eauto).
  match goal with |- obind ?m _ = _ → _ => destruct m as [x3| |] eqn:E3 end;
    simpl; try done.
  assert (steps r x3) as H3.
  { destruct (_ && _); [by eapply steps_then_addInvokeEdges|congruence]. }
  destruct (_ && _ && _).
  - apply steps_then_children; [done|]. simpl.
    by apply steps_then_markContextMethods.
  - apply steps_then_children; [done|].
    destruct (negb skip); [by apply steps_then_markExportedMethods|done].
Qed.

Lemma steps_then_addRuntimeType r fuel : ∀ T skip x y,
  steps r x → addRuntimeType fuel T skip x = Ok y → steps r y.
Proof.
  induction fuel as [|fuel IH]; intros T skip x y Hx; simpl; [done|].
  destruct (At (RuntimeTypes (result x)) T) as [prev|] eqn:EAt.
  - intros [= <-]. destruct skip, prev; simpl; try done.
    eapply steps_trans; [done|]. by apply steps_rt_true.
  - apply steps_then_addRuntimeTypeNew; [apply IH|].
    by apply steps_then_setRuntimeType_new.
Qed.

Lemma steps_then_addRuntimeTypeStructure r fuel T x y :
  steps r x → addRuntimeTypeStructure fuel T x = Ok y → steps r y.
Proof.
  apply steps_then_structure. intros. by eapply steps_then_addRuntimeType.
Qed.

Lemma inRuntimeTypes_false T r :
  inRuntimeTypes T r = false → At (RuntimeTypes (result r)) T = None.
Proof.
  unfold inRuntimeTypes. intros H%bool_decide_eq_false.
  destruct (At _ _); [|done]. destruct H. eauto.
Qed.

Lemma steps_then_addRuntimeTypeForInterface r fuel T iface skip x y :
  steps r x → addRuntimeTypeForInterface fuel T iface skip x = Ok y → steps r y.
Proof.
  intros Hx. unfold addRuntimeTypeForInterface.
  destruct (inRuntimeTypes (Unalias T) x) eqn:Ein.
  - match goal with |- obind ?m _ = _ → _ => destruct m as [x1| |] eqn:E1 end;
      simpl; try done.
    intros [= <-]. destruct (isInterface _); [congruence|].
    destruct iface; [|done]. injection E1 as <-.
    apply steps_then_foldl; [|done]. intros ra m Hra.
    destruct (Lookup _ _ _); [by apply steps_then_markSelection|done].
  - apply inRuntimeTypes_false in Ein.
    match goal with |- obind ?m _ = _ → _ => destruct m as [x1| |] eqn:E1 end;
      simpl; try done.
    apply steps_then_addRuntimeTypeStructure.
    destruct (isInterface _).
    + injection E1 as <-. by apply steps_then_setRuntimeType_new.
    + destruct iface; [|done].
      eapply steps_then_addInvokeEdges; [|exact E1].
      apply steps_then_foldl; [|by apply steps_then_setRuntimeType_new].
      intros ra m Hra.
      destruct (Lookup _ _ _); [by apply steps_then_markSelection|done].
Qed.

Lemma steps_then_addRuntimeTypeSelective r T skip x y :
  steps r x → addRuntimeTypeSelective T skip x = Ok y → steps r y.
Proof.
  intros Hx. unfold addRuntimeTypeSelective.
  destruct (inRuntimeTypes (Unalias T) x) eqn:Ein; [by intros [= <-]|].
  apply inRuntimeTypes_false in Ein.
  destruct (isInterface _);
    [intros [= <-]; by apply steps_then_setRuntimeType_new|].
  match goal with |- obind ?m _ = _ → _ => destruct m as [x1| |] eqn:E1 end;
    simpl; try done.
  apply steps_then_addInvokeEdges.
  revert E1. apply steps_then_forM; [|by apply steps_then_setRuntimeType_new].
  intros sel ra rb Hra. destruct (Exported _); [|by intros [= <-]].
  destruct (shouldMarkMethodForReflection _ _) as [[]| |]; simpl; try done;
    intros [= <-]; [by apply steps_then_markSelection|done].
Qed.

Lemma steps_then_markImplementorsMethodsReachable r fuel i x y :
  steps r x → markImplementorsMethodsReachable fuel i x = Ok y → steps r y.
Proof.
  intros Hx. apply steps_then_forM; [|done]. intros pkg ra rb Hra.
  destruct (pkg_path pkg); [|by intros [= <-]].
  apply steps_then_forM; [|done]. intros T rc rd Hrc.
  destruct (isInterface T); [by intros [= <-]|].
  destruct (_ || _); [|by intros [= <-]].
  destruct (inRuntimeTypes T rc).
  - intros [= <-]. apply steps_then_foldl; [|done]. intros re m Hre.
    destruct (Lookup _ _ _); [by apply steps_then_markSelection|done].
  - by apply steps_then_addRuntimeType.
Qed.

Lemma steps_then_handleMakeInterface r fuel v t x y :
  steps r x → handleMakeInterface fuel v t x = Ok y → steps r y.
Proof.
  intros Hx. unfold handleMakeInterface.
  destruct (asInterface t); [|by apply steps_then_addRuntimeTypeForInterface].
  destruct (Nat.eqb _ _); [|by apply steps_then_addRuntimeTypeForInterface].
  match goal with |- match ?ti with _ => _ end = _ → _ => destruct ti end.
  - by apply steps_then_markImplementorsMethodsReachable.
  - destruct (isInKnownSafeContext x).
    + by apply steps_then_addRuntimeTypeSelective.
    + by apply steps_then_addRuntimeType.
Qed.

Lemma steps_then_findAll r i x Ts y :
  steps r x → findAllImplementationsInProgram i x = Ok (Ts, y) → steps r y.
Proof.
  intros Hx. unfold findAllImplementationsInProgram.
  destruct (buildUserTypesIndex x) as [x1| |] eqn:E; simpl; try done.
  intros [= _ <-]. eapply steps_then_core; [|done].
  by apply core_eq_buildUserTypesIndex.
Qed.

Lemma steps_then_handleTypeAssert r v t x y :
  steps r x → handleTypeAssert v t x = Ok y → steps r y.
Proof.
  intros Hx. unfold handleTypeAssert.
  match goal with |- match ?tc with _ => _ end = _ → _ => destruct tc end.
  { intros [= <-]. by apply steps_then_markInterfaceMethodsReachable. }
  destruct (asInterface t); [|by intros [= <-]].
  destruct (Nat.eqb _ _); [by intros [= <-]|].
  destruct (buildUserTypesIndex x) as [x1| |] eqn:E; simpl; try done.
  assert (steps r x1) as H1.
  { eapply steps_then_core; [|done]. by apply core_eq_buildUserTypesIndex. }
  destruct (isStdlibFunction _).
  - intros [= <-]. apply steps_then_foldl; [|done]. intros ra T Hra.
    destruct (inRuntimeTypes _ _); [|done].
    by apply steps_then_markInterfaceMethodsReachable.
  - destruct (findAllImplementationsInProgram _ _) as [[Ts x2]| |] eqn:E2;
      simpl; try done.
    intros [= <-]. apply steps_then_foldl.
    + intros. by apply steps_then_markInterfaceMethodsReachable.
    + by eapply steps_then_findAll.
Qed.

Lemma steps_then_handleChangeInterface r t x y :
  steps r x → handleChangeInterface t x = Ok y → steps r y.
Proof.
  intros Hx. unfold handleChangeInterface.
  destruct (asInterface t); [|by intros [= <-]].
  destruct (Nat.eqb _ _); [by intros [= <-]|].
  destruct (findAllImplementationsInProgram _ _) as [[Ts x2]| |] eqn:E2;
    simpl; try done.
  intros [= <-]. apply steps_then_foldl.
  - intros. by apply steps_then_markInterfaceMethodsReachable.
  - by eapply steps_then_findAll.
Qed.

Lemma steps_then_visitInstr r fuel instr x y :
  steps r x → visitInstr fuel instr x = Ok y → steps r y.
Proof.
  intros Hx. unfold visitInstr.
  match goal with |- obind ?m _ = _ → _ => destruct m as [[rands x1]| |] eqn:E end;
    simpl; try done.
  intros [= <-]. apply steps_then_foldl.
  { intros ra op Hra. destruct op; try done. by apply steps_then_visitAddrTakenFunc. }
  destruct instr as [call|v t|v t|v t|ops]; simpl in E.
  - match type of E with obind ?m _ = _ => destruct m as [x2| |] eqn:E2 end;
      simpl in E; try done.
    injection E as _ <-.
    destruct (IsInvoke call); [by eapply steps_then_visitInvoke|].
    destruct (StaticCallee call).
    + injection E2 as <-. apply steps_then_checkSetFinalizer.
      unfold addEdge. by apply steps_then_addReachable.
    + destruct (cc_value call); injection E2 as <-; try done;
        by apply steps_then_visitDynCall.
  - destruct (handleMakeInterface fuel v t x) eqn:E2; simpl in E; try done.
    injection E as _ <-. by eapply steps_then_handleMakeInterface.
  - destruct (handleTypeAssert v t x) eqn:E2; simpl in E; try done.
    injection E as _ <-. by eapply steps_then_handleTypeAssert.
  - destruct (handleChangeInterface t x) eqn:E2; simpl in E; try done.
    injection E as _ <-. by eapply steps_then_handleChangeInterface.
  - by injection E as _ <-.
Qed.

Lemma steps_then_visitFunc r fuel f x y :
  steps r x → visitFunc fuel f x = Ok y → steps r y.
Proof.
  intros Hx. unfold visitFunc.
  match goal with |- obind ?m _ = _ → _ => destruct m as [x1| |] eqn:E end;
    simpl; try done.
  intros [= <-].
  eapply steps_trans; [|by apply (steps_aux x1 (with_currentFunction None x1))].
  revert E. apply steps_then_forM.
  - intros b ra rb Hra. apply steps_then_forM; [|done].
    intros. by eapply steps_then_visitInstr.
  - eapply steps_trans; [done|]. by apply steps_aux.
Qed.

Lemma steps_seed roots : steps initial (seed roots).
Proof.
  unfold seed. apply steps_then_foldl; [|apply steps_refl].
  intros. by apply steps_then_addReachable.
Qed.

End StepLemmas.

(** ** What a mark does to the result and the worklist *)

Section Marks.

Context {prog : Program}.

Lemma Reachable_le_refl m : Reachable_le m m.
Proof. intros f b H. eauto. Qed.

Lemma Reachable_le_trans m1 m2 m3 :
  Reachable_le m1 m2 → Reachable_le m2 m3 → Reachable_le m1 m3.
Proof.
  intros H1 H2 f b Hf. destruct (H1 f b Hf) as (b1 & Hb1 & Hi1).
  destruct (H2 f b1 Hb1) as (b2 & Hb2 & Hi2). eauto.
Qed.

Lemma Result_le_refl res : Result_le res res.
Proof. split; [apply Reachable_le_refl | done]. Qed.

Lemma Result_le_trans r1 r2 r3 : Result_le r1 r2 → Result_le r2 r3 → Result_le r1 r3.
Proof.
  intros [H1 H1'] [H2 H2']. split; [by eapply Reachable_le_trans | set_solver].
Qed.

Lemma markGenericTemplateReachable_worklist f r :
  worklist (markGenericTemplateReachable f r) = worklist r.
Proof.
  unfold markGenericTemplateReachable. destruct (Origin f); [|done].
  case_decide; [done|]. by destruct (_ !! _).
Qed.

Lemma markGenericTemplateReachable_others f r :
  ReachableObjects (result (markGenericTemplateReachable f r)) = ReachableObjects (result r)
  ∧ RuntimeTypes (result (markGenericTemplateReachable f r)) = RuntimeTypes (result r).
Proof.
  unfold markGenericTemplateReachable. destruct (Origin f); [|done].
  case_decide; [done|]. by destruct (_ !! _).
Qed.

(** The template rule inserts the origin with a cleared flag when it is
    absent and changes nothing else. *)
Lemma markGenericTemplateReachable_lookup f r g :
  Reachable (result (markGenericTemplateReachable f r)) !! g
  = match Reachable (result r) !! g with
    | Some v => Some v
    | None => if bool_decide (Origin f = Some g ∧ g ≠ f) then Some false else None
    end.
Proof.
  unfold markGenericTemplateReachable. destruct (Origin f) as [t|] eqn:Et.
  - case_decide as Htf.
    + subst t. destruct (_ !! g); [done|].
      rewrite bool_decide_eq_false_2; [done|]. intros [[= ->] ?]. done.
    + destruct (Reachable (result r) !! t) eqn:Ert.
      * destruct (Reachable (result r) !! g) eqn:Erg; [done|].
        rewrite bool_decide_eq_false_2; [done|]. intros [[= ->] ?]. congruence.
      * simpl. destruct (decide (t = g)) as [->|Hne].
        -- rewrite lookup_insert_eq, Ert.
           rewrite bool_decide_eq_true_2; [done|]. split; congruence.
        -- rewrite lookup_insert_ne by done.
           destruct (_ !! g); [done|].
           rewrite bool_decide_eq_false_2; [done|]. intros [[= ->] ?]. done.
  - destruct (_ !! g); [done|].
    rewrite bool_decide_eq_false_2; [done|]. intros [[=] ?].
Qed.

Lemma addReachable_worklist f b r :
  worklist (addReachable (Some f) b r)
  = match Reachable (result r) !! f with
    | Some _ => worklist r
    | None => worklist r ++ [f]
    end.
Proof.
  destruct (Reachable (result r) !! f) eqn:E.
  - by erewrite addReachable_old.
  - rewrite addReachable_new by done.
    by rewrite markGenericTemplateReachable_worklist.
Qed.

Lemma addReachable_lookup f b r g :
  Reachable (result (addReachable (Some f) b r)) !! g
  = if decide (g = f) then Some (b || default false (Reachable (result r) !! f))
    else match Reachable (result r) !! g with
         | Some v => Some v
         | None =>
             if bool_decide (Reachable (result r) !! f = None ∧ Origin f = Some g)
             then Some false else None
         end.
Proof.
  destruct (Reachable (result r) !! f) as [v|] eqn:E.
  - erewrite addReachable_old by done. simpl.
    case_decide as Hg.
    + subst. by rewrite lookup_insert_eq.
    + rewrite lookup_insert_ne by done. by destruct (_ !! g).
  - rewrite addReachable_new by done.
    rewrite markGenericTemplateReachable_lookup. simpl.
    case_decide as Hg.
    + subst. rewrite lookup_insert_eq. by destruct b.
    + rewrite lookup_insert_ne by done. destruct (_ !! g); [done|].
      destruct (decide (Origin f = Some g)).
      * rewrite !bool_decide_eq_true_2; done.
      * rewrite !bool_decide_eq_false_2; [done| |]; naive_solver.
Qed.

Lemma addReachable_others f b r :
  ReachableObjects (result (addReachable f b r)) = ReachableObjects (result r)
  ∧ RuntimeTypes (result (addReachable f b r)) = RuntimeTypes (result r).
Proof.
  destruct f as [f|]; [|done].
  destruct (Reachable (result r) !! f) eqn:E.
  - by erewrite addReachable_old.
  - rewrite addReachable_new by done.
    destruct (markGenericTemplateReachable_others f
      (with_worklist (worklist r ++ [f])
         (with_Reachable (<[f:=b]> (Reachable (result r))) r))) as [-> ->]. done.
Qed.

Lemma addReachable_le f b r :
  Result_le (result r) (result (addReachable f b r)).
Proof.
  destruct f as [f|]; [|apply Result_le_refl].
  split.
  - intros g v Hg. rewrite addReachable_lookup. case_decide as E.
    + subst g. rewrite Hg. simpl. eexists. split; [done|].
      intros ->. by destruct b.
    + rewrite Hg. eauto.
  - by destruct (addReachable_others (Some f) b r) as [-> _].
Qed.

Lemma steps_Result_le r r' : steps r r' → Result_le (result r) (result r').
Proof.
  induction 1 as [r r' Hres _|r f b|r o|r T b _|r T _|r1 r2 r3 _ IH1 _ IH2].
  - rewrite Hres. apply Result_le_refl.
  - apply addReachable_le.
  - split; [apply Reachable_le_refl|]. simpl. set_solver.
  - split; [apply Reachable_le_refl|done].
  - split; [apply Reachable_le_refl|done].
  - by eapply Result_le_trans.
Qed.

Lemma steps_RuntimeTypes_le r r' :
  steps r r' → RuntimeTypes_le (RuntimeTypes (result r)) (RuntimeTypes (result r')).
Proof.
  induction 1 as [r r' Hres _|r f b|r o|r T b Hnew|r T Hold|r1 r2 r3 _ IH1 _ IH2].
  - rewrite Hres. intros T b ?. eauto.
  - destruct (addReachable_others (Some f) b r) as [_ ->]. intros T v ?. eauto.
  - intros T v ?. eauto.
  - intros T' v H. unfold setRuntimeType. simpl.
    destruct (decide (canon T = canon T')) as [E|E].
    + unfold At in *. rewrite E in Hnew. congruence.
    + rewrite At_Set_ne by done. eauto.
  - intros T' v H. unfold setRuntimeType. simpl.
    destruct (decide (canon T = canon T')) as [E|E].
    + rewrite At_Set_eq by done. eauto.
    + rewrite At_Set_ne by done. eauto.
  - intros T b H. destruct (IH1 T b H) as (b1 & H1 & Hi1).
    destruct (IH2 T b1 H1) as (b2 & H2 & Hi2). eauto.
Qed.

End Marks.

(** ** The worklist discipline is kept by every step *)

Section Worklist.

Context {prog : Program}.

Lemma WInv_addReachable hist f b r :
  WInv hist (result r) (worklist r) →
  WInv hist (result (addReachable (Some f) b r)) (worklist (addReachable (Some f) b r)).
Proof.
  intros (Hnd & Hin & Hdom). unfold WInv. rewrite addReachable_worklist.
  destruct (Reachable (result r) !! f) as [v|] eqn:Ef.
  - split; [done|]. split.
    + intros g Hg. rewrite addReachable_lookup. case_decide; [eauto|].
      destruct (Hin g Hg) as [w ->]. eauto.
    + intros g [w Hg]. apply Hdom. rewrite addReachable_lookup in Hg.
      case_decide; [subst; eauto|].
      destruct (Reachable (result r) !! g); [eauto|].
      rewrite bool_decide_eq_false_2 in Hg; [done|]. rewrite Ef. by intros [? _].
  - assert (f ∉ hist ++ worklist r) as Hf.
    { intros [w Hw]%Hin. congruence. }
    rewrite app_assoc. split; [|split].
    + apply NoDup_app. split; [done|]. split; [|apply NoDup_singleton].
      intros x Hx ->%list_elem_of_singleton. done.
    + intros g Hg. rewrite addReachable_lookup. case_decide; [eauto|].
      apply elem_of_app in Hg as [Hg|Hg%list_elem_of_singleton]; [|done].
      destruct (Hin g Hg) as [w ->]. eauto.
    + intros g [w Hg]. rewrite addReachable_lookup in Hg.
      case_decide as Hgf; [subst; left; set_solver|].
      destruct (Reachable (result r) !! g) eqn:Eg.
      * destruct (Hdom g) as [?|(g0 & ? & ? & ?)]; [eauto|left; set_solver|].
        right. exists g0. split; [set_solver|done].
      * case_bool_decide as Hb; [|done]. destruct Hb as [_ Hb].
        right. exists f. split; [set_solver|done].
Qed.

Lemma steps_WInv hist r r' :
  steps r r' →
  WInv hist (result r) (worklist r) → WInv hist (result r') (worklist r').
Proof.
  induction 1 as [r r' Hres Hwl|r f b|r o|r T b _|r T _|r1 r2 r3 _ IH1 _ IH2];
    try done; auto.
  - by rewrite Hres, Hwl.
  - apply WInv_addReachable.
Qed.

Lemma WInv_shift visited shadow res :
  WInv visited res shadow → WInv (visited ++ shadow) res [].
Proof. unfold WInv. by rewrite !app_nil_r. Qed.

Lemma drain_S rounds fuel visited r :
  drain (S rounds) fuel visited r
  = match worklist r with
    | [] => Ok (visited, r)
    | shadow =>
        r1 ←! forM shadow (visitFunc fuel) (with_worklist [] r);
        drain rounds fuel (visited ++ shadow) r1
    end.
Proof. done. Qed.

Lemma drain_WInv rounds fuel : ∀ visited r visited' r',
  drain rounds fuel visited r = Ok (visited', r') →
  WInv visited (result r) (worklist r) →
  WInv visited' (result r') [] ∧ worklist r' = [].
Proof.
  induction rounds as [|rounds IH]; intros visited r visited' r'.
  - simpl. destruct (worklist r) eqn:Ew; [|done].
    intros [= <- <-] H. by rewrite Ew.
  - rewrite drain_S. destruct (worklist r) as [|f0 wl] eqn:Ew.
    { intros [= <- <-] H. by rewrite Ew. }
    cbv zeta.
    match goal with |- obind ?m _ = _ → _ => destruct m as [r1| |] eqn:E end;
      simpl; try done.
    intros Hd Hinv. apply (IH _ _ _ _ Hd).
    apply WInv_shift in Hinv.
    assert (steps (with_worklist [] r) r1) as Hs.
    { revert E. apply steps_then_forM; [|apply steps_refl].
      intros. by eapply steps_then_visitFunc. }
    assert (WInv (visited ++ f0 :: wl) (result r1) (worklist r1)) as H1.
    { by eapply steps_WInv. }
    done.
Qed.

Lemma drain_Result_le rounds fuel : ∀ visited r visited' r',
  drain rounds fuel visited r = Ok (visited', r') →
  Result_le (result r) (result r').
Proof.
  induction rounds as [|rounds IH]; intros visited r visited' r'.
  - simpl. destruct (worklist r); [|done]. intros [= <- <-]. apply Result_le_refl.
  - rewrite drain_S. destruct (worklist r) as [|f0 wl] eqn:Ew.
    { intros [= <- <-]. apply Result_le_refl. }
    cbv zeta.
    match goal with |- obind ?m _ = _ → _ => destruct m as [r1| |] eqn:E end;
      simpl; try done.
    intros Hd. eapply Result_le_trans; [|by eapply IH].
    change (result r) with (result (with_worklist [] r)).
    apply steps_Result_le.
    revert E. apply steps_then_forM; [|apply steps_refl].
    intros. by eapply steps_then_visitFunc.
Qed.

Lemma WInv_initial : WInv [] (result initial) (worklist initial).
Proof.
  split; [apply NoDup_nil_2|]. split.
  - intros f Hf. by apply elem_of_nil in Hf.
  - intros f [v Hv]. simpl in Hv. by rewrite lookup_empty in Hv.
Qed.

Lemma markGenericTemplateReachable_le f r :
  Result_le (result r) (result (markGenericTemplateReachable f r)).
Proof.
  split.
  - intros g v Hg. rewrite markGenericTemplateReachable_lookup, Hg. eauto.
  - by destruct (markGenericTemplateReachable_others f r) as [-> _].
Qed.

Lemma engine_op_steps_or_le r r' : engine_op r r' → Result_le (result r) (result r').
Proof.
  destruct 1;
    try (apply steps_Result_le;
         first [ by apply steps_then_addReachable, steps_refl
               | by apply steps_then_addReachableObject, steps_refl
               | by apply steps_then_visitAddrTakenFunc, steps_refl
               | by apply steps_then_visitDynCall, steps_refl
               | by apply steps_then_markInterfaceMethodsReachable, steps_refl
               | by apply steps_then_checkSetFinalizer, steps_refl
               | by eapply steps_then_addInvokeEdge; [apply steps_refl|]
               | by eapply steps_then_visitInvoke; [apply steps_refl|]
               | by eapply steps_then_markImplementorsMethodsReachable; [apply steps_refl|]
               | by eapply steps_then_addRuntimeType; [apply steps_refl|]
               | by eapply steps_then_addRuntimeTypeStructure; [apply steps_refl|]
               | by eapply steps_then_addRuntimeTypeForInterface; [apply steps_refl|]
               | by eapply steps_then_addRuntimeTypeSelective; [apply steps_refl|]
               | by eapply steps_then_handleMakeInterface; [apply steps_refl|]
               | by eapply steps_then_handleTypeAssert; [apply steps_refl|]
               | by eapply steps_then_handleChangeInterface; [apply steps_refl|]
               | by eapply steps_then_visitFunc; [apply steps_refl|]
               | by apply core_eq_steps; eapply core_eq_buildUserTypesIndex ]).
  - apply markGenericTemplateReachable_le.
  - by eapply drain_Result_le.
Qed.

End Worklist.

(** ** Properties of the marks and of the worklist *)

Section MarkTheorems.

Context {prog : Program}.

(** C10. The result sets only grow: no operation of the engine removes a
    function from [Reachable] or an object from [ReachableObjects], and an
    [AddrTaken] flag that is true is never reset by a later operation. *)
Theorem result_monotone r r' :
  engine_op r r' → Result_le (result r) (result r').
Proof. apply engine_op_steps_or_le. Qed.

(** C6. When a function [f] with a distinct origin template [t] enters
    [Reachable], [t] is in [Reachable] afterwards, with a cleared
    [AddrTaken] flag if it was absent and its old flag otherwise, and only
    [f] is appended to the worklist. *)
Theorem generic_template_inclusion f t b r :
  Reachable (result r) !! f = None → Origin f = Some t → t ≠ f →
  Reachable (result (addReachable (Some f) b r)) !! f = Some b
  ∧ Reachable (result (addReachable (Some f) b r)) !! t
    = Some (default false (Reachable (result r) !! t))
  ∧ worklist (addReachable (Some f) b r) = worklist r ++ [f].
Proof.
  intros Hf Ho Hne. rewrite addReachable_worklist, !addReachable_lookup, Hf.
  rewrite decide_True by done. rewrite decide_False by done.
  split; [by destruct b|]. split; [|done].
  destruct (Reachable (result r) !! t); [done|].
  by rewrite bool_decide_eq_true_2.
Qed.

(** C8. If the interface method is found neither in the method set of [C]
    nor, when [C] is not a pointer, in the method set of pointer-to-[C],
    [addInvokeEdge] returns normally and leaves the state as it was. *)
Theorem addInvokeEdge_skips site C m r :
  cc_method site = Some m →
  Lookup (MethodSet (Unalias C)) (fo_pkg m) (fo_name m) = None →
  ((∀ e, Unalias C ≠ TPointer e) →
   Lookup (MethodSet (TPointer (Unalias C))) (fo_pkg m) (fo_name m) = None) →
  addInvokeEdge site C r = Ok r.
Proof.
  intros Hm Hv Hp. unfold addInvokeEdge. rewrite Hm, Hv.
  destruct (Unalias C) eqn:E; try done; rewrite Hp; done.
Qed.

(** C7. For a static call of [runtime.SetFinalizer] with at least two
    arguments, the function the second argument stands for is marked
    reachable with [AddrTaken] set; with another callee or fewer than two
    arguments the state is unchanged. *)
Theorem checkSetFinalizer_marks call g r :
  cc_method call = None → cc_value call = VFunction g →
  (isSetFinalizer g → (2 ≤ length (cc_args call))%nat →
   ∀ arg h, cc_args call !! 1 = Some arg → finalizerFunction arg = Some h →
     checkSetFinalizer call r = addReachable (Some h) true r
     ∧ Reachable (result (checkSetFinalizer call r)) !! h = Some true)
  ∧ (¬ isSetFinalizer g ∨ (length (cc_args call) < 2)%nat →
     checkSetFinalizer call r = r).
Proof.
  intros Hm Hv. unfold checkSetFinalizer, IsInvoke. rewrite Hm, Hv. split.
  - intros (obj & -> & -> & ->) Hlen arg h Harg Hh. simpl.
    rewrite bool_decide_eq_false_2 by lia. rewrite Harg.
    assert (match match arg with VMakeInterface x _ => x | _ => arg end with
            | VFunction f => addReachable (Some f) true r
            | VMakeClosure closureFn => addReachable (Some closureFn) true r
            | _ => r
            end = addReachable (Some h) true r) as ->.
    { unfold finalizerFunction, unwrapMakeInterface in Hh.
      destruct arg as [| |x t| |]; simpl in *; try congruence;
        destruct x; congruence. }
    split; [done|]. rewrite addReachable_lookup. by rewrite decide_True.
  - intros Hno. destruct (fn_object (func g)) as [obj|] eqn:Eo; [|done].
    destruct (ob_pkg obj) as [path|] eqn:Ep; [|done].
    destruct (String.eqb path "runtime") eqn:E1; [|done].
    destruct (String.eqb (ob_name obj) "SetFinalizer") eqn:E2; [|done].
    simpl. case_bool_decide as Hlen; [done|].
    destruct Hno as [Hno|Hno]; [|lia]. destruct Hno.
    apply String.eqb_eq in E1, E2. subst. by exists obj.
Qed.

(** C4 (amended). Every function is put on the worklist at most once, and
    only when it first enters [Reachable] through [addReachable]; marking
    a reachable function again only ORs its flag.  Hence no function is
    visited twice, every visited function is reachable, and a reachable
    function is visited unless it is an origin template inserted by the
    template rule for a visited function. *)
Theorem worklist_discipline fuel roots visited res :
  AnalyzeTrace fuel roots = Ok (Some (visited, res)) →
  NoDup visited
  ∧ (∀ f, f ∈ visited → is_Some (Reachable res !! f))
  ∧ (∀ f, is_Some (Reachable res !! f) →
          f ∈ visited ∨ ∃ g, g ∈ visited ∧ Origin g = Some f ∧ f ≠ g)
  ∧ (∀ r f b, Reachable (result r) !! f = None →
              worklist (addReachable (Some f) b r) = worklist r ++ [f])
  ∧ (∀ r f b v, Reachable (result r) !! f = Some v →
                addReachable (Some f) b r
                = with_Reachable (<[f := b || v]> (Reachable (result r))) r).
Proof.
  intros H.
  assert (WInv visited res []) as (Hnd & Hin & Hdom).
  { unfold AnalyzeTrace in H. destruct roots as [|[f0|] roots]; try done.
    destruct (drain _ _ _ _) as [[v r']| |] eqn:E; simpl in H; try done.
    injection H as <- <-.
    apply drain_WInv in E as [? _]; [done|].
    eapply steps_WInv; [apply steps_seed|apply WInv_initial]. }
  rewrite app_nil_r in *.
  split; [done|]. split; [done|]. split; [done|]. split.
  - intros r f b Hf. by rewrite addReachable_worklist, Hf.
  - intros r f b v Hf. by apply addReachable_old.
Qed.

End MarkTheorems.

(** A run of the generic program: the template 2 is reachable and was
    never visited. *)
Lemma worklist_discipline_counterexample :
  ∃ res,
    AnalyzeTrace (prog:=genericProgram) 5 [Some 0] = Ok (Some ([0; 1], res))
    ∧ Reachable res !! 2 = Some false ∧ 2 ∉ [0; 1].
Proof.
  eexists. split; [vm_compute; reflexivity|].
  split; [by vm_compute|]. set_solver.
Qed.

Lemma worklist_discipline_witness :
  AnalyzeTrace (prog:=genericProgram) 5 [Some 0] = Ok (Some ([0; 1], genericResult))
  ∧ NoDup [0; 1]
  ∧ (∀ f, is_Some (Reachable genericResult !! f) →
          f ∈ [0; 1] ∨ ∃ g, g ∈ [0; 1] ∧ Origin (prog:=genericProgram) g = Some f ∧ f ≠ g).
Proof.
  assert (AnalyzeTrace (prog:=genericProgram) 5 [Some 0]
          = Ok (Some ([0; 1], genericResult))) as H by (vm_compute; reflexivity).
  split; [exact H|].
  destruct (worklist_discipline (prog:=genericProgram) 5 [Some 0] [0; 1] genericResult H)
    as (Hnd & _ & Hdom & _).
  split; [exact Hnd | exact Hdom].
Defined.

Lemma result_monotone_witness :
  visitFunc (prog:=finalizerProgram) 5 0 (seed (prog:=finalizerProgram) [Some 0])
  = Ok finalizerVisited
  ∧ Result_le (result (seed (prog:=finalizerProgram) [Some 0])) (result finalizerVisited).
Proof.
  assert (visitFunc (prog:=finalizerProgram) 5 0 (seed (prog:=finalizerProgram) [Some 0])
          = Ok finalizerVisited) as H by (vm_compute; reflexivity).
  split; [exact H|].
  exact (result_monotone (prog:=finalizerProgram) _ _ (op_visitFunc 5 0 _ _ H)).
Defined.

Lemma generic_template_inclusion_witness :
  Reachable (result (seed (prog:=genericProgram) [Some 0])) !! 1 = None
  ∧ Origin (prog:=genericProgram) 1 = Some 2
  ∧ Reachable (result (addReachable (prog:=genericProgram) (Some 1) false
                         (seed (prog:=genericProgram) [Some 0]))) !! 2 = Some false
  ∧ worklist (addReachable (prog:=genericProgram) (Some 1) false
                (seed (prog:=genericProgram) [Some 0])) = [0; 1].
Proof.
  assert (Reachable (result (seed (prog:=genericProgram) [Some 0])) !! 1 = None) as H1
    by (vm_compute; reflexivity).
  assert (Origin (prog:=genericProgram) 1 = Some 2) as H2 by (vm_compute; reflexivity).
  assert (2 ≠ 1) as H3 by lia.
  destruct (generic_template_inclusion (prog:=genericProgram) 1 2 false _ H1 H2 H3)
    as (_ & Ht & Hw).
  split; [exact H1|]. split; [exact H2|]. split.
  - etransitivity; [exact Ht|]. vm_compute. reflexivity.
  - etransitivity; [exact Hw|]. vm_compute. reflexivity.
Defined.

Lemma addInvokeEdge_skips_witness :
  addInvokeEdge (prog:=noTypes []) writeSite (TNamed 3) (initial (prog:=noTypes []))
  = Ok (initial (prog:=noTypes [])).
Proof.
  apply (addInvokeEdge_skips (prog:=noTypes []) writeSite (TNamed 3) writeMethod).
  - reflexivity.
  - reflexivity.
  - intros _. reflexivity.
Defined.

Lemma checkSetFinalizer_marks_witness :
  cc_method setFinalizerCall = None
  ∧ cc_value setFinalizerCall = VFunction 1
  ∧ Reachable (result (checkSetFinalizer (prog:=finalizerProgram) setFinalizerCall
                         (seed (prog:=finalizerProgram) [Some 0]))) !! 2 = Some true.
Proof.
  split; [reflexivity|]. split; [reflexivity|].
  destruct (checkSetFinalizer_marks (prog:=finalizerProgram) setFinalizerCall 1
              (seed (prog:=finalizerProgram) [Some 0]) eq_refl eq_refl) as [H _].
  refine (proj2 (H _ _ (VMakeInterface (VMakeClosure 2) (TInterface 0)) 2 eq_refl eq_refl)).
  - eexists. split; [vm_compute; reflexivity|]. split; reflexivity.
  - simpl. lia.
Defined.

(** ** Fingerprints *)

Section Fingerprints.

Context {prog : Program}.

Lemma fold_lor_testbit (l : list Selection) (a n : Z) :
  Z.testbit (fold_left (λ mask sel, Z.lor mask (method_bit (sel_obj sel))) l a) n
  = Z.testbit a n || existsb (λ sel, Z.testbit (method_bit (sel_obj sel)) n) l.
Proof.
  revert a. induction l as [|sel l IH]; intros a; simpl.
  - by rewrite orb_false_r.
  - by rewrite IH, Z.lor_spec, orb_assoc.
Qed.

Lemma Fingerprint_testbit mset n :
  Z.testbit (Fingerprint mset) n
  = existsb (λ sel, Z.testbit (method_bit (sel_obj sel)) n) mset.
Proof. unfold Fingerprint. by rewrite fold_lor_testbit, Z.bits_0. Qed.

Lemma same_method_bit m sel :
  same_method m sel = true → method_bit (sel_obj sel) = method_bit m.
Proof.
  unfold same_method. intros [Hid Hty]%andb_true_iff.
  apply String.eqb_eq in Hid. apply bool_decide_eq_true in Hty.
  unfold fo_type in Hty. simpl in Hty. injection Hty as Hp Hr.
  apply (f_equal length) in Hp, Hr. rewrite !length_map in Hp, Hr.
  unfold method_bit, method_key. by rewrite Hid, Hp, Hr.
Qed.

Lemma MethodSet_interface i :
  MethodSet (TInterface i)
  = map (λ m, {| sel_obj := m; sel_fn := None |}) (prog_iface_methods prog i).
Proof. done. Qed.

(** C3. Fingerprint soundness: if [C] implements [I] in the sense of the
    type system, every bit of the fingerprint of [I] is set in the
    fingerprint of [C], so the subset test of [implements] passes. *)
Theorem fingerprint_sound C i :
  types_Implements C i = true →
  Z.ldiff (Fingerprint (MethodSet (TInterface i))) (Fingerprint (MethodSet C)) = 0%Z.
Proof.
  intros Himpl. apply Z.bits_inj'. intros n _.
  rewrite Z.ldiff_spec, Z.bits_0, !Fingerprint_testbit, MethodSet_interface.
  destruct (existsb _ (map _ _)) eqn:EI; [|done]. simpl.
  apply negb_false_iff.
  apply existsb_exists in EI as (sel & Hsel & Hbit).
  apply List.in_map_iff in Hsel as (m & <- & Hm). simpl in Hbit.
  unfold types_Implements in Himpl.
  rewrite forallb_forall in Himpl. specialize (Himpl m Hm).
  apply existsb_exists in Himpl as (csel & Hcsel & Hsame).
  apply existsb_exists. exists csel. split; [done|].
  by rewrite (same_method_bit m csel Hsame).
Qed.

Lemma MethodSet_Unalias C : MethodSet (Unalias C) = MethodSet C.
Proof.
  unfold MethodSet, asInterface, Underlying.
  assert (Unalias (Unalias C) = Unalias C) as -> by (induction C; simpl; auto).
  by rewrite canon_Unalias.
Qed.

(** The filter never rejects a real implementer: on the type infos the
    engine builds, [implements] agrees with the type system. *)
Lemma implements_complete C i r r' :
  types_Implements (Unalias C) i = true →
  implements (fst (getConcreteTypeInfo C (with_concreteTypes [] r)))
             (fst (getInterfaceTypeInfo i (with_interfaceTypes [] r'))) = true.
Proof.
  intros H. unfold getConcreteTypeInfo, getInterfaceTypeInfo, implements. simpl.
  rewrite H, andb_true_r. apply Z.eqb_eq.
  apply Z.bits_inj'. intros n _.
  rewrite Z.ldiff_spec, Z.bits_0, !Fingerprint_testbit, MethodSet_interface.
  destruct (existsb _ (map _ _)) eqn:EI; [|done]. simpl.
  apply negb_false_iff.
  apply existsb_exists in EI as (sel & Hsel & Hbit).
  apply List.in_map_iff in Hsel as (m & <- & Hm). simpl in Hbit.
  unfold types_Implements in H.
  rewrite forallb_forall in H. specialize (H m Hm).
  apply existsb_exists in H as (csel & Hcsel & Hsame).
  apply existsb_exists. exists csel. split; [done|].
  by rewrite (same_method_bit m csel Hsame).
Qed.

End Fingerprints.

Lemma fingerprint_sound_witness :
  types_Implements (prog:=markerProgram) (TNamed 2) 1 = true
  ∧ Z.ldiff (Fingerprint (MethodSet (prog:=markerProgram) (TInterface 1)))
            (Fingerprint (MethodSet (prog:=markerProgram) (TNamed 2))) = 0%Z.
Proof.
  assert (types_Implements (prog:=markerProgram) (TNamed 2) 1 = true) as H
    by (vm_compute; reflexivity).
  split; [exact H|].
  exact (fingerprint_sound (prog:=markerProgram) (TNamed 2) 1 H).
Defined.

Example crc32_check_value :
  ChecksumIEEE (list_ascii_of_string "123456789") = 0xCBF43926%Z.
Proof. by vm_compute. Qed.

Example fingerprint_marker_bits :
  Fingerprint (MethodSet (prog:=markerProgram) (TInterface 1)) = (2 ^ 6 + 2 ^ 52)%Z.
Proof. by vm_compute. Qed.

(** ** Runtime types and their structure *)

Section RuntimeStructure.

Context {prog : Program}.


Lemma keep_some x y T :
  steps x y → is_Some (At (RuntimeTypes (result x)) T) →
  is_Some (At (RuntimeTypes (result y)) T).
Proof.
  intros Hs [b H]. destruct (steps_RuntimeTypes_le x y Hs T b H) as (b' & -> & _).
  eauto.
Qed.

Section RecPost.

Variable rec : type → bool → rta → outcome rta.
Hypothesis Hrec : ∀ T b x y, rec T b x = Ok y →
  steps x y ∧ is_Some (At (RuntimeTypes (result y)) T)
  ∧ (b = true → At (RuntimeTypes (result y)) T = Some true).

Lemma rec_steps T b x y r : steps r x → rec T b x = Ok y → steps r y.
Proof. intros Hx H. eapply steps_trans; [done|]. by apply (Hrec T b). Qed.






End RecPost.

Lemma addRuntimeType_post fuel : ∀ T b x y,
  addRuntimeType fuel T b x = Ok y →
  steps x y ∧ is_Some (At (RuntimeTypes (result y)) T)
  ∧ (b = true → At (RuntimeTypes (result y)) T = Some true).
Proof.
  intros T b x y H.
  assert (steps x y) as Hs by (eapply steps_then_addRuntimeType; [apply steps_refl|done]).
  split; [done|].
  destruct fuel as [|fuel]; simpl in H; [done|].
  destruct (At (RuntimeTypes (result x)) T) as [prev|] eqn:EAt.
  - injection H as <-.
    destruct b, prev; simpl; rewrite ?EAt, ?At_Set_eq by done; split; eauto; done.
  - assert (steps (setRuntimeType T b x) y) as Hs'.
    { eapply steps_then_addRuntimeTypeNew; [|apply steps_refl|exact H].
      intros. by eapply steps_then_addRuntimeType. }
    assert (At (RuntimeTypes (result (setRuntimeType T b x))) T = Some b) as Hb.
    { unfold setRuntimeType. simpl. by rewrite At_Set_eq. }
    destruct (steps_RuntimeTypes_le _ _ Hs' T b Hb) as (b' & -> & Hb').
    split; [eauto|]. intros ->. by rewrite Hb'.
Qed.

End RuntimeStructure.

(** ** The pointer-to-interface conversion on the marker program *)

(** C1 (evaluation of the code). [NotFoundError] implements [AppError]
    and [marker] is in its method set, yet after [Analyze] the method
    [NotFoundError.marker] (function 3, object 201) is in neither
    [Reachable] nor [ReachableObjects]: the type was not a runtime type
    when [&appErr] was converted, so [addRuntimeType] marked its exported
    methods only. *)
Theorem marker_method_not_marked :
  ∃ res,
    Analyze (prog:=markerProgram) 10 [Some 0] = Ok (Some res)
    ∧ types_Implements (prog:=markerProgram) (TNamed 2) 1 = true
    ∧ Lookup (MethodSet (prog:=markerProgram) (TNamed 2))
             (fo_pkg methMarker) (fo_name methMarker)
      = Some {| sel_obj := nfMarker; sel_fn := Some 3 |}
    ∧ Reachable res !! 2 = Some true
    ∧ Reachable res !! 3 = None
    ∧ fo_uid nfMarker ∉ ReachableObjects res.
Proof.
  eexists. split; [vm_compute; reflexivity|].
  split; [by vm_compute|]. split; [by vm_compute|].
  split; [by vm_compute|]. split; [by vm_compute|].
  vm_compute. set_solver.
Qed.

(** ** Selective marking in a known-safe context *)

Section Selective.

Context {prog : Program}.

Lemma Contains_true l s : Contains l s = true ↔ s ∈ l.
Proof.
  unfold Contains. rewrite existsb_exists. split.
  - intros (x & Hx & ->%String.eqb_eq). by apply list_elem_of_In.
  - intros H. exists s. split; [by apply list_elem_of_In|apply String.eqb_refl].
Qed.

Lemma shouldMark_spec f m r :
  currentFunction r = Some f →
  ∃ b, shouldMarkMethodForReflection m r = Ok b
       ∧ (b = true ↔ ((∃ F methods, callsAllowListed f F methods ∧ fo_name m ∈ methods)
                      ∨ fo_name m ∈ commonReflectionMethods)).
Proof.
  intros Hf. unfold shouldMarkMethodForReflection. rewrite Hf.
  eexists. split; [done|].
  rewrite orb_true_iff, Contains_true. apply or_iff_compat_r.
  rewrite existsb_exists. split.
  - intros (block & Hb & Hi). apply existsb_exists in Hi as (i & Hi & Hc).
    destruct (callsKnownSafe i) as [methods|] eqn:Ek; [|done].
    unfold callsKnownSafe in Ek. destruct i as [call| | | |]; try done.
    destruct (StaticCallee call) as [F|] eqn:EF; [|done].
    exists F, methods. split; [|by apply Contains_true].
    exists block, call. by rewrite <- !list_elem_of_In in *.
  - intros (F & methods & (block & call & Hb & Hi & HF & Hk) & Hm).
    exists block. split; [by apply list_elem_of_In|].
    apply existsb_exists. exists (ICall call). split; [by apply list_elem_of_In|].
    simpl. rewrite HF, Hk. by apply Contains_true.
Qed.

Lemma aux_markGenericTemplateReachable f r :
  currentFunction (markGenericTemplateReachable f r) = currentFunction r
  ∧ invokeSites (markGenericTemplateReachable f r) = invokeSites r.
Proof.
  unfold markGenericTemplateReachable. destruct (Origin f); [|done].
  case_decide; [done|]. by destruct (_ !! _).
Qed.

Lemma aux_addReachable f b r :
  currentFunction (addReachable f b r) = currentFunction r
  ∧ invokeSites (addReachable f b r) = invokeSites r.
Proof.
  destruct f as [f|]; [|done].
  destruct (Reachable (result r) !! f) eqn:E.
  - by erewrite addReachable_old.
  - rewrite addReachable_new by done.
    by destruct (aux_markGenericTemplateReachable f
      (with_worklist (worklist r ++ [f])
         (with_Reachable (<[f:=b]> (Reachable (result r))) r))) as [-> ->].
Qed.

Lemma aux_markSelection sel r :
  currentFunction (markSelection sel r) = currentFunction r
  ∧ invokeSites (markSelection sel r) = invokeSites r.
Proof.
  unfold markSelection. destruct (MethodValue sel); [apply aux_addReachable|done].
Qed.

Lemma invokeSites_getConcreteTypeInfo C r :
  invokeSites (snd (getConcreteTypeInfo C r)) = invokeSites r.
Proof.
  unfold getConcreteTypeInfo. destruct (At _ _); [done|]. simpl. by case_decide.
Qed.

Lemma invokeSites_interfaces C r : invokeSites (snd (interfaces C r)) = invokeSites r.
Proof.
  unfold interfaces. pose proof (invokeSites_getConcreteTypeInfo C r) as H.
  destruct (getConcreteTypeInfo C r) as [cinfo r1]. simpl in H.
  by destruct (ci_implements cinfo).
Qed.

Lemma marked_markSelection sel r : marked sel (result (markSelection sel r)).
Proof.
  unfold marked, markSelection, MethodValue. destruct (sel_fn sel) as [g|].
  - rewrite addReachable_lookup. by rewrite decide_True.
  - simpl. set_solver.
Qed.

Lemma marked_mono sel res res' : Result_le res res' → marked sel res → marked sel res'.
Proof.
  intros [HR HO]. unfold marked. destruct (sel_fn sel) as [g|].
  - intros H. destruct (HR g true H) as (b' & -> & Hb). by rewrite Hb.
  - set_solver.
Qed.

Section Bounds.

Variable r0 : rta.
Variable X : fn → Prop.
Variable Y : nat → Prop.

Lemma Bound_refl : Bound r0 X Y r0.
Proof. split; eauto. Qed.

Lemma Bound_same r r' :
  Reachable (result r') = Reachable (result r) →
  ReachableObjects (result r') = ReachableObjects (result r) →
  Bound r0 X Y r → Bound r0 X Y r'.
Proof. unfold Bound. by intros -> ->. Qed.

Lemma Bound_result r r' : result r' = result r → Bound r0 X Y r → Bound r0 X Y r'.
Proof. intros H. apply Bound_same; by rewrite H. Qed.

Lemma Bound_addReachable f b r :
  (∀ h, f = Some h → X h) → Bound r0 X Y r → Bound r0 X Y (addReachable f b r).
Proof.
  intros HX [HR HO]. destruct f as [f|]; [|done]. split.
  - intros g [v Hg]. rewrite addReachable_lookup in Hg.
    case_decide as Hgf; [subst; right; exists f; eauto|].
    destruct (Reachable (result r) !! g) eqn:Eg; [apply HR; eauto|].
    case_bool_decide as Hb; [|done]. destruct Hb as [_ Hb].
    right. exists f. eauto.
  - by destruct (addReachable_others (Some f) b r) as [-> _].
Qed.

Lemma Bound_markSelection sel r :
  (∀ h, sel_fn sel = Some h → X h) →
  (sel_fn sel = None → Y (fo_uid (sel_obj sel))) →
  Bound r0 X Y r → Bound r0 X Y (markSelection sel r).
Proof.
  intros HX HY HB. unfold markSelection, MethodValue.
  destruct (sel_fn sel) as [g|] eqn:E.
  - apply Bound_addReachable; [|done]. intros h [= <-]. by apply HX.
  - destruct HB as [HR HO]. split; [done|]. simpl. intros o Ho.
    apply elem_of_union in Ho as [->%elem_of_singleton|Ho]; [right; by apply HY|].
    by apply HO.
Qed.

End Bounds.

Lemma forM_inv {A} (Inv : rta → Prop) (body : A → rta → outcome rta) l x y :
  (∀ a x y, a ∈ l → Inv x → body a x = Ok y → Inv y) →
  Inv x → forM l body x = Ok y → Inv y.
Proof.
  revert x. induction l as [|a l IH]; intros x Hb Hx; simpl.
  - by intros [= <-].
  - destruct (body a x) as [x1| |] eqn:E; simpl; try done.
    apply IH.
    + intros a' x' y' Ha'. apply Hb. set_solver.
    + eapply Hb; [|done|done]. set_solver.
Qed.

Lemma addInvokeEdge_cases site C r r' :
  addInvokeEdge site C r = Ok r' →
  r' = r ∨ ∃ m C' sel,
    cc_method site = Some m ∧ (C' = Unalias C ∨ C' = TPointer (Unalias C))
    ∧ Lookup (MethodSet C') (fo_pkg m) (fo_name m) = Some sel
    ∧ r' = addReachable (sel_fn sel) true r.
Proof.
  unfold addInvokeEdge. destruct (cc_method site) as [m|]; [|done].
  destruct (Lookup (MethodSet (Unalias C)) (fo_pkg m) (fo_name m)) as [s|] eqn:E1.
  - unfold LookupMethod. rewrite E1. simpl. intros [= <-].
    right. exists m, (Unalias C), s. eauto.
  - destruct (Unalias C) eqn:EC;
      try (intros [= <-]; by left);
      (destruct (Lookup (MethodSet (TPointer _)) _ _) as [s|] eqn:E2;
       [ unfold LookupMethod; rewrite E2; simpl; intros [= <-]; right;
         eexists m, _, s; split; [done|]; split; [right; reflexivity|];
         split; [exact E2|done]
       | intros [= <-]; by left ]).
Qed.


Lemma frame_trans r1 r2 r3 : frame r1 r2 → frame r2 r3 → frame r1 r3.
Proof. unfold frame. intros (?&?&?) (?&?&?). repeat split; congruence. Qed.

Lemma frame_addReachable f b r : frame r (addReachable f b r).
Proof.
  destruct (aux_addReachable f b r) as [? ?].
  destruct (addReachable_others f b r) as [_ ?]. done.
Qed.

Lemma frame_markSelection sel r : frame r (markSelection sel r).
Proof.
  unfold markSelection. destruct (MethodValue sel); [apply frame_addReachable|done].
Qed.

Lemma frame_interfaces C r : frame r (snd (interfaces C r)).
Proof.
  pose proof (invokeSites_interfaces C r).
  destruct (core_eq_interfaces C r) as (Hres & _ & Hcf & _).
  split; [done|]. split; [done|]. by rewrite Hres.
Qed.

Lemma Unalias_idemp T : Unalias (Unalias T) = Unalias T.
Proof. induction T; simpl; auto. Qed.

Lemma asInterface_Unalias T : asInterface (Unalias T) = asInterface T.
Proof. unfold asInterface, Underlying. by rewrite Unalias_idemp. Qed.

Lemma isInterface_Unalias T : isInterface (Unalias T) = isInterface T.
Proof. unfold isInterface. by rewrite asInterface_Unalias. Qed.

Lemma selectiveBody_cases f sel x y :
  currentFunction x = Some f → selectiveBody sel x = Ok y →
  (forceMarked f (sel_obj sel) ∧ y = markSelection sel x)
  ∨ (¬ forceMarked f (sel_obj sel) ∧ y = x).
Proof.
  intros Hf. unfold selectiveBody, forceMarked.
  destruct (Exported (sel_obj sel)) eqn:Ex.
  - destruct (shouldMark_spec f (sel_obj sel) x Hf) as (b & -> & Hb). simpl.
    destruct b; intros [= <-].
    + left. split; [|done]. split; [done|]. by apply Hb.
    + right. split; [|done]. intros [_ H]. apply Hb in H. done.
  - intros [= <-]. right. split; [|done]. by intros [? _].
Qed.

Lemma selective_loop_marks f l : ∀ x y,
  currentFunction x = Some f → forM l selectiveBody x = Ok y →
  ∀ sel, sel ∈ l → forceMarked f (sel_obj sel) → marked sel (result y).
Proof.
  induction l as [|a l IH]; intros x y Hf; simpl.
  - intros _ sel H. by apply elem_of_nil in H.
  - destruct (selectiveBody a x) as [x1| |] eqn:E; simpl; try done.
    intros Hl sel Hsel Hfm.
    assert (currentFunction x1 = Some f) as Hf1.
    { destruct (selectiveBody_cases f a x x1 Hf E) as [[_ ->]|[_ ->]]; [|done].
      by destruct (frame_markSelection a x) as [-> _]. }
    apply elem_of_cons in Hsel as [->|Hsel]; [|by eapply IH].
    destruct (selectiveBody_cases f a x x1 Hf E) as [[_ ->]|[Hn _]]; [|done].
    apply (marked_mono _ (result (markSelection a x))); [|apply marked_markSelection].
    apply steps_Result_le. revert Hl. apply steps_then_forM; [|apply steps_refl].
    intros s xa xb Hxa. unfold selectiveBody.
    destruct (Exported _); [|by intros [= <-]].
    destruct (shouldMarkMethodForReflection _ _) as [[]| |]; simpl; try done;
      intros [= <-]; [by apply steps_then_markSelection|done].
Qed.

Lemma selective_spec T f r r' :
  currentFunction r = Some f →
  At (RuntimeTypes (result r)) T = None →
  isInterface T = false →
  addRuntimeTypeSelective T false r = Ok r' →
  At (RuntimeTypes (result r')) T = Some false
  ∧ (∀ sel, sel ∈ MethodSet T → forceMarked f (sel_obj sel) → marked sel (result r'))
  ∧ Bound r (selectiveFunctions f T r) (selectiveObjects f T) r'.
Proof.
  intros Hf Hnew Hconc. unfold addRuntimeTypeSelective.
  assert (inRuntimeTypes (Unalias T) r = false) as ->.
  { unfold inRuntimeTypes. apply bool_decide_eq_false. unfold At in *.
    rewrite canon_Unalias, Hnew. by intros [? ?]. }
  rewrite isInterface_Unalias, Hconc, MethodSet_Unalias.
  set (r1 := setRuntimeType (Unalias T) false r).
  change (forM (MethodSet T) _ r1) with (forM (MethodSet T) selectiveBody r1).
  destruct (forM (MethodSet T) selectiveBody r1) as [r2| |] eqn:E; simpl; try done.
  intros Hedges.
  set (X := selectiveFunctions f T r). set (Y := selectiveObjects f T).
  assert (Bound r X Y r1 ∧ frame r1 r1) as H1.
  { split; [|done]. by apply (Bound_same _ _ _ r); [..|apply Bound_refl]. }
  assert (currentFunction r1 = Some f) as Hf1 by done.
  assert (invokeSites r1 = invokeSites r) as Hs1 by done.
  assert (Bound r X Y r2 ∧ frame r1 r2) as [HB2 Hfr2].
  { revert E. apply (forM_inv (λ y, Bound r X Y y ∧ frame r1 y)); [|done].
    intros sel x y Hsel [HB Hfr] Hbody.
    assert (currentFunction x = Some f) as Hfx.
    { destruct Hfr as (-> & _). done. }
    destruct (selectiveBody_cases f sel x y Hfx Hbody) as [[Hm ->]|[_ ->]]; [|done].
    split; [|eapply frame_trans; [done|apply frame_markSelection]].
    apply Bound_markSelection; [| |done].
    - intros h Hh. left. by exists sel.
    - intros Hh. by exists sel. }
  assert (steps r2 r') as Hst.
  { eapply steps_then_addInvokeEdges; [apply steps_refl|done]. }
  assert (Bound r X Y r' ∧ frame r1 r') as [HB' Hfr'].
  { unfold addInvokeEdges in Hedges.
    pose proof (frame_interfaces (Unalias T) r2) as Hfi.
    destruct (core_eq_interfaces (Unalias T) r2) as (Hres & _).
    destruct (interfaces (Unalias T) r2) as [Is r3]. simpl in Hfi, Hres.
    revert Hedges. apply (forM_inv (λ y, Bound r X Y y ∧ frame r1 y)).
    - intros i x y _ [HB Hfr].
      apply (forM_inv (λ y, Bound r X Y y ∧ frame r1 y)); [|done].
      intros site xa xb Hsite [HBa Hfra] Hedge.
      assert (registeredSite r site) as Hreg.
      { destruct Hfr as (_ & Hsites & _). rewrite Hsites, Hs1 in Hsite.
        destruct (At (invokeSites r) (TInterface i)) as [sites|] eqn:Es;
          [|by apply elem_of_nil in Hsite].
        by exists i, sites. }
      apply addInvokeEdge_cases in Hedge
        as [->|(m & C' & sel & Hm & HC & Hsel & ->)]; [done|].
      split; [|eapply frame_trans; [done|apply frame_addReachable]].
      apply Bound_addReachable; [|done].
      intros h Hh. right. exists site. split; [done|].
      exists m, C', sel. rewrite Unalias_idemp in HC. done.
    - split; [by eapply Bound_result|]. by eapply frame_trans. }
  split; [|split; [|done]].
  - destruct Hfr' as (_ & _ & ->). subst r1. unfold setRuntimeType. simpl.
    apply At_Set_eq. apply canon_Unalias.
  - intros sel Hsel Hm. eapply marked_mono; [by apply steps_Result_le|].
    by eapply selective_loop_marks.
Qed.

(** C2 (amended). A value of type [T], not a pointer to an interface,
    is converted to the empty interface inside a function [f] that calls
    an allow-listed function.  If [T] is already a runtime type, the
    conversion changes nothing: no type is added and nothing is marked.
    If [T] is concrete and not yet a runtime type, [T] becomes a runtime
    type with a cleared skip flag; every exported method of [T] named in
    the allow-list entry of a function called in [f], or among the
    common reflection methods, is marked; and nothing else becomes
    reachable except methods that already registered invoke sites
    resolve to on [T], and origin templates. *)
Theorem selective_marking fuel x t iface f r r' :
  asInterface t = Some iface → NumMethods iface = 0 →
  pointerToInterface (value_type x) = false →
  currentFunction r = Some f → isInKnownSafeContext r = true →
  handleMakeInterface fuel x t r = Ok r' →
  (is_Some (At (RuntimeTypes (result r)) (value_type x)) → r' = r)
  ∧ (At (RuntimeTypes (result r)) (value_type x) = None →
     isInterface (value_type x) = false →
     At (RuntimeTypes (result r')) (value_type x) = Some false
     ∧ (∀ sel, sel ∈ MethodSet (value_type x) → forceMarked f (sel_obj sel) →
               marked sel (result r'))
     ∧ Bound r (selectiveFunctions f (value_type x) r)
               (selectiveObjects f (value_type x)) r').
Proof.
  intros Ht Hn Hptr Hf Hsafe. unfold handleMakeInterface.
  rewrite Ht, Hn. simpl.
  assert (match value_type x with
          | TPointer elemType =>
              match elemType with
              | TNamed n =>
                  match prog_underlying prog n with
                  | TInterface i => Some i
                  | _ => None
                  end
              | _ => asInterface elemType
              end
          | _ => None
          end = None) as ->.
  { destruct (value_type x) as [| e | | | | | | | | | | | |]; try done.
    simpl in Hptr. unfold isInterface in Hptr.
    destruct (asInterface e) eqn:Ee; [done|].
    destruct e; try done; unfold asInterface, Underlying in Ee; simpl in Ee;
      by destruct (prog_underlying prog _). }
  rewrite Hsafe. intros H. split.
  - intros Hold. revert H. unfold addRuntimeTypeSelective.
    assert (inRuntimeTypes (Unalias (value_type x)) r = true) as ->.
    { unfold inRuntimeTypes. apply bool_decide_eq_true. unfold At in *.
      by rewrite canon_Unalias. }
    by intros [= <-].
  - intros Hnew Hconc. by apply selective_spec.
Qed.

End Selective.

(** In a function that calls [json.Marshal], whose allow-list entry is
    [MarshalJSON] and [MarshalText], the exported method [String] of the
    converted type is marked as well. *)
Lemma selective_marking_counterexample :
  ∃ res,
    Analyze (prog:=jsonProgram) 10 [Some 0] = Ok (Some res)
    ∧ knownSafe "encoding/json.Marshal" = Some ["MarshalJSON"; "MarshalText"]
    ∧ Lookup (MethodSet (prog:=jsonProgram) (TNamed 1)) None "String"
      = Some {| sel_obj := userString; sel_fn := Some 3 |}
    ∧ Reachable res !! 3 = Some true.
Proof.
  eexists. split; [vm_compute; reflexivity|].
  split; [by vm_compute|]. split; by vm_compute.
Qed.

Lemma selective_marking_witness :
  handleMakeInterface (prog:=jsonProgram) 5 (VOther (TNamed 1)) (TInterface 0) jsonVisiting
  = Ok jsonConverted
  ∧ At (RuntimeTypes (result jsonConverted)) (TNamed 1) = Some false
  ∧ Reachable (result jsonConverted) !! 2 = Some true
  ∧ (∀ r2, handleMakeInterface (prog:=jsonProgram) 5 (VOther (TNamed 1)) (TInterface 0)
             jsonConverted = Ok r2 → r2 = jsonConverted).
Proof.
  assert (handleMakeInterface (prog:=jsonProgram) 5 (VOther (TNamed 1)) (TInterface 0)
            jsonVisiting = Ok jsonConverted) as H by (vm_compute; reflexivity).
  split; [exact H|].
  destruct (selective_marking (prog:=jsonProgram) 5 (VOther (TNamed 1)) (TInterface 0)
              0 0 jsonVisiting jsonConverted) as [_ Hnew];
    [reflexivity|reflexivity|reflexivity|reflexivity
    |vm_compute; reflexivity|exact H|].
  destruct (Hnew eq_refl eq_refl) as (Hrt & Hmarks & _).
  split; [exact Hrt|]. split.
  - apply (Hmarks {| sel_obj := userMarshalJSON; sel_fn := Some 2 |}).
    + apply list_elem_of_In. simpl. auto.
    + split; [reflexivity|]. right.
      apply list_elem_of_In. simpl. auto.
  - intros r2 H2.
    destruct (selective_marking (prog:=jsonProgram) 5 (VOther (TNamed 1)) (TInterface 0)
                0 0 jsonConverted r2) as [Hold _];
      [reflexivity|reflexivity|reflexivity|reflexivity
      |vm_compute; reflexivity|exact H2|].
    apply Hold. rewrite Hrt. eauto.
Defined.

(** ** Totality: the engine runs to completion on a well-formed program *)

Section Totality.

Context {prog : Program}.

Ltac keeps_tac :=
  intros; unfold keeps in *; simpl in *;
  repeat match goal with H : _ ∧ _ |- _ => destruct H end;
  repeat split; congruence.

Lemma keeps_refl r : keeps r r.
Proof. keeps_tac. Qed.

Lemma keeps_trans r1 r2 r3 : keeps r1 r2 → keeps r2 r3 → keeps r1 r3.
Proof. keeps_tac. Qed.

Lemma keeps_tables_ok r r' : keeps r r' → tables_ok r → tables_ok r'.
Proof.
  intros (Hi & Ht & Hs & _) [H1 H2]. split.
  - unfold index_ok. by rewrite Hi, Ht.
  - unfold sites_ok. by rewrite Hs.
Qed.

Lemma keeps_then_markGenericTemplateReachable r x f :
  keeps r x → keeps r (markGenericTemplateReachable f x).
Proof.
  intros H. unfold markGenericTemplateReachable. destruct (Origin f); [|done].
  case_decide; [done|]. destruct (_ !! _); [done|]. keeps_tac.
Qed.

Lemma keeps_then_addReachable r x f b : keeps r x → keeps r (addReachable f b x).
Proof.
  intros H. destruct f as [f|]; [|done]. unfold addReachable.
  case_decide; [|keeps_tac].
  apply keeps_then_markGenericTemplateReachable. keeps_tac.
Qed.

Lemma keeps_then_addReachableObject r x o :
  keeps r x → keeps r (addReachableObject o x).
Proof. intros H. destruct o; [|done]. unfold addReachableObject. keeps_tac. Qed.

Lemma keeps_then_markSelection r x sel : keeps r x → keeps r (markSelection sel x).
Proof.
  intros H. unfold markSelection. destruct (MethodValue sel).
  - by apply keeps_then_addReachable.
  - by apply keeps_then_addReachableObject.
Qed.

Lemma keeps_then_foldl {A} (f : rta → A → rta) l r x :
  (∀ x y, keeps r x → keeps r (f x y)) → keeps r x → keeps r (foldl f x l).
Proof.
  intros Hf. revert x. induction l as [|y l IH]; intros x Hx; simpl; auto.
Qed.

Lemma keeps_then_markInterfaceMethodsReachable r x T i :
  keeps r x → keeps r (markInterfaceMethodsReachable T i x).
Proof.
  intros Hx. unfold markInterfaceMethodsReachable.
  apply keeps_then_foldl; [|done]. intros ra m Hra.
  apply keeps_then_foldl; [|done]. intros rb mset Hrb.
  destruct (Lookup _ _ _); [by apply keeps_then_markSelection | done].
Qed.

Lemma keeps_then_checkSetFinalizer r x call :
  keeps r x → keeps r (checkSetFinalizer call x).
Proof.
  intros Hx. unfold checkSetFinalizer.
  repeat match goal with
         | |- keeps _ (match ?x with _ => _ end) => destruct x
         | |- keeps _ (if ?x then _ else _) => destruct x
         end; try done; by apply keeps_then_addReachable.
Qed.

Lemma keeps_then_visitAddrTakenFunc r x f :
  keeps r x → keeps r (visitAddrTakenFunc f x).
Proof.
  intros Hx. unfold visitAddrTakenFunc.
  set (x1 := match At (addrTakenFuncsBySig x) _ with None => _ | Some _ => x end).
  assert (keeps r x1) as H1.
  { subst x1. destruct (At _ _); [done|]. keeps_tac. }
  case_decide; [done|].
  destruct (reflectValueCall _); [apply keeps_then_addReachable|];
    (apply keeps_then_foldl; [intros; by apply keeps_then_addReachable|]);
    keeps_tac.
Qed.

Lemma keeps_then_visitDynCall r x site : keeps r x → keeps r (visitDynCall site x).
Proof.
  intros Hx. unfold visitDynCall.
  apply keeps_then_foldl; [intros; by apply keeps_then_addReachable|]. keeps_tac.
Qed.

Lemma keeps_then_markContextMethods r x mset :
  keeps r x → keeps r (markContextMethods mset x).
Proof.
  intros Hx. unfold markContextMethods.
  destruct (currentFunction x); [|done]. destruct (knownSafe _); [|done].
  apply keeps_then_foldl; [|done]. intros ra m Hra.
  destruct (Lookup _ _ _); [by apply keeps_then_markSelection|done].
Qed.

Lemma keeps_then_markExportedMethods r x mset :
  keeps r x → keeps r (markExportedMethods mset x).
Proof.
  intros Hx. unfold markExportedMethods.
  apply keeps_then_foldl; [|done]. intros ra sel Hra.
  destruct (Exported _); [|done].
  destruct (_ && _); [done|by apply keeps_then_markSelection].
Qed.

Lemma keeps_getConcreteTypeInfo C r : keeps r (snd (getConcreteTypeInfo C r)).
Proof.
  unfold getConcreteTypeInfo. destruct (At _ _); simpl; [done|].
  case_decide; keeps_tac.
Qed.

Lemma keeps_interfaces C r : keeps r (snd (interfaces C r)).
Proof.
  unfold interfaces. pose proof (keeps_getConcreteTypeInfo C r) as H.
  destruct (getConcreteTypeInfo C r) as [cinfo r1]. simpl in H.
  destruct (ci_implements cinfo); simpl; keeps_tac.
Qed.

Lemma forM_total {A} (G : rta → Prop) (body : A → rta → outcome rta) l x :
  (∀ a x, a ∈ l → G x → ∃ y, body a x = Ok y ∧ G y) →
  G x → ∃ y, forM l body x = Ok y ∧ G y.
Proof.
  revert x. induction l as [|a l IH]; intros x Hb Hx; simpl; [eauto|].
  destruct (Hb a x) as (x1 & -> & H1); [set_solver|done|]. simpl.
  apply IH; [|done]. intros a' x' Ha'. apply Hb. set_solver.
Qed.

(** *** Invoke edges *)

Lemma addInvokeEdge_total site C x :
  is_Some (cc_method site) → ∃ y, addInvokeEdge site C x = Ok y ∧ keeps x y.
Proof.
  intros [m Hm]. unfold addInvokeEdge. rewrite Hm.
  destruct (Lookup (MethodSet (Unalias C)) (fo_pkg m) (fo_name m)) as [s|] eqn:E1.
  - unfold LookupMethod. rewrite E1. simpl. eexists. split; [done|].
    by apply keeps_then_addReachable.
  - destruct (Unalias C) eqn:EC; try (by eexists);
      (destruct (Lookup (MethodSet (TPointer _)) _ _) as [s|] eqn:E2;
       [ unfold LookupMethod; rewrite E2; simpl; eexists; split; [done|];
         by apply keeps_then_addReachable
       | by eexists ]).
Qed.

Lemma sites_lookup r k sites site :
  sites_ok r → At (invokeSites r) k = Some sites → site ∈ sites →
  is_Some (cc_method site).
Proof.
  intros Hok HAt Hs. unfold At in HAt.
  assert ((canon k, sites) ∈ invokeSites r) as Hin.
  { revert HAt. generalize (canon k) as c. generalize (invokeSites r) as m.
    induction m as [|[k' v'] m IH]; intros c; simpl; [done|].
    case_decide.
    - intros [= ->]. subst. set_solver.
    - intros H1. apply IH in H1. set_solver. }
  by eapply Hok.
Qed.

Lemma addInvokeEdges_total T x :
  tables_ok x → ∃ y, addInvokeEdges T x = Ok y ∧ keeps x y.
Proof.
  intros [Hidx Hsites]. unfold addInvokeEdges.
  pose proof (keeps_interfaces T x) as Hk.
  destruct (interfaces T x) as [Is x1]. simpl in Hk.
  destruct (forM_total (λ y, keeps x y) (λ I0 r,
              forM (default [] (At (invokeSites r) (TInterface I0)))
                   (λ site r, addInvokeEdge site T r) r) Is x1) as (y & Hy & Hky);
    [|done|by exists y].
  intros I0 xa _ Hxa.
  apply (forM_total (λ y, keeps x y)); [|done].
  intros site xb Hsite Hxb.
  assert (is_Some (cc_method site)) as Hm.
  { destruct Hxa as (_ & _ & Hs & _). rewrite Hs in Hsite.
    destruct (At (invokeSites x) (TInterface I0)) as [sites|] eqn:E;
      [|by apply elem_of_nil in Hsite].
    by eapply sites_lookup. }
  destruct (addInvokeEdge_total site T xb Hm) as (y & Hy & Hk').
  exists y. split; [done|]. by eapply keeps_trans.
Qed.

Lemma tables_ok_with_index a b x :
  tables_ok x → (is_Some a → is_Some b) → tables_ok (with_index a b x).
Proof. intros [H1 H2] Hab. split; [exact Hab|exact H2]. Qed.

Lemma tm_insert_elem {V} k0 (v0 : V) m k v :
  (k, v) ∈ tm_insert k0 v0 m → (k, v) ∈ m ∨ v = v0.
Proof.
  induction m as [|[k' v'] m IH]; simpl.
  - intros [= _ ->]%list_elem_of_singleton. by right.
  - case_decide.
    + intros [[= _ ->]|H']%elem_of_cons; [by right|]. left. set_solver.
    + intros [[= -> ->]|H']%elem_of_cons; [left; set_solver|].
      destruct (IH H'); [left; set_solver|by right].
Qed.

Lemma keeps_getInterfaceTypeInfo i r : keeps r (snd (getInterfaceTypeInfo i r)).
Proof. unfold getInterfaceTypeInfo. destruct (At _ _); keeps_tac. Qed.

Lemma implementations_tables_ok i x :
  tables_ok x → tables_ok (snd (implementations i x)).
Proof.
  intros Hx. unfold implementations.
  pose proof (keeps_getInterfaceTypeInfo i x) as Hk.
  destruct (getInterfaceTypeInfo i x) as [iinfo x1]. simpl in Hk.
  assert (tables_ok x1) as [Hi Hs] by (by eapply keeps_tables_ok).
  destruct (ii_computed iinfo); simpl; [done|].
  destruct (interfaceToTypes x1 ≫= _); simpl; [done|].
  destruct (interfaceToTypes x1) eqn:E; simpl; [|done].
  split; [|done]. unfold index_ok in *. simpl. intros _. apply Hi. by rewrite E.
Qed.

Lemma visitInvoke_total site x :
  is_Some (cc_method site) → isInterface (value_type (cc_value site)) = true →
  tables_ok x → ∃ y, visitInvoke site x = Ok y ∧ tables_ok y.
Proof.
  intros Hm Hi [Hidx Hsites]. unfold visitInvoke, isInterface in *.
  destruct (asInterface _) as [i|]; [|done].
  set (x1 := with_invokeSites _ x).
  assert (tables_ok x1) as H1.
  { split; [done|]. intros k sites s Hin Hs. subst x1. simpl in Hin.
    apply tm_insert_elem in Hin as [Hin| ->]; [by eapply Hsites|].
    apply elem_of_app in Hs as [Hs|Hs%list_elem_of_singleton]; [|by subst].
    destruct (At (invokeSites x) (TInterface i)) as [l|] eqn:E;
      [|by apply elem_of_nil in Hs].
    by eapply (sites_lookup x). }
  pose proof (implementations_tables_ok i x1 H1) as H2.
  destruct (implementations i x1) as [Cs x2]. simpl in H2.
  apply (forM_total tables_ok); [|done].
  intros C xa _ Ha. destruct (addInvokeEdge_total site C xa Hm) as (y & Hy & Hk).
  exists y. split; [done|]. by eapply keeps_tables_ok.
Qed.

(** *** The implementation index *)

Lemma keeps_indexed r r' : keeps r r' → indexed r → indexed r'.
Proof.
  intros Hk [H1 H2]. split; [by eapply keeps_tables_ok|].
  destruct Hk as (-> & _). done.
Qed.

Lemma indexStep_total (b : bool) i T x :
  indexed x → ∃ y, (if b then indexAdd i T x else Ok x) = Ok y ∧ indexed y.
Proof.
  intros [[Hi Hs] [m Hm]]. destruct b; [|by eexists].
  unfold indexAdd. destruct (Hi (ltac:(by rewrite Hm))) as [t Ht]. rewrite Hm, Ht.
  eexists. split; [done|]. split; [split|]; simpl; try done.
  unfold index_ok. simpl. eauto.
Qed.

Lemma addTypeToIndex_total T x :
  tables_ok x → ∃ y, addTypeToIndex T x = Ok y ∧ tables_ok y.
Proof.
  intros Hx. unfold addTypeToIndex.
  destruct (interfaceToTypes x) eqn:E; [|by eexists].
  destruct (isInterface T); [by eexists|].
  pose proof (keeps_getConcreteTypeInfo T x) as Hk.
  destruct (getConcreteTypeInfo T x) as [cinfo x1]. simpl in Hk.
  assert (indexed x1) as H1.
  { eapply keeps_indexed; [done|]. split; [done|]. by rewrite E. }
  match goal with |- ∃ y, forM ?l ?body x1 = _ ∧ _ =>
    destruct (forM_total indexed body l x1) as (y & Hy & [Hy1 _]); [|done|by exists y] end.
  intros e xa _ Ha. simpl. destruct (negb _); [by eexists|].
  by apply indexStep_total.
Qed.

Lemma buildUserTypesIndex_total x :
  tables_ok x → ∃ y, buildUserTypesIndex x = Ok y ∧ tables_ok y.
Proof.
  intros Hx. unfold buildUserTypesIndex.
  destruct (userTypesIndexBuilt x); [by eexists|].
  match goal with |- ∃ y, obind (forM ?l ?body ?x0) _ = _ ∧ _ =>
    assert (indexed x0) as H0;
    [|destruct (forM_total indexed body l x0) as (y & -> & [Hy _]); [|done|] ] end.
  - match goal with |- indexed (match interfaceToTypes ?y with _ => _ end) =>
      assert (keeps x y) as Hy end.
    { apply keeps_then_foldl; [|keeps_tac].
      intros ra T Hra.
      eapply keeps_trans; [|apply keeps_getConcreteTypeInfo].
      eapply keeps_trans; [|apply keeps_getConcreteTypeInfo]. done. }
    destruct (interfaceToTypes _) eqn:E.
    + eapply keeps_indexed; [done|]. split; [done|].
      destruct Hy as (Hy & _). rewrite <- Hy, E. eauto.
    + split; [|simpl; eauto].
      apply tables_ok_with_index; [by eapply keeps_tables_ok|eauto].
  - intros T xa _ Ha.
    pose proof (keeps_getConcreteTypeInfo T xa) as Hka.
    destruct (getConcreteTypeInfo T xa) as [vi x3]. simpl in Hka.
    pose proof (keeps_getConcreteTypeInfo (TPointer T) x3) as Hkb.
    destruct (getConcreteTypeInfo (TPointer T) x3) as [pi x4]. simpl in Hkb.
    apply (forM_total indexed).
    + intros iinfo xb _ Hb. destruct (_ && _); [by eexists|].
      by apply indexStep_total.
    + eapply keeps_indexed; [exact Hkb|]. by eapply keeps_indexed.
  - simpl. eexists. split; [done|]. destruct Hy as [Hi Hs]. split; done.
Qed.

Lemma findAllImplementationsInProgram_total i x :
  tables_ok x →
  ∃ Ts y, findAllImplementationsInProgram i x = Ok (Ts, y) ∧ tables_ok y.
Proof.
  intros Hx. unfold findAllImplementationsInProgram.
  destruct (buildUserTypesIndex_total x Hx) as (y & -> & Hy). simpl. eauto.
Qed.

Lemma tables_ok_foldl {A} (f : rta → A → rta) l x :
  (∀ r a, keeps r (f r a)) → tables_ok x → tables_ok (foldl f x l).
Proof.
  intros Hf Hx. eapply keeps_tables_ok; [|done].
  apply keeps_then_foldl; [|apply keeps_refl].
  intros ra a Hra. eapply keeps_trans; [done|apply Hf].
Qed.

Lemma handleTypeAssert_total v t x :
  tables_ok x → ∃ y, handleTypeAssert v t x = Ok y ∧ tables_ok y.
Proof.
  intros Hx. unfold handleTypeAssert.
  match goal with |- ∃ y, match ?tc with _ => _ end = _ ∧ _ => destruct tc end.
  { eexists. split; [done|]. eapply keeps_tables_ok; [|done].
    apply keeps_then_markInterfaceMethodsReachable, keeps_refl. }
  destruct (asInterface t); [|by eexists].
  destruct (Nat.eqb _ _); [by eexists|].
  destruct (buildUserTypesIndex_total x Hx) as (x1 & -> & H1). simpl.
  destruct (isStdlibFunction _).
  - eexists. split; [done|]. apply tables_ok_foldl; [|done].
    intros r T. destruct (inRuntimeTypes _ _); [|apply keeps_refl].
    apply keeps_then_markInterfaceMethodsReachable, keeps_refl.
  - destruct (findAllImplementationsInProgram_total n x1 H1) as (Ts & x2 & -> & H2).
    simpl. eexists. split; [done|]. apply tables_ok_foldl; [|done].
    intros r T. apply keeps_then_markInterfaceMethodsReachable, keeps_refl.
Qed.

Lemma handleChangeInterface_total t x :
  tables_ok x → ∃ y, handleChangeInterface t x = Ok y ∧ tables_ok y.
Proof.
  intros Hx. unfold handleChangeInterface.
  destruct (asInterface t); [|by eexists].
  destruct (Nat.eqb _ _); [by eexists|].
  destruct (findAllImplementationsInProgram_total n x Hx) as (Ts & x2 & -> & H2).
  simpl. eexists. split; [done|]. apply tables_ok_foldl; [|done].
  intros r T. apply keeps_then_markInterfaceMethodsReachable, keeps_refl.
Qed.

Lemma addRuntimeTypeSelective_total T x :
  is_Some (currentFunction x) → tables_ok x →
  ∃ y, addRuntimeTypeSelective T false x = Ok y ∧ tables_ok y.
Proof.
  intros Hf Hx. unfold addRuntimeTypeSelective.
  destruct (inRuntimeTypes _ _); [by eexists|].
  set (x1 := setRuntimeType (Unalias T) false x).
  assert (keeps x x1) as Hk1 by done.
  destruct (isInterface _).
  { eexists. split; [done|]. by eapply keeps_tables_ok. }
  match goal with |- ∃ y, obind (forM ?l ?body x1) _ = _ ∧ _ =>
    destruct (forM_total (keeps x) body l x1) as (x2 & -> & H2); [|done|] end.
  - intros sel xa _ Ha. simpl. destruct (Exported _); [|by eexists].
    unfold shouldMarkMethodForReflection.
    pose proof Ha as (_ & _ & _ & Hcf). rewrite Hcf. destruct Hf as [f ->]. simpl.
    eexists. split; [done|].
    destruct (_ || _); [by apply keeps_then_markSelection|done].
  - simpl. destruct (addInvokeEdges_total (Unalias T) x2) as (y & -> & Hy).
    { by eapply keeps_tables_ok. }
    exists y. split; [done|]. eapply keeps_tables_ok; [|done]. by eapply keeps_trans.
Qed.

(** *** The walk over the type structure *)

Lemma map_canon_idemp l : map canon (map canon l) = map canon l.
Proof. induction l as [|x l IH]; simpl; [done|]. by rewrite canon_idemp, IH. Qed.

Lemma typeSuccessors_canon T S :
  S ∈ typeSuccessors T →
  canon S = canon T ∨ ∃ S', S' ∈ typeSuccessors (canon T) ∧ canon S' = canon S.
Proof.
  unfold typeSuccessors.
  destruct T as [k|e|e|len e|e|k e|fs|vs|ps rs|nid|iid|tid tc|aid rhs|uid]; simpl;
    rewrite ?app_nil_r;
    try (intros H; by apply elem_of_nil in H);
    try (intros H%list_elem_of_singleton; subst S; right; exists (canon e);
         split; [set_solver|apply canon_idemp]).
  - intros [->|H%list_elem_of_singleton]%elem_of_cons; [|subst S]; right.
    + exists (canon k). split; [set_solver|apply canon_idemp].
    + exists (canon e). split; [set_solver|apply canon_idemp].
  - intros H. right. exists (canon S). split; [|apply canon_idemp].
    apply list_elem_of_In, List.in_map, list_elem_of_In, H.
  - intros H. right. exists (canon S). split; [|apply canon_idemp].
    apply list_elem_of_In, List.in_map, list_elem_of_In, H.
  - intros [->|H%list_elem_of_singleton]%elem_of_cons; [|subst S]; right.
    + exists (TTuple (map canon ps)). split; [set_solver|].
      simpl. by rewrite map_canon_idemp.
    + exists (TTuple (map canon rs)). split; [set_solver|].
      simpl. by rewrite map_canon_idemp.
  - intros H. right. by exists S.
  - intros H%list_elem_of_singleton. subst S. left. apply canon_Unalias.
Qed.

Lemma missing_le U m m' :
  RuntimeTypes_le m m' → (length (missing U m') ≤ length (missing U m))%nat.
Proof.
  intros Hle. unfold missing. induction U as [|K l IH]; [done|].
  rewrite !filter_cons. repeat case_decide; simpl; try lia.
  destruct (At m K) as [b|] eqn:E; [|done].
  destruct (Hle K b E) as (b' & Hb' & _). congruence.
Qed.

Lemma missing_lt U m m' K :
  K ∈ U → At m K = None → is_Some (At m' K) → RuntimeTypes_le m m' →
  (length (missing U m') < length (missing U m))%nat.
Proof.
  intros HK Hm [b Hm'] Hle. unfold missing. induction U as [|K0 l IH];
    [by apply elem_of_nil in HK|].
  assert (length (filter (λ T, At m' T = None) l)
          ≤ length (filter (λ T, At m T = None) l))%nat as Hl'.
  { clear IH HK. induction l as [|K1 l IH]; [done|].
    rewrite !filter_cons. repeat case_decide; simpl; try lia.
    destruct (At m K1) as [b1|] eqn:E; [|done].
    destruct (Hle K1 b1 E) as (b' & Hb' & _). congruence. }
  rewrite !filter_cons.
  apply elem_of_cons in HK as [<-|HK].
  - repeat case_decide; simpl; try lia; congruence.
  - specialize (IH HK). repeat case_decide; simpl; try lia.
    destruct (At m K0) as [b0|] eqn:E; [|done].
    destruct (Hle K0 b0 E) as (b' & Hb' & _). congruence.
Qed.

Lemma missing_bound U m : (length (missing U m) ≤ length U)%nat.
Proof. unfold missing. apply length_filter. Qed.

Section Universe.

Variable U : list type.
Hypothesis Hclosed : closedUniverse U = true.

Lemma closed_successors T S :
  canon T ∈ U → S ∈ typeSuccessors T → canon S ∈ U.
Proof.
  intros HT HS. destruct (typeSuccessors_canon T S HS) as [->|(S' & HS' & <-)]; [done|].
  unfold closedUniverse in Hclosed. rewrite forallb_forall in Hclosed.
  specialize (Hclosed (canon T)). rewrite forallb_forall in Hclosed.
  apply list_elem_of_In in HT, HS'.
  by apply (bool_decide_eq_true_1 _ (Hclosed HT S' HS')).
Qed.

Lemma ready_step n x y : ready U n x → steps x y → tables_ok y → ready U n y.
Proof.
  intros [_ Hm] Hs Hy. split; [done|].
  pose proof (missing_le U _ _ (steps_RuntimeTypes_le x y Hs)). lia.
Qed.

Section RecTotal.

Variable rec : type → bool → rta → outcome rta.
Variable n : nat.
Hypothesis Hrec : ∀ S b x, canon S ∈ U → ready U n x →
  ∃ y, rec S b x = Ok y ∧ ready U n y.
Hypothesis Hrec_steps : ∀ S b x y, rec S b x = Ok y → steps x y.

Lemma rec_forM_total {A} (g : A → type) (l : list A) b x :
  (∀ a, a ∈ l → canon (g a) ∈ U) → ready U n x →
  ∃ y, forM l (λ a, rec (g a) b) x = Ok y ∧ ready U n y.
Proof.
  intros Hl Hx. apply (forM_total (ready U n)); [|done].
  intros a xa Ha Hxa. apply Hrec; [by apply Hl|done].
Qed.

Lemma structure_total T x :
  (∀ S, S ∈ structureTypes T → canon S ∈ U) → ready U n x →
  ∃ y, addRuntimeTypeStructure_ rec T x = Ok y ∧ ready U n y.
Proof.
  intros HS Hx.
  destruct T as [k|e|e|len e|e|k e|fs|vs|ps rs|nid|iid|tid tc|aid rhs|uid]; simpl in *;
    try (by eexists);
    try (apply Hrec; [apply HS; set_solver|done]);
    try (by apply (rec_forM_total (λ T, T))).
  - destruct (Hrec k true x) as (x1 & -> & H1); [apply HS; set_solver|done|]. simpl.
    apply Hrec; [apply HS; set_solver|done].
  - destruct (Hrec (TPointer (TNamed nid)) true x) as (x1 & -> & H1);
      [apply HS; set_solver|done|]. simpl.
    apply Hrec; [apply HS; set_solver|done].
Qed.

Lemma children_total T skip x :
  (∀ S, S ∈ typeSuccessors T → canon S ∈ U) → ready U n x →
  ∃ y, addRuntimeTypeChildren rec T skip x = Ok y ∧ ready U n y.
Proof.
  unfold typeSuccessors. intros HS Hx.
  destruct T as [k|e|e|len e|e|k e|fs|vs|ps rs|nid|iid|tid tc|aid rhs|uid]; simpl in *;
    try (by eexists);
    try (apply Hrec; [apply HS; set_solver|done]);
    try (apply (rec_forM_total (λ T, T)); [intros; apply HS; set_solver|done]).
  - destruct (Hrec k skip x) as (x1 & -> & H1); [apply HS; set_solver|done|]. simpl.
    apply Hrec; [apply HS; set_solver|done].
  - destruct (Hrec (TTuple ps) skip x) as (x1 & -> & H1); [apply HS; set_solver|done|].
    simpl. apply Hrec; [apply HS; set_solver|done].
  - destruct (Hrec (TPointer (TNamed nid)) skip x) as (x1 & -> & H1);
      [apply HS; set_solver|done|]. simpl.
    destruct (Hrec (prog_underlying prog nid) true x1) as (x2 & -> & H2);
      [apply HS; set_solver|done|]. simpl.
    apply (rec_forM_total fo_type); [|done].
    intros m Hm. apply HS. do 2 (apply elem_of_cons; right).
    apply list_elem_of_fmap. by exists m.
Qed.

Lemma addRuntimeTypeNew_total T skip x :
  canon T ∈ U → ready U n x →
  ∃ y, addRuntimeTypeNew rec T skip x = Ok y ∧ ready U n y.
Proof.
  intros HT Hx. unfold addRuntimeTypeNew.
  assert (∀ S, S ∈ typeSuccessors T → canon S ∈ U) as Hsucc.
  { intros S. by apply closed_successors. }
  destruct (addTypeToIndex_total T x) as (x1 & E1 & H1); [apply Hx|]. rewrite E1. simpl.
  assert (ready U n x1) as R1.
  { eapply ready_step; [done| |done].
    apply core_eq_steps. by eapply core_eq_addTypeToIndex. }
  destruct (structure_total T x1) as (x2 & E2 & R2); [|done|].
  { intros S HS. apply Hsucc. unfold typeSuccessors. set_solver. }
  rewrite E2. simpl.
  assert (∃ x3, (if negb skip && negb (isInterface T)
                 then addInvokeEdges T x2 else Ok x2) = Ok x3 ∧ ready U n x3)
    as (x3 & -> & R3).
  { destruct (_ && _); [|by eexists].
    destruct (addInvokeEdges_total T x2) as (x3 & E3 & K3); [apply R2|].
    exists x3. split; [done|]. eapply ready_step; [done| |].
    - eapply steps_then_addInvokeEdges; [apply steps_refl|done].
    - eapply keeps_tables_ok; [done|apply R2]. }
  simpl. destruct (_ && _ && _).
  - apply children_total; [done|]. eapply ready_step; [done| |].
    + apply steps_then_markContextMethods, steps_refl.
    + eapply keeps_tables_ok; [|apply R3].
      apply keeps_then_markContextMethods, keeps_refl.
  - apply children_total; [done|]. destruct (negb skip); [|done].
    eapply ready_step; [done| |].
    + apply steps_then_markExportedMethods, steps_refl.
    + eapply keeps_tables_ok; [|apply R3].
      apply keeps_then_markExportedMethods, keeps_refl.
Qed.

End RecTotal.

Lemma addRuntimeType_ready n : ∀ T skip x,
  canon T ∈ U → ready U n x →
  ∃ y, addRuntimeType n T skip x = Ok y ∧ ready U n y.
Proof.
  induction n as [|n IH]; intros T skip x HT [Hx Hm]; [lia|]. simpl.
  destruct (At (RuntimeTypes (result x)) T) as [prev|] eqn:EAt.
  - eexists. split; [done|]. destruct skip, prev; simpl; try done.
    eapply ready_step; [done| |done]. by apply steps_rt_true.
  - set (x1 := setRuntimeType T skip x).
    assert (steps x x1) as Hs1 by (by apply steps_rt_new).
    assert (ready U n x1) as R1.
    { split; [done|].
      enough (length (missing U (RuntimeTypes (result x1)))
              < length (missing U (RuntimeTypes (result x))))%nat by lia.
      apply (missing_lt U _ _ (canon T)); [done| | |by apply steps_RuntimeTypes_le].
      - unfold At in *. by rewrite canon_idemp.
      - subst x1. unfold setRuntimeType. simpl. rewrite At_Set_eq; [eauto|].
        by rewrite canon_idemp. }
    destruct (addRuntimeTypeNew_total (addRuntimeType n) n) with (T := T) (skip := skip)
      (x := x1) as (y & Hy & Ry); [| |done|done|].
    + intros S b xa HS Ra. destruct (IH S b xa HS Ra) as (y & Hy & Ry). eauto.
    + intros S b xa y Hy. eapply steps_then_addRuntimeType; [apply steps_refl|done].
    + exists y. split; [done|]. destruct Ry as [Ry Rm]. split; [done|]. lia.
Qed.

Variable fuel : nat.
Hypothesis Hfuel : (length U < fuel)%nat.

Lemma tables_ready x : tables_ok x → ready U fuel x.
Proof. intros Hx. split; [done|]. pose proof (missing_bound U (RuntimeTypes (result x))). lia. Qed.

Lemma addRuntimeType_total T skip x :
  canon T ∈ U → tables_ok x →
  ∃ y, addRuntimeType fuel T skip x = Ok y ∧ tables_ok y.
Proof.
  intros HT Hx.
  destruct (addRuntimeType_ready fuel T skip x HT (tables_ready x Hx)) as (y & Hy & [Ry _]).
  eauto.
Qed.

Lemma addRuntimeTypeStructure_total T x :
  canon T ∈ U → tables_ok x →
  ∃ y, addRuntimeTypeStructure fuel T x = Ok y ∧ tables_ok y.
Proof.
  intros HT Hx. unfold addRuntimeTypeStructure.
  assert (∀ S, S ∈ structureTypes T → canon S ∈ U) as HS.
  { intros S HS. apply (closed_successors T); [done|]. unfold typeSuccessors. set_solver. }
  destruct (structure_total (addRuntimeType fuel) fuel
              (λ S b xa HS Ra, addRuntimeType_ready fuel S b xa HS Ra)
              (λ S b xa y Hy, steps_then_addRuntimeType xa fuel S b xa y
                                (steps_refl xa) Hy)
              T x HS (tables_ready x Hx)) as (y & Hy & [Ry _]).
  eauto.
Qed.

End Universe.

(** *** Instructions and the worklist loop *)

Section Driver.

Variable U : list type.
Hypothesis Hwf : wf_program U = true.
Variable fuel : nat.
Hypothesis Hfuel : (length U < fuel)%nat.

Lemma wf_closed : closedUniverse U = true.
Proof.
  unfold wf_program in Hwf.
  by apply andb_prop in Hwf as [[Ha Hb]%andb_prop Hc].
Qed.

Lemma wf_func f : wf_function U (func f) = true.
Proof.
  unfold wf_program in Hwf.
  apply andb_prop in Hwf as [[Ha Hb]%andb_prop Hc].
  apply bool_decide_eq_true_1 in Hb. unfold func.
  destruct (prog_funcs prog !! f) as [F|] eqn:E; simpl; [|done].
  apply (Hb f F E).
Qed.

Lemma wf_members pkg T :
  pkg ∈ prog_packages prog → T ∈ memberTypes (pkg_members pkg) → canon T ∈ U.
Proof.
  intros Hpkg HT. unfold wf_program in Hwf.
  apply andb_prop in Hwf as [[Ha Hb]%andb_prop Hc].
  rewrite forallb_forall in Hc. apply list_elem_of_In in Hpkg.
  specialize (Hc pkg Hpkg). rewrite forallb_forall in Hc.
  apply list_elem_of_In in HT. by apply (bool_decide_eq_true_1 _ (Hc T HT)).
Qed.

Lemma tables_ok_marks x i (mset : list Selection) :
  tables_ok x →
  tables_ok (foldl (λ r method,
                      match Lookup mset (fo_pkg method) (fo_name method) with
                      | Some sel => markSelection sel r
                      | None => r
                      end) x (prog_iface_methods prog i)).
Proof.
  apply tables_ok_foldl. intros r m. destruct (Lookup _ _ _); [|apply keeps_refl].
  apply keeps_then_markSelection, keeps_refl.
Qed.

Lemma tables_ok_setRuntimeType T b x : tables_ok x → tables_ok (setRuntimeType T b x).
Proof. apply keeps_tables_ok. keeps_tac. Qed.

Lemma addRuntimeTypeForInterface_total T i x :
  canon T ∈ U → tables_ok x →
  ∃ y, addRuntimeTypeForInterface fuel T (Some i) false x = Ok y ∧ tables_ok y.
Proof.
  intros HT Hx. unfold addRuntimeTypeForInterface.
  rewrite <- canon_Unalias in HT. set (T' := Unalias T) in *.
  destruct (inRuntimeTypes T' x).
  - destruct (isInterface T'); simpl; eexists; (split; [done|]); [done|].
    by apply tables_ok_marks.
  - pose proof (tables_ok_setRuntimeType T' false x Hx) as H1.
    destruct (isInterface T'); simpl.
    + by apply (addRuntimeTypeStructure_total U wf_closed fuel Hfuel).
    + destruct (addInvokeEdges_total T'
        (foldl (λ r method,
                  match Lookup (MethodSet T') (fo_pkg method) (fo_name method) with
                  | Some sel => markSelection sel r
                  | None => r
                  end) (setRuntimeType T' false x) (prog_iface_methods prog i)))
        as (y & -> & Hy); [by apply tables_ok_marks|]. simpl.
      apply (addRuntimeTypeStructure_total U wf_closed fuel Hfuel); [done|].
      eapply keeps_tables_ok; [done|]. by apply tables_ok_marks.
Qed.

Lemma markImplementorsMethodsReachable_total ti x :
  tables_ok x →
  ∃ y, markImplementorsMethodsReachable fuel ti x = Ok y ∧ tables_ok y.
Proof.
  intros Hx. unfold markImplementorsMethodsReachable.
  apply (forM_total tables_ok); [|done]. intros pkg xa Hpkg Hxa.
  destruct (pkg_path pkg); [|by eexists].
  apply (forM_total tables_ok); [|done]. intros T xb HT Hxb.
  destruct (isInterface T); [by eexists|].
  destruct (_ || _); [|by eexists].
  destruct (inRuntimeTypes T xb).
  - eexists. split; [done|]. by apply tables_ok_marks.
  - apply (addRuntimeType_total U wf_closed fuel Hfuel); [|done].
    by apply (wf_members pkg).
Qed.

Lemma knownSafeContext_current x :
  isInKnownSafeContext x = true → is_Some (currentFunction x).
Proof. unfold isInKnownSafeContext. destruct (currentFunction x); [eauto|done]. Qed.

Lemma handleMakeInterface_total v t x :
  isInterface t = true → canon (value_type v) ∈ U → tables_ok x →
  ∃ y, handleMakeInterface fuel v t x = Ok y ∧ tables_ok y.
Proof.
  intros Hi HT Hx. unfold handleMakeInterface. unfold isInterface in Hi.
  destruct (asInterface t) as [iface|]; [|done].
  destruct (Nat.eqb _ _); [|by apply addRuntimeTypeForInterface_total].
  match goal with |- ∃ y, match ?tc with _ => _ end = _ ∧ _ => destruct tc end.
  - by apply markImplementorsMethodsReachable_total.
  - destruct (isInKnownSafeContext x) eqn:Ek.
    + apply addRuntimeTypeSelective_total; [|done]. by apply knownSafeContext_current.
    + by apply (addRuntimeType_total U wf_closed fuel Hfuel).
Qed.

Lemma tables_ok_operands rands x :
  tables_ok x →
  tables_ok (foldl (λ r op, match op with
                            | VFunction g => visitAddrTakenFunc g r
                            | _ => r
                            end) x rands).
Proof.
  apply tables_ok_foldl. intros r op. destruct op; try apply keeps_refl.
  apply keeps_then_visitAddrTakenFunc, keeps_refl.
Qed.

Lemma visitInstr_total i x :
  wf_instr U i = true → tables_ok x →
  ∃ y, visitInstr fuel i x = Ok y ∧ tables_ok y.
Proof.
  intros Hi Hx. unfold visitInstr.
  destruct i as [call|v t|v t|v t|ops]; simpl in Hi.
  - assert (∃ y, (if IsInvoke call then visitInvoke call x
                  else match StaticCallee call with
                       | Some g => Ok (checkSetFinalizer call (addEdge (Some g) false x))
                       | None => match cc_value call with
                                 | VBuiltin _ => Ok x
                                 | _ => Ok (visitDynCall call x)
                                 end
                       end) = Ok y ∧ tables_ok y) as (y & -> & Hy).
    { destruct (IsInvoke call) eqn:EI.
      - simpl in Hi. apply visitInvoke_total; [|done|done].
        unfold IsInvoke in EI. destruct (cc_method call); [eauto|done].
      - destruct (StaticCallee call).
        + eexists. split; [done|]. eapply keeps_tables_ok; [|done].
          apply keeps_then_checkSetFinalizer. unfold addEdge.
          apply keeps_then_addReachable, keeps_refl.
        + assert (tables_ok (visitDynCall call x)).
          { eapply keeps_tables_ok; [|done]. apply keeps_then_visitDynCall, keeps_refl. }
          destruct (cc_value call); by eexists. }
    cbn [obind]. eexists. split; [done|]. by apply tables_ok_operands.
  - apply andb_prop in Hi as [Hi HT%bool_decide_eq_true_1].
    destruct (handleMakeInterface_total v t x Hi HT Hx) as (y & -> & Hy). cbn [obind].
    eexists. split; [done|]. by apply tables_ok_operands.
  - destruct (handleTypeAssert_total v t x Hx) as (y & -> & Hy). cbn [obind].
    eexists. split; [done|]. by apply tables_ok_operands.
  - destruct (handleChangeInterface_total t x Hx) as (y & -> & Hy). cbn [obind].
    eexists. split; [done|]. by apply tables_ok_operands.
  - cbn [obind]. eexists. split; [done|]. by apply tables_ok_operands.
Qed.

Lemma tables_ok_with_currentFunction f x :
  tables_ok x → tables_ok (with_currentFunction f x).
Proof. intros [H1 H2]. split; [exact H1|exact H2]. Qed.

Lemma visitFunc_total f x :
  tables_ok x → ∃ y, visitFunc fuel f x = Ok y ∧ tables_ok y.
Proof.
  intros Hx. unfold visitFunc.
  pose proof (wf_func f) as Hf. unfold wf_function in Hf. rewrite forallb_forall in Hf.
  destruct (forM_total tables_ok (λ b r, forM b (visitInstr fuel) r)
              (fn_blocks (func f)) (with_currentFunction (Some f) x))
    as (y & -> & Hy).
  - intros b xa Hb Hxa. apply (forM_total tables_ok); [|done].
    intros i xi Hi Hxi. apply visitInstr_total; [|done].
    apply list_elem_of_In in Hb, Hi. specialize (Hf b Hb).
    rewrite forallb_forall in Hf. by apply Hf.
  - by apply tables_ok_with_currentFunction.
  - simpl. eexists. split; [done|]. by apply tables_ok_with_currentFunction.
Qed.

Lemma drain_nil rounds visited r :
  worklist r = [] → drain rounds fuel visited r = Ok (visited, r).
Proof. intros H. destruct rounds; simpl; by rewrite H. Qed.

Lemma visitFunc_extern f x y :
  prog_funcs prog !! f = None → visitFunc fuel f x = Ok y → worklist y = worklist x.
Proof. unfold visitFunc, func. intros ->. simpl. by intros [= <-]. Qed.

Lemma forM_extern l : ∀ x y,
  Forall (λ f, prog_funcs prog !! f = None) l →
  forM l (visitFunc fuel) x = Ok y → worklist y = worklist x.
Proof.
  induction l as [|f l IH]; intros x y Hl; simpl; [by intros [= <-]|].
  apply Forall_cons in Hl as [Hf Hl].
  destruct (visitFunc fuel f x) as [x1| |] eqn:E; simpl; try done.
  intros Hy. rewrite (IH _ _ Hl Hy). by apply (visitFunc_extern f).
Qed.

Lemma pending_visit visited shadow f :
  NoDup (visited ++ shadow) → f ∈ shadow → is_Some (prog_funcs prog !! f) →
  (pending (visited ++ shadow) < pending visited)%nat.
Proof.
  intros Hnd Hf Hdom. unfold pending. apply subset_size.
  apply NoDup_app in Hnd as (_ & Hdisj & _).
  assert (f ∉ visited) as Hfv by (intros Hv; by apply (Hdisj f)).
  apply elem_of_dom in Hdom.
  rewrite list_to_set_app_L. set_solver.
Qed.

Lemma drain_total rounds : ∀ visited r,
  WInv visited (result r) (worklist r) → tables_ok r →
  (pending visited < rounds)%nat →
  ∃ out, drain rounds fuel visited r = Ok out.
Proof.
  induction rounds as [|rounds IH]; intros visited r HW Hr Hp; [lia|].
  rewrite drain_S. destruct (worklist r) as [|f0 shadow0] eqn:Ew; [eauto|].
  set (shadow := f0 :: shadow0) in *.
  destruct (forM_total tables_ok (visitFunc fuel) shadow (with_worklist [] r))
    as (r1 & E1 & H1).
  { intros f x _ Hx. by apply visitFunc_total. }
  { destruct Hr as [Ha Hb]. split; [exact Ha|exact Hb]. }
  cbv zeta. rewrite E1. cbn [obind].
  assert (WInv (visited ++ shadow) (result r1) (worklist r1)) as HW1.
  { apply (steps_WInv _ (with_worklist [] r)).
    - eapply steps_then_forM; [|apply steps_refl|exact E1].
      intros a xa ya Hxa. by apply steps_then_visitFunc.
    - by apply WInv_shift. }
  destruct (decide (Forall (λ f, prog_funcs prog !! f = None) shadow)) as [Hall|Hex].
  - rewrite drain_nil; [eauto|]. by rewrite (forM_extern _ _ _ Hall E1).
  - apply not_Forall_Exists in Hex; [|apply _].
    apply Exists_exists in Hex as (f & Hf & Hbody). simpl in Hbody.
    apply IH; [done|done|].
    enough (pending (visited ++ shadow) < pending visited)%nat by lia.
    apply (pending_visit _ _ f); [apply HW|done|].
    by destruct (prog_funcs prog !! f); [eauto|].
Qed.

Lemma tables_ok_seed roots : tables_ok (seed roots).
Proof.
  apply (keeps_tables_ok initial).
  - unfold seed. apply keeps_then_foldl; [|apply keeps_refl].
    intros x root Hx. by apply keeps_then_addReachable.
  - split.
    + intros [? H]. simpl in H. done.
    + intros k sites site H. simpl in H. by apply elem_of_nil in H.
Qed.

Lemma WInv_seed roots : WInv [] (result (seed roots)) (worklist (seed roots)).
Proof. apply (steps_WInv _ initial); [apply steps_seed|apply WInv_initial]. Qed.

End Driver.

Lemma pending_bound visited :
  (pending visited ≤ size (dom (prog_funcs prog) : gset fn))%nat.
Proof. unfold pending. apply subseteq_size. set_solver. Qed.

(** C9 (amended).  [Analyze] returns a nil result when the root list is
    empty and panics when the first root is nil, since it reads
    [roots[0].Prog].  When the first root is not nil (later roots may be
    nil, they are skipped) and the program is well formed over a finite
    universe [U] of types closed under type structure (invokes have an
    interface receiver, conversions target an interface, the converted
    types and the package-level types are in [U]), the analysis runs to
    completion and returns a full result: fuel beyond the number of
    functions with a body plus the size of [U] is never exhausted, and
    no step panics. *)
Theorem Analyze_outcome (U : list type) (fuel : nat) (roots : list (option fn)) :
  wf_program U = true →
  (size (dom (prog_funcs prog) : gset fn) + length U < fuel)%nat →
  match roots with
  | [] => Analyze fuel roots = Ok None
  | None :: _ => Analyze fuel roots = Panic
  | Some _ :: _ => ∃ res, Analyze fuel roots = Ok (Some res)
  end.
Proof.
  intros Hwf Hfuel. destruct roots as [|[f|] rest]; [done| |done].
  unfold Analyze, AnalyzeTrace.
  destruct (drain_total U Hwf fuel ltac:(lia) fuel [] (seed (Some f :: rest)))
    as ([visited r] & E).
  - apply WInv_seed.
  - apply tables_ok_seed.
  - pose proof (pending_bound []). lia.
  - rewrite E. simpl. eauto.
Qed.

End Totality.

(** A nil first root: [Analyze] panics although the root list is not
    empty. *)
Lemma Analyze_nil_root_counterexample :
  Analyze (prog:=markerProgram) 17 [None; Some 0] = Panic.
Proof. reflexivity. Qed.

Lemma Analyze_outcome_witness :
  wf_program (prog:=markerProgram) markerUniverse = true
  ∧ (size (dom (prog_funcs markerProgram) : gset fn) + length markerUniverse < 17)%nat
  ∧ ∃ res, Analyze (prog:=markerProgram) 17 [Some 0; None] = Ok (Some res).
Proof.
  split; [vm_compute; reflexivity|]. split; [vm_compute; lia|].
  apply (Analyze_outcome (prog:=markerProgram) markerUniverse 17 [Some 0; None]);
    [vm_compute; reflexivity|vm_compute; lia].
Defined.

(** ** Further properties of the marks *)

Section MarkProperties.

Context {prog : Program}.

Lemma with_Reachable_id r : with_Reachable (Reachable (result r)) r = r.
Proof. by destruct r as [[] ? ? ? ? ? ? ? ? ? ? ? ?]. Qed.

Lemma seed_reachable f roots : ∀ r,
  Some f ∈ roots ∨ is_Some (Reachable (result r) !! f) →
  is_Some (Reachable (result (foldl (λ r root, addReachable root false r) r roots)) !! f).
Proof.
  induction roots as [|root roots IH]; intros r; simpl.
  - intros [H|H]; [by apply elem_of_nil in H|done].
  - intros [[<-|H]%elem_of_cons|H]; apply IH.
    + right. rewrite addReachable_lookup. rewrite decide_True by done. eauto.
    + by left.
    + right. destruct H as [v Hv].
      destruct (addReachable_le root false r) as [Hle _].
      destruct (Hle f v Hv) as (v' & Hv' & _). eauto.
Qed.

(** X1. Every root that is not nil is a reachable function of the result
    of [Analyze]. *)
Theorem roots_reachable fuel roots res f :
  Analyze fuel roots = Ok (Some res) → Some f ∈ roots →
  is_Some (Reachable res !! f).
Proof.
  unfold Analyze, AnalyzeTrace. intros H Hf.
  destruct roots as [|[g|] rest]; try done.
  destruct (drain fuel fuel [] (seed (Some g :: rest))) as [[visited r]| |] eqn:E;
    simpl in H; try done.
  injection H as <-.
  apply drain_Result_le in E as [Hle _].
  destruct (seed_reachable f (Some g :: rest) initial (or_introl Hf)) as [v Hv].
  destruct (Hle f v Hv) as (v' & Hv' & _). eauto.
Qed.

(** X2. Marking is idempotent: marking a function a second time with the
    same flag changes nothing, neither the result nor the worklist. *)
Theorem addReachable_idempotent f b r :
  addReachable f b (addReachable f b r) = addReachable f b r.
Proof.
  destruct f as [f|]; [|done].
  destruct (Reachable (result r) !! f) as [v|] eqn:E.
  - rewrite (addReachable_old r f b v E).
    rewrite (addReachable_old _ f b (b || v)) by (simpl; apply lookup_insert_eq).
    unfold with_Reachable, with_result. simpl.
    rewrite insert_insert_eq. by destruct b, v.
  - rewrite (addReachable_new r f b E).
    match goal with |- addReachable _ _ ?s = _ => set (s1 := s) end.
    assert (Reachable (result s1) !! f = Some b) as E1.
    { subst s1. rewrite markGenericTemplateReachable_lookup. simpl.
      by rewrite lookup_insert_eq. }
    rewrite (addReachable_old s1 f b b E1).
    rewrite insert_id by (rewrite E1; by destruct b).
    apply with_Reachable_id.
Qed.

End MarkProperties.

Lemma roots_reachable_witness :
  ∃ res, Analyze (prog:=genericProgram) 5 [Some 0; None] = Ok (Some res)
         ∧ is_Some (Reachable res !! 0).
Proof.
  eexists. split; [vm_compute; reflexivity|].
  apply (roots_reachable (prog:=genericProgram) 5 [Some 0; None] _ 0);
    [vm_compute; reflexivity|set_solver].
Defined.

(** ** Operations outside the cross product of function values and calls *)

Section Quiet.

Context {prog : Program}.

Ltac quiet_tac :=
  intros; unfold quiet in *; simpl in *;
  repeat match goal with H : _ ∧ _ |- _ => destruct H end;
  repeat split; congruence.

Lemma quiet_refl r : quiet r r.
Proof. quiet_tac. Qed.

Lemma quiet_trans r1 r2 r3 : quiet r1 r2 → quiet r2 r3 → quiet r1 r3.
Proof. quiet_tac. Qed.

Lemma quiet_then r x y : quiet x y → quiet r x → quiet r y.
Proof. intros. by eapply quiet_trans. Qed.

Lemma quiet_then_markGenericTemplateReachable r x f :
  quiet r x → quiet r (markGenericTemplateReachable f x).
Proof.
  intros H. unfold markGenericTemplateReachable. destruct (Origin f); [|done].
  case_decide; [done|]. destruct (_ !! _); [done|]. quiet_tac.
Qed.

Lemma quiet_then_addReachable r x f b : quiet r x → quiet r (addReachable f b x).
Proof.
  intros H. destruct f as [f|]; [|done]. unfold addReachable.
  case_decide; [|quiet_tac].
  apply quiet_then_markGenericTemplateReachable. quiet_tac.
Qed.

Lemma quiet_then_addReachableObject r x o :
  quiet r x → quiet r (addReachableObject o x).
Proof. intros H. destruct o; [|done]. unfold addReachableObject. quiet_tac. Qed.

Lemma quiet_then_markSelection r x sel : quiet r x → quiet r (markSelection sel x).
Proof.
  intros H. unfold markSelection. destruct (MethodValue sel).
  - by apply quiet_then_addReachable.
  - by apply quiet_then_addReachableObject.
Qed.

Lemma quiet_then_foldl {A} (f : rta → A → rta) l r x :
  (∀ x y, quiet r x → quiet r (f x y)) → quiet r x → quiet r (foldl f x l).
Proof.
  intros Hf. revert x. induction l as [|y l IH]; intros x Hx; simpl; auto.
Qed.

Lemma quiet_then_forM {A} (body : A → rta → outcome rta) l r x r' :
  (∀ a x y, quiet r x → body a x = Ok y → quiet r y) →
  quiet r x → forM l body x = Ok r' → quiet r r'.
Proof.
  intros Hb. revert x. induction l as [|a l IH]; intros x Hx; simpl.
  - by intros [= <-].
  - destruct (body a x) as [x1| |] eqn:E; simpl; try done.
    apply IH. by eapply Hb.
Qed.

Lemma quiet_then_marks r x (mset : list Selection) (l : list Func) :
  quiet r x →
  quiet r (foldl (λ r method,
                    match Lookup mset (fo_pkg method) (fo_name method) with
                    | Some sel => markSelection sel r
                    | None => r
                    end) x l).
Proof.
  intros Hx. apply quiet_then_foldl; [|done]. intros ra m Hra.
  destruct (Lookup _ _ _); [by apply quiet_then_markSelection|done].
Qed.

Lemma quiet_getConcreteTypeInfo C r : quiet r (snd (getConcreteTypeInfo C r)).
Proof.
  unfold getConcreteTypeInfo. destruct (At _ _); simpl; [apply quiet_refl|].
  case_decide; quiet_tac.
Qed.

Lemma quiet_getInterfaceTypeInfo i r : quiet r (snd (getInterfaceTypeInfo i r)).
Proof. unfold getInterfaceTypeInfo. destruct (At _ _); quiet_tac. Qed.

Lemma quiet_interfaces C r : quiet r (snd (interfaces C r)).
Proof.
  unfold interfaces. pose proof (quiet_getConcreteTypeInfo C r) as H.
  destruct (getConcreteTypeInfo C r) as [cinfo r1]. simpl in H.
  destruct (ci_implements cinfo); simpl; quiet_tac.
Qed.

Lemma quiet_implementations i r : quiet r (snd (implementations i r)).
Proof.
  unfold implementations. pose proof (quiet_getInterfaceTypeInfo i r) as H.
  destruct (getInterfaceTypeInfo i r) as [iinfo r1]. simpl in H.
  destruct (ii_computed iinfo); simpl; [done|].
  destruct (interfaceToTypes r1 ≫= _) eqn:E; simpl.
  - quiet_tac.
  - destruct (interfaceToTypes r1); quiet_tac.
Qed.

Lemma quiet_then_addInvokeEdge r x site C r' :
  quiet r x → addInvokeEdge site C x = Ok r' → quiet r r'.
Proof.
  intros Hx. unfold addInvokeEdge. destruct (cc_method site) as [m|]; [|done].
  set (p := match Lookup (MethodSet (Unalias C)) _ _ with Some s => _ | None => _ end).
  destruct p as [[s|] C']; [|by intros [= <-]].
  destruct (LookupMethod C' _ _); simpl; try done.
  intros [= <-]. by apply quiet_then_addReachable.
Qed.

Lemma quiet_then_addInvokeEdges r x T r' :
  quiet r x → addInvokeEdges T x = Ok r' → quiet r r'.
Proof.
  intros Hx. unfold addInvokeEdges.
  pose proof (quiet_interfaces T x) as H.
  destruct (interfaces T x) as [Is x1]. simpl in H.
  apply quiet_then_forM; [|by eapply quiet_then; [exact H|]].
  intros I0 ra rb Hra.
  apply quiet_then_forM; [|done].
  intros. by eapply quiet_then_addInvokeEdge.
Qed.

Lemma quiet_then_visitInvoke r x site r' :
  quiet r x → visitInvoke site x = Ok r' → quiet r r'.
Proof.
  intros Hx. unfold visitInvoke. destruct (asInterface _) as [i|]; [|done].
  match goal with |- context [implementations i ?y] =>
    pose proof (quiet_implementations i y) as H;
    destruct (implementations i y) as [Cs x1] end.
  simpl in H.
  apply quiet_then_forM.
  - intros. by eapply quiet_then_addInvokeEdge.
  - eapply quiet_then; [exact H|]. quiet_tac.
Qed.

Lemma quiet_indexAdd i T r r' : indexAdd i T r = Ok r' → quiet r r'.
Proof.
  unfold indexAdd. destruct (interfaceToTypes r), (typeToInterfaces r); try done.
  intros [= <-]. quiet_tac.
Qed.

Lemma quiet_then_indexStep r x i T (b : bool) y :
  quiet r x → (if b then indexAdd i T x else Ok x) = Ok y → quiet r y.
Proof.
  intros Hx. destruct b.
  - intros H%quiet_indexAdd. by eapply quiet_trans.
  - by intros [= <-].
Qed.

Lemma quiet_addTypeToIndex T r r' : addTypeToIndex T r = Ok r' → quiet r r'.
Proof.
  unfold addTypeToIndex. destruct (interfaceToTypes r); [|intros [= <-]; apply quiet_refl].
  destruct (isInterface T); [intros [= <-]; apply quiet_refl|].
  pose proof (quiet_getConcreteTypeInfo T r) as H.
  destruct (getConcreteTypeInfo T r) as [cinfo r1]. simpl in H.
  apply quiet_then_forM; [|done]. intros e ra rb Hra.
  destruct (negb _); [by intros [= <-]|].
  by apply quiet_then_indexStep.
Qed.

Lemma quiet_buildUserTypesIndex r r' : buildUserTypesIndex r = Ok r' → quiet r r'.
Proof.
  unfold buildUserTypesIndex. destruct (userTypesIndexBuilt r);
    [intros [= <-]; apply quiet_refl|].
  match goal with |- obind (forM ?l ?body ?x) _ = _ → _ =>
    assert (quiet r x) as H0; [|destruct (forM l body x) as [r2| |] eqn:E; simpl; try done] end.
  - match goal with |- quiet r (match interfaceToTypes ?y with _ => _ end) =>
      assert (quiet r y) as Hy end.
    { apply quiet_then_foldl; [|quiet_tac].
      intros ra T Hra.
      eapply quiet_then; [apply quiet_getConcreteTypeInfo|].
      eapply quiet_then; [apply quiet_getConcreteTypeInfo|]. done. }
    destruct (interfaceToTypes _); [done|]. quiet_tac.
  - intros [= <-].
    eapply quiet_then; [instantiate (1 := r2); quiet_tac|].
    revert E. apply quiet_then_forM; [|done]. intros T ra rb Hra.
    pose proof (quiet_getConcreteTypeInfo T ra) as Ha.
    destruct (getConcreteTypeInfo T ra) as [vi r3]. simpl in Ha.
    pose proof (quiet_getConcreteTypeInfo (TPointer T) r3) as Hb.
    destruct (getConcreteTypeInfo (TPointer T) r3) as [pi r4]. simpl in Hb.
    apply quiet_then_forM.
    + intros iinfo rc rd Hrc.
      destruct (_ && _); [by intros [= <-]|].
      by apply quiet_then_indexStep.
    + eapply quiet_then; [exact Hb|]. by eapply quiet_then.
Qed.

Lemma quiet_then_findAll r i x Ts y :
  quiet r x → findAllImplementationsInProgram i x = Ok (Ts, y) → quiet r y.
Proof.
  intros Hx. unfold findAllImplementationsInProgram.
  destruct (buildUserTypesIndex x) as [x1| |] eqn:E; simpl; try done.
  intros [= _ <-]. eapply quiet_then; [|done].
  by apply quiet_buildUserTypesIndex.
Qed.

Lemma quiet_then_markInterfaceMethodsReachable r x T i :
  quiet r x → quiet r (markInterfaceMethodsReachable T i x).
Proof.
  intros Hx. unfold markInterfaceMethodsReachable.
  apply quiet_then_foldl; [|done]. intros ra m Hra.
  apply quiet_then_foldl; [|done]. intros rb mset Hrb.
  destruct (Lookup _ _ _); [by apply quiet_then_markSelection | done].
Qed.

Lemma quiet_then_checkSetFinalizer r x call :
  quiet r x → quiet r (checkSetFinalizer call x).
Proof.
  intros Hx. unfold checkSetFinalizer.
  repeat match goal with
         | |- quiet _ (match ?x with _ => _ end) => destruct x
         | |- quiet _ (if ?x then _ else _) => destruct x
         end; try done; by apply quiet_then_addReachable.
Qed.

Lemma quiet_then_setRuntimeType r x T b : quiet r x → quiet r (setRuntimeType T b x).
Proof. unfold setRuntimeType. quiet_tac. Qed.

Section QuietRec.

Variable rec : type → bool → rta → outcome rta.
Variable r : rta.
Hypothesis Hrec : ∀ T b x y, quiet r x → rec T b x = Ok y → quiet r y.

Lemma quiet_then_rec_forM (l : list type) b x y :
  quiet r x → forM l (λ T, rec T b) x = Ok y → quiet r y.
Proof. apply quiet_then_forM. intros. by eapply Hrec. Qed.

Lemma quiet_then_structure T x y :
  quiet r x → addRuntimeTypeStructure_ rec T x = Ok y → quiet r y.
Proof.
  intros Hx. destruct T; simpl; try (by intros [= <-]);
    try (by apply Hrec); try (by apply quiet_then_rec_forM).
  - destruct (rec T1 true x) as [x1| |] eqn:E; simpl; try done.
    apply Hrec. by eapply Hrec.
  - destruct (rec (TPointer (TNamed id)) true x) as [x1| |] eqn:E; simpl; try done.
    apply Hrec. by eapply Hrec.
Qed.

Lemma quiet_then_children T skip x y :
  quiet r x → addRuntimeTypeChildren rec T skip x = Ok y → quiet r y.
Proof.
  intros Hx. destruct T; simpl; try (by intros [= <-]);
    try (by apply Hrec); try (by apply quiet_then_rec_forM).
  - destruct (rec T1 skip x) as [x1| |] eqn:E; simpl; try done.
    apply Hrec. by eapply Hrec.
  - destruct (rec (TTuple params) skip x) as [x1| |] eqn:E; simpl; try done.
    apply Hrec. by eapply Hrec.
  - destruct (rec (TPointer (TNamed id)) skip x) as [x1| |] eqn:E; simpl; try done.
    destruct (rec (prog_underlying prog id) true x1) as [x2| |] eqn:E2; simpl; try done.
    apply quiet_then_forM.
    + intros. by eapply Hrec.
    + eapply Hrec; [|exact E2]. by eapply Hrec.
Qed.

End QuietRec.

Lemma quiet_then_markContextMethods r x mset :
  quiet r x → quiet r (markContextMethods mset x).
Proof.
  intros Hx. unfold markContextMethods.
  destruct (currentFunction x); [|done]. destruct (knownSafe _); [|done].
  apply quiet_then_foldl; [|done]. intros ra m Hra.
  destruct (Lookup _ _ _); [by apply quiet_then_markSelection|done].
Qed.

Lemma quiet_then_markExportedMethods r x mset :
  quiet r x → quiet r (markExportedMethods mset x).
Proof.
  intros Hx. unfold markExportedMethods.
  apply quiet_then_foldl; [|done]. intros ra sel Hra.
  destruct (Exported _); [|done].
  destruct (_ && _); [done|by apply quiet_then_markSelection].
Qed.

Lemma quiet_then_addRuntimeTypeNew rec r T skip x y :
  (∀ T b x y, quiet r x → rec T b x = Ok y → quiet r y) →
  quiet r x → addRuntimeTypeNew rec T skip x = Ok y → quiet r y.
Proof.
  intros Hrec Hx. unfold addRuntimeTypeNew.
  destruct (addTypeToIndex T x) as [x1| |] eqn:E1; simpl; try done.
  assert (quiet r x1) as H1.
  { eapply quiet_then; [by eapply quiet_addTypeToIndex|done]. }
  destruct (addRuntimeTypeStructure_ rec T x1) as [x2| |] eqn:E2;
    simpl; try done.
  assert (quiet r x2) as H2 by (eapply quiet_then_structure; eauto).
  match goal with |- obind ?m _ = _ → _ => destruct m as [x3| |] eqn:E3 end;
    simpl; try done.
  assert (quiet r x3) as H3.
  { destruct (_ && _); [by eapply quiet_then_addInvokeEdges|congruence]. }
  destruct (_ && _ && _).
  - apply quiet_then_children; [done|]. simpl.
    by apply quiet_then_markContextMethods.
  - apply quiet_then_children; [done|].
    destruct (negb skip); [by apply quiet_then_markExportedMethods|done].
Qed.

Lemma quiet_then_addRuntimeType r fuel : ∀ T skip x y,
  quiet r x → addRuntimeType fuel T skip x = Ok y → quiet r y.
Proof.
  induction fuel as [|fuel IH]; intros T skip x y Hx; simpl; [done|].
  destruct (At (RuntimeTypes (result x)) T) as [prev|] eqn:EAt.
  - intros [= <-]. destruct (_ && _); [|done]. by apply quiet_then_setRuntimeType.
  - apply quiet_then_addRuntimeTypeNew; [apply IH|].
    by apply quiet_then_setRuntimeType.
Qed.

Lemma quiet_then_addRuntimeTypeStructure r fuel T x y :
  quiet r x → addRuntimeTypeStructure fuel T x = Ok y → quiet r y.
Proof.
  apply quiet_then_structure. intros. by eapply quiet_then_addRuntimeType.
Qed.

Lemma quiet_then_addRuntimeTypeForInterface r fuel T iface skip x y :
  quiet r x → addRuntimeTypeForInterface fuel T iface skip x = Ok y → quiet r y.
Proof.
  intros Hx. unfold addRuntimeTypeForInterface.
  destruct (inRuntimeTypes (Unalias T) x) eqn:Ein.
  - match goal with |- obind ?m _ = _ → _ => destruct m as [x1| |] eqn:E1 end;
      simpl; try done.
    intros [= <-]. destruct (isInterface _); [congruence|].
    destruct iface; [|done]. injection E1 as <-.
    by apply quiet_then_marks.
  - match goal with |- obind ?m _ = _ → _ => destruct m as [x1| |] eqn:E1 end;
      simpl; try done.
    apply quiet_then_addRuntimeTypeStructure.
    destruct (isInterface _).
    + injection E1 as <-. by apply quiet_then_setRuntimeType.
    + destruct iface; [|done].
      eapply quiet_then_addInvokeEdges; [|exact E1].
      apply quiet_then_marks. by apply quiet_then_setRuntimeType.
Qed.

Lemma quiet_then_addRuntimeTypeSelective r T skip x y :
  quiet r x → addRuntimeTypeSelective T skip x = Ok y → quiet r y.
Proof.
  intros Hx. unfold addRuntimeTypeSelective.
  destruct (inRuntimeTypes (Unalias T) x) eqn:Ein; [by intros [= <-]|].
  destruct (isInterface _);
    [intros [= <-]; by apply quiet_then_setRuntimeType|].
  match goal with |- obind ?m _ = _ → _ => destruct m as [x1| |] eqn:E1 end;
    simpl; try done.
  apply quiet_then_addInvokeEdges.
  revert E1. apply quiet_then_forM; [|by apply quiet_then_setRuntimeType].
  intros sel ra rb Hra. destruct (Exported _); [|by intros [= <-]].
  destruct (shouldMarkMethodForReflection _ _) as [[]| |]; simpl; try done;
    intros [= <-]; [by apply quiet_then_markSelection|done].
Qed.

Lemma quiet_then_markImplementorsMethodsReachable r fuel i x y :
  quiet r x → markImplementorsMethodsReachable fuel i x = Ok y → quiet r y.
Proof.
  intros Hx. apply quiet_then_forM; [|done]. intros pkg ra rb Hra.
  destruct (pkg_path pkg); [|by intros [= <-]].
  apply quiet_then_forM; [|done]. intros T rc rd Hrc.
  destruct (isInterface T); [by intros [= <-]|].
  destruct (_ || _); [|by intros [= <-]].
  destruct (inRuntimeTypes T rc).
  - intros [= <-]. by apply quiet_then_marks.
  - by apply quiet_then_addRuntimeType.
Qed.

Lemma quiet_then_handleMakeInterface r fuel v t x y :
  quiet r x → handleMakeInterface fuel v t x = Ok y → quiet r y.
Proof.
  intros Hx. unfold handleMakeInterface.
  destruct (asInterface t); [|by apply quiet_then_addRuntimeTypeForInterface].
  destruct (Nat.eqb _ _); [|by apply quiet_then_addRuntimeTypeForInterface].
  match goal with |- match ?ti with _ => _ end = _ → _ => destruct ti end.
  - by apply quiet_then_markImplementorsMethodsReachable.
  - destruct (isInKnownSafeContext x).
    + by apply quiet_then_addRuntimeTypeSelective.
    + by apply quiet_then_addRuntimeType.
Qed.

Lemma quiet_then_handleTypeAssert r v t x y :
  quiet r x → handleTypeAssert v t x = Ok y → quiet r y.
Proof.
  intros Hx. unfold handleTypeAssert.
  match goal with |- match ?tc with _ => _ end = _ → _ => destruct tc end.
  { intros [= <-]. by apply quiet_then_markInterfaceMethodsReachable. }
  destruct (asInterface t); [|by intros [= <-]].
  destruct (Nat.eqb _ _); [by intros [= <-]|].
  destruct (buildUserTypesIndex x) as [x1| |] eqn:E; simpl; try done.
  assert (quiet r x1) as H1.
  { eapply quiet_then; [|done]. by apply quiet_buildUserTypesIndex. }
  destruct (isStdlibFunction _).
  - intros [= <-]. apply quiet_then_foldl; [|done]. intros ra T Hra.
    destruct (inRuntimeTypes _ _); [|done].
    by apply quiet_then_markInterfaceMethodsReachable.
  - destruct (findAllImplementationsInProgram _ _) as [[Ts x2]| |] eqn:E2;
      simpl; try done.
    intros [= <-]. apply quiet_then_foldl.
    + intros. by apply quiet_then_markInterfaceMethodsReachable.
    + by eapply quiet_then_findAll.
Qed.

Lemma quiet_then_handleChangeInterface r t x y :
  quiet r x → handleChangeInterface t x = Ok y → quiet r y.
Proof.
  intros Hx. unfold handleChangeInterface.
  destruct (asInterface t); [|by intros [= <-]].
  destruct (Nat.eqb _ _); [by intros [= <-]|].
  destruct (findAllImplementationsInProgram _ _) as [[Ts x2]| |] eqn:E2;
    simpl; try done.
  intros [= <-]. apply quiet_then_foldl.
  - intros. by apply quiet_then_markInterfaceMethodsReachable.
  - by eapply quiet_then_findAll.
Qed.

End Quiet.

(** ** The walk over the type structure *)

Section StructureWalk.

Context {prog : Program}.







End StructureWalk.



(** ** The cross product of function values and dynamic calls *)

Section Tracking.

Context {prog : Program}.

Lemma At_canon {V} (m : tmap V) T T' : canon T = canon T' → At m T = At m T'.
Proof. unfold At. by intros ->. Qed.

Lemma RuntimeTypes_le_refl m : RuntimeTypes_le m m.
Proof. intros T b H. eauto. Qed.

Lemma RuntimeTypes_le_trans m1 m2 m3 :
  RuntimeTypes_le m1 m2 → RuntimeTypes_le m2 m3 → RuntimeTypes_le m1 m3.
Proof.
  intros H1 H2 T b Hb. destruct (H1 T b Hb) as (b' & Hb' & Ht).
  destruct (H2 T b' Hb') as (b'' & Hb'' & Ht'). eauto.
Qed.

Lemma tracks_refl r : tracks r r.
Proof.
  split; [apply Result_le_refl|]. split; [apply RuntimeTypes_le_refl|].
  by repeat split.
Qed.

Lemma tracks_trans r1 r2 r3 : tracks r1 r2 → tracks r2 r3 → tracks r1 r3.
Proof.
  intros (Hs1 & Ht1 & Hr1 & Hd1 & Ha1 & Hi1 & Hf1)
         (Hs2 & Ht2 & Hr2 & Hd2 & Ha2 & Hi2 & Hf2).
  split; [by eapply Result_le_trans|]. split; [by eapply RuntimeTypes_le_trans|].
  split; [congruence|]. repeat split; auto.
Qed.

Lemma steps_flag x y g : steps x y →
  Reachable (result x) !! g = Some true → Reachable (result y) !! g = Some true.
Proof.
  intros [Hle _]%steps_Result_le Hg.
  destruct (Hle g true Hg) as (b & Hb & Ht). by rewrite Hb, Ht.
Qed.

(** An operation that records nothing keeps the tabulation. *)
Lemma quiet_tracks x y : quiet x y → steps x y → tracks x y.
Proof.
  intros (Hd & Ha & Hr & _) Hs. split; [by apply steps_Result_le|].
  split; [by apply steps_RuntimeTypes_le|]. split; [done|].
  unfold dynSite, addrTakenFunc, dynResolved, reflResolved.
  rewrite Hd, Ha, Hr. repeat split; try done.
  - intros H S sites funcs g H1 H2 H3 H4. eapply steps_flag; [done|]. eauto.
  - intros H Hc S funcs g H1 H2. eapply steps_flag; [done|]. eauto.
Qed.

Lemma quiet_foldl_addEdge {A} (l : list A) (g : A → fn) x :
  quiet x (foldl (λ r a, addEdge (Some (g a)) true r) x l).
Proof.
  apply quiet_then_foldl; [|apply quiet_refl].
  intros. unfold addEdge. by apply quiet_then_addReachable.
Qed.

Lemma steps_foldl_addEdge {A} (l : list A) (g : A → fn) x :
  steps x (foldl (λ r a, addEdge (Some (g a)) true r) x l).
Proof.
  apply steps_then_foldl; [|apply steps_refl].
  intros. unfold addEdge. by apply steps_then_addReachable.
Qed.

Lemma foldl_addEdge_marks {A} (l : list A) (g : A → fn) : ∀ x a,
  a ∈ l →
  Reachable (result (foldl (λ r a, addEdge (Some (g a)) true r) x l)) !! g a = Some true.
Proof.
  induction l as [|b l IH]; intros x a Ha; [by apply elem_of_nil in Ha|]. simpl.
  apply elem_of_cons in Ha as [->|Ha]; [|by apply IH].
  eapply steps_flag; [apply steps_foldl_addEdge|].
  unfold addEdge. rewrite addReachable_lookup. by rewrite decide_True.
Qed.

Lemma tracks_visitDynCall site x :
  tracks x (visitDynCall site x) ∧ dynSite (visitDynCall site x) site.
Proof.
  unfold visitDynCall.
  set (S0 := callSignature site).
  set (sites := default [] (At (dynCallSites x) S0)).
  set (x1 := with_dynCallSites (Set_ (dynCallSites x) S0 (sites ++ [site])) x).
  set (funcs := default ∅ (At (addrTakenFuncsBySig x1) S0)).
  set (y := foldl (λ r g, addEdge (Some g) true r) x1 (elements funcs)).
  assert (quiet x1 y) as (Hd & Ha & Hr & _) by apply (quiet_foldl_addEdge _ id).
  assert (steps x1 y) as Hs1 by apply (steps_foldl_addEdge _ id).
  assert (steps x y) as Hs.
  { eapply steps_trans; [|exact Hs1]. by apply steps_aux. }
  simpl in Hd, Ha, Hr.
  assert (dynSite y site) as Hsite.
  { exists (sites ++ [site]). rewrite Hd. split; [by apply At_Set_eq|set_solver]. }
  split; [|done]. split; [by apply steps_Result_le|].
  split; [by apply steps_RuntimeTypes_le|]. split; [done|].
  unfold dynSite, addrTakenFunc, dynResolved, reflResolved. rewrite Hd, Ha, Hr.
  repeat split.
  - intros site' (sites' & H1 & H2).
    destruct (decide (canon S0 = canon (callSignature site'))) as [Heq|Hne].
    + exists (sites ++ [site]). split; [by apply At_Set_eq|].
      subst sites. rewrite (At_canon _ _ _ Heq), H1. set_solver.
    + exists sites'. by rewrite At_Set_ne.
  - done.
  - intros H S sites' funcs' g H1 H2 H3 H4.
    destruct (decide (canon S0 = canon S)) as [Heq|Hne].
    + assert (funcs' = funcs) as ->.
      { subst funcs. simpl. by rewrite (At_canon _ _ _ Heq), H3. }
      apply (foldl_addEdge_marks _ id). by apply elem_of_elements.
    + rewrite At_Set_ne in H1 by done.
      eapply steps_flag; [exact Hs|]. eauto.
  - intros H Hc S funcs' g H1 H2. eapply steps_flag; [exact Hs|]. eauto.
Qed.

Lemma foldl_const_marks {A} (l : list A) g x :
  l ≠ [] →
  Reachable (result (foldl (λ r _, addEdge (Some g) true r) x l)) !! g = Some true.
Proof.
  destruct l as [|a l]; [done|]. intros _.
  apply (foldl_addEdge_marks (a :: l) (λ _, g) x a). set_solver.
Qed.

Lemma tracks_visitAddrTakenFunc g x :
  tracks x (visitAddrTakenFunc g x) ∧ addrTakenFunc (visitAddrTakenFunc g x) g.
Proof.
  unfold visitAddrTakenFunc.
  set (S0 := fn_signature (func g)).
  set (funcs := default ∅ (At (addrTakenFuncsBySig x) S0)).
  set (x1 := match At (addrTakenFuncsBySig x) S0 with
             | None => with_addrTakenFuncsBySig (Set_ (addrTakenFuncsBySig x) S0 ∅) x
             | Some _ => x
             end).
  case_decide as Hin.
  { assert (x1 = x ∧ At (addrTakenFuncsBySig x) S0 = Some funcs) as [-> HAt].
    { subst x1 funcs. destruct (At (addrTakenFuncsBySig x) S0); [done|].
      simpl in Hin. set_solver. }
    split; [apply tracks_refl|]. by exists funcs. }
  set (x2 := with_addrTakenFuncsBySig (Set_ (addrTakenFuncsBySig x1) S0 ({[g]} ∪ funcs)) x1).
  set (sites := default [] (At (dynCallSites x2) S0)).
  set (x3 := foldl (λ r _, addEdge (Some g) true r) x2 sites).
  set (y := match reflectValueCall x3 with
            | Some _ => addEdge (Some g) true x3
            | None => x3
            end).
  assert (result x2 = result x ∧ worklist x2 = worklist x
          ∧ dynCallSites x2 = dynCallSites x ∧ reflectValueCall x2 = reflectValueCall x)
    as (Hres2 & Hwl2 & Hdyn2 & Hrefl2).
  { subst x2 x1. destruct (At (addrTakenFuncsBySig x) S0); done. }
  assert (∀ S, At (addrTakenFuncsBySig x2) S
               = if decide (canon S0 = canon S) then Some ({[g]} ∪ funcs)
                 else At (addrTakenFuncsBySig x) S) as HAt2.
  { intros S. subst x2. simpl. case_decide as Heq.
    - by apply At_Set_eq.
    - rewrite At_Set_ne by done. subst x1.
      destruct (At (addrTakenFuncsBySig x) S0); [done|]. simpl.
      by rewrite At_Set_ne. }
  assert (quiet x2 x3) as Hq3 by apply (quiet_foldl_addEdge _ (λ _, g)).
  assert (steps x2 x3) as Hs3 by apply (steps_foldl_addEdge _ (λ _, g)).
  assert (quiet x3 y ∧ steps x3 y) as [Hq4 Hs4].
  { subst y. destruct (reflectValueCall x3).
    - split; unfold addEdge;
        [apply quiet_then_addReachable, quiet_refl
        |apply steps_then_addReachable, steps_refl].
    - split; [apply quiet_refl|apply steps_refl]. }
  pose proof (quiet_trans _ _ _ Hq3 Hq4) as (Hd & Ha & Hr & _).
  assert (steps x2 y) as Hs2y by (by eapply steps_trans).
  assert (steps x y) as Hs.
  { eapply steps_trans; [|exact Hs2y]. by apply steps_aux. }
  assert (addrTakenFunc y g) as Hg.
  { exists ({[g]} ∪ funcs). rewrite Ha, HAt2. rewrite decide_True by done.
    split; [done|set_solver]. }
  split; [|done]. split; [by apply steps_Result_le|].
  split; [by apply steps_RuntimeTypes_le|]. split; [congruence|].
  unfold dynSite, addrTakenFunc, dynResolved, reflResolved.
  rewrite Hd, Ha, Hr, Hdyn2, Hrefl2.
  repeat split.
  - done.
  - intros g' (funcs' & H1 & H2). rewrite HAt2. case_decide as Heq.
    + exists ({[g]} ∪ funcs). split; [done|].
      subst funcs. rewrite (At_canon _ _ _ Heq), H1. set_solver.
    + by exists funcs'.
  - intros H S sites' funcs' g' H1 H2 H3 H4. rewrite HAt2 in H3.
    case_decide as Heq.
    + injection H3 as <-. apply elem_of_union in H4 as [->%elem_of_singleton|H4].
      * eapply steps_flag; [exact Hs4|]. subst x3.
        apply foldl_const_marks. subst sites. rewrite Hdyn2.
        by rewrite (At_canon _ _ _ Heq), H1.
      * eapply steps_flag; [exact Hs|]. subst funcs.
        destruct (At (addrTakenFuncsBySig x) S0) as [fs|] eqn:E; [|set_solver].
        apply (H S sites' fs); try done. by rewrite <- (At_canon _ _ _ Heq).
    + eapply steps_flag; [exact Hs|]. eauto.
  - intros H Hc S funcs' g' H1 H2. rewrite HAt2 in H1.
    case_decide as Heq.
    + injection H1 as <-. apply elem_of_union in H2 as [->%elem_of_singleton|H2].
      * subst y. destruct Hc as [c Hc]. rewrite <- Hrefl2 in Hc.
        destruct Hq3 as (_ & _ & Hr3 & _). rewrite <- Hr3 in Hc. rewrite Hc.
        unfold addEdge. rewrite addReachable_lookup. by rewrite decide_True.
      * eapply steps_flag; [exact Hs|]. subst funcs.
        destruct (At (addrTakenFuncsBySig x) S0) as [fs|] eqn:E; [|set_solver].
        by apply (H Hc S0 fs).
    + eapply steps_flag; [exact Hs|]. eauto.
Qed.

Lemma tracks_operands rands : ∀ x,
  let y := foldl (λ r op, match op with
                          | VFunction g => visitAddrTakenFunc g r
                          | _ => r
                          end) x rands in
  tracks x y ∧ ∀ g, VFunction g ∈ rands → addrTakenFunc y g.
Proof.
  induction rands as [|op rands IH]; intros x; simpl.
  - split; [apply tracks_refl|]. intros g Hg. by apply elem_of_nil in Hg.
  - match goal with |- context [foldl _ ?z rands] => set (x1 := z) end.
    destruct (IH x1) as [Ht Hg].
    assert (tracks x x1 ∧ ∀ g, op = VFunction g → addrTakenFunc x1 g) as [Hx1 Hop].
    { subst x1. destruct op; try (split; [apply tracks_refl|done]).
      destruct (tracks_visitAddrTakenFunc f x) as [H1 H2].
      split; [done|]. by intros g [= <-]. }
    split; [by eapply tracks_trans|].
    intros g [<-|Hin]%elem_of_cons; [|by apply Hg].
    destruct Ht as (_ & _ & _ & _ & Ha & _). by apply Ha, Hop.
Qed.

Lemma tracks_forM {A} (body : A → rta → outcome rta) l : ∀ x y,
  (∀ a x y, body a x = Ok y → tracks x y) →
  forM l body x = Ok y → tracks x y.
Proof.
  induction l as [|a l IH]; intros x y Hb; simpl.
  - intros [= <-]. apply tracks_refl.
  - destruct (body a x) as [x1| |] eqn:E; simpl; try done.
    intros Hy. eapply tracks_trans; [by eapply Hb|by apply IH].
Qed.

Lemma forM_elem {A} (body : A → rta → outcome rta) l : ∀ x y a,
  (∀ a x y, body a x = Ok y → tracks x y) →
  forM l body x = Ok y → a ∈ l →
  ∃ xa ya, tracks x xa ∧ body a xa = Ok ya ∧ tracks ya y.
Proof.
  induction l as [|b l IH]; intros x y a Hb; simpl.
  - intros _ Ha. by apply elem_of_nil in Ha.
  - destruct (body b x) as [x1| |] eqn:E; simpl; try done.
    intros Hy [->|Ha]%elem_of_cons.
    + exists x, x1. split; [apply tracks_refl|]. split; [done|].
      by eapply tracks_forM.
    + destruct (IH x1 y a Hb Hy Ha) as (xa & ya & H1 & H2 & H3).
      exists xa, ya. split; [|done]. eapply tracks_trans; [by eapply Hb|done].
Qed.

(** What the scan of one instruction leaves behind. *)
Lemma tracks_visitInstr fuel i x y :
  visitInstr fuel i x = Ok y →
  tracks x y
  ∧ (∀ call, i = ICall call → isDynCall call → dynSite y call)
  ∧ (∀ g, VFunction g ∈ scannedOperands i → addrTakenFunc y g).
Proof.
  unfold visitInstr.
  match goal with |- obind ?m _ = _ → _ => destruct m as [[rands x1]| |] eqn:E end;
    simpl; try done.
  intros [= <-].
  destruct (tracks_operands rands x1) as [Hops Hfun].
  assert (rands = scannedOperands i
          ∧ tracks x x1
          ∧ ∀ call, i = ICall call → isDynCall call → dynSite x1 call)
    as (-> & Hx1 & Hdyn).
  { destruct i as [call|v t|v t|v t|ops]; simpl in E.
    - match type of E with obind ?m _ = _ => destruct m as [x2| |] eqn:E2 end;
        simpl in E; try done.
      injection E as <- <-. split; [done|].
      destruct (IsInvoke call) eqn:EI.
      { split; [|by intros ? [= <-] [? _]; congruence].
        apply quiet_tracks.
        - eapply quiet_then_visitInvoke; [apply quiet_refl|done].
        - eapply steps_then_visitInvoke; [apply steps_refl|done]. }
      destruct (StaticCallee call) eqn:ES.
      { injection E2 as <-.
        split; [|by intros ? [= <-] (_ & ? & _); congruence].
        apply quiet_tracks.
        - apply quiet_then_checkSetFinalizer. unfold addEdge.
          apply quiet_then_addReachable, quiet_refl.
        - apply steps_then_checkSetFinalizer. unfold addEdge.
          apply steps_then_addReachable, steps_refl. }
      destruct (tracks_visitDynCall call x) as [Ht Hs].
      destruct (cc_value call) eqn:EV; injection E2 as <-;
        try (split; [done|by intros ? [= <-] _]).
      split; [apply tracks_refl|]. intros ? [= <-] (_ & _ & Hb).
      by destruct (Hb name).
    - destruct (handleMakeInterface fuel v t x) eqn:E2; simpl in E; try done.
      injection E as <- <-. split; [done|]. split; [|done].
      apply quiet_tracks.
      + eapply quiet_then_handleMakeInterface; [apply quiet_refl|done].
      + eapply steps_then_handleMakeInterface; [apply steps_refl|done].
    - destruct (handleTypeAssert v t x) eqn:E2; simpl in E; try done.
      injection E as <- <-. split; [done|]. split; [|done].
      apply quiet_tracks.
      + eapply quiet_then_handleTypeAssert; [apply quiet_refl|done].
      + eapply steps_then_handleTypeAssert; [apply steps_refl|done].
    - destruct (handleChangeInterface t x) eqn:E2; simpl in E; try done.
      injection E as <- <-. split; [done|]. split; [|done].
      apply quiet_tracks.
      + eapply quiet_then_handleChangeInterface; [apply quiet_refl|done].
      + eapply steps_then_handleChangeInterface; [apply steps_refl|done].
    - injection E as <- <-. split; [done|]. split; [apply tracks_refl|done]. }
  split; [by eapply tracks_trans|]. split; [|done].
  intros call Hi Hc. destruct Hops as (_ & _ & _ & Hd & _). by apply Hd, Hdyn.
Qed.

Lemma tracks_with_currentFunction f x : tracks x (with_currentFunction f x).
Proof.
  split; [apply Result_le_refl|]. split; [apply RuntimeTypes_le_refl|].
  by repeat split.
Qed.

Lemma tracks_with_worklist wl x : tracks x (with_worklist wl x).
Proof.
  split; [apply Result_le_refl|]. split; [apply RuntimeTypes_le_refl|].
  by repeat split.
Qed.

Lemma tracks_visitFunc fuel f x y :
  visitFunc fuel f x = Ok y →
  tracks x y
  ∧ ∀ block i, block ∈ fn_blocks (func f) → i ∈ block →
      ∃ xi yi, visitInstr fuel i xi = Ok yi ∧ tracks yi y.
Proof.
  unfold visitFunc.
  match goal with |- obind ?m _ = _ → _ => destruct m as [x1| |] eqn:E end;
    simpl; try done.
  intros [= <-].
  assert (∀ b xa ya, forM b (visitInstr fuel) xa = Ok ya → tracks xa ya) as Hblock.
  { intros b xa ya. apply tracks_forM. intros i xi yi Hi.
    by apply tracks_visitInstr in Hi as [? _]. }
  split.
  - eapply tracks_trans; [apply (tracks_with_currentFunction (Some f))|].
    eapply tracks_trans; [|apply (tracks_with_currentFunction None)].
    revert E. by apply tracks_forM.
  - intros block i Hb Hi.
    destruct (forM_elem (λ b r, forM b (visitInstr fuel) r) (fn_blocks (func f))
                _ _ block Hblock E Hb) as (xb & yb & _ & Eb & Hyb).
    destruct (forM_elem (visitInstr fuel) block xb yb i) as (xi & yi & _ & Ei & Hyi);
      [|done|done|].
    { intros ? ? ? H. by apply tracks_visitInstr in H as [? _]. }
    exists xi, yi. split; [done|].
    eapply tracks_trans; [exact Hyi|].
    eapply tracks_trans; [exact Hyb|apply tracks_with_currentFunction].
Qed.

Lemma tracks_drain rounds fuel : ∀ visited r visited' r',
  drain rounds fuel visited r = Ok (visited', r') →
  tracks r r'
  ∧ ∀ f, f ∈ visited' →
      f ∈ visited ∨ ∃ x y, visitFunc fuel f x = Ok y ∧ tracks y r'.
Proof.
  induction rounds as [|rounds IH]; intros visited r visited' r'.
  - simpl. destruct (worklist r); [|done]. intros [= <- <-].
    split; [apply tracks_refl|auto].
  - rewrite drain_S. destruct (worklist r) as [|f0 shadow0] eqn:Ew.
    { intros [= <- <-]. split; [apply tracks_refl|auto]. }
    set (shadow := f0 :: shadow0). cbv zeta.
    match goal with |- obind ?m _ = _ → _ => destruct m as [r1| |] eqn:E end;
      simpl; try done.
    intros Hd. destruct (IH _ _ _ _ Hd) as [Ht Hv].
    assert (∀ f xa ya, visitFunc fuel f xa = Ok ya → tracks xa ya) as Hbody.
    { intros f xa ya H. by apply tracks_visitFunc in H as [? _]. }
    split.
    + eapply tracks_trans; [apply (tracks_with_worklist [])|].
      eapply tracks_trans; [|exact Ht]. revert E. by apply tracks_forM.
    + intros f Hf. destruct (Hv f Hf) as [[Hin|Hin]%elem_of_app|Hex]; auto.
      right.
      destruct (forM_elem (visitFunc fuel) shadow _ _ f Hbody E Hin)
        as (xa & ya & _ & Ea & Hya).
      exists xa, ya. split; [done|]. by eapply tracks_trans.
Qed.

Lemma resolved_seed roots : dynResolved (seed roots) ∧ reflResolved (seed roots).
Proof.
  assert (quiet initial (seed roots)) as (Hd & Ha & _).
  { unfold seed. apply quiet_then_foldl; [|apply quiet_refl].
    intros. by apply quiet_then_addReachable. }
  unfold dynResolved, reflResolved. rewrite Hd, Ha. by split.
Qed.

(** Every instruction of every scanned function was visited in some
    state whose marks and records last until the end of the analysis. *)
Lemma analyze_instr fuel roots visited res :
  AnalyzeTrace fuel roots = Ok (Some (visited, res)) →
  ∃ final, result final = res ∧ dynResolved final ∧ reflResolved final
    ∧ reflectValueCall final = prog_reflectValueCall prog
    ∧ ∀ f block i, f ∈ visited → block ∈ fn_blocks (func f) → i ∈ block →
        ∃ xi yi, visitInstr fuel i xi = Ok yi ∧ tracks yi final.
Proof.
  unfold AnalyzeTrace. destruct roots as [|[g|] rest]; try done.
  destruct (drain fuel fuel [] (seed (Some g :: rest))) as [[v r]| |] eqn:E;
    simpl; try done.
  intros [= <- <-]. exists r.
  destruct (tracks_drain _ _ _ _ _ _ E) as [(_ & _ & Hr & _ & _ & Hdyn & Hrefl) Hv].
  destruct (resolved_seed (Some g :: rest)) as [H1 H2].
  split; [done|]. split; [auto|]. split; [auto|]. split.
  - rewrite Hr. unfold seed.
    assert (quiet initial (seed (Some g :: rest))) as (_ & _ & Hq & _).
    { unfold seed. apply quiet_then_foldl; [|apply quiet_refl].
      intros. by apply quiet_then_addReachable. }
    exact Hq.
  - intros f block i Hf Hb Hi.
    destruct (Hv f Hf) as [Hin|(x & y & Ef & Hy)]; [by apply elem_of_nil in Hin|].
    apply tracks_visitFunc in Ef as [_ Hinstr].
    destruct (Hinstr block i Hb Hi) as (xi & yi & Ei & Hyi).
    exists xi, yi. split; [done|]. by eapply tracks_trans.
Qed.

End Tracking.

(** ** What the result of the analysis is closed under *)

Section ClosureTheorems.

Context {prog : Program}.

Lemma tracks_is_Some x y g :
  tracks x y → is_Some (Reachable (result x) !! g) → is_Some (Reachable (result y) !! g).
Proof.
  intros [[Hle _] _] [v Hv]. destruct (Hle g v Hv) as (v' & Hv' & _). eauto.
Qed.

Lemma tracks_flag x y g :
  tracks x y → Reachable (result x) !! g = Some true →
  Reachable (result y) !! g = Some true.
Proof.
  intros [[Hle _] _] Hg. destruct (Hle g true Hg) as (b & Hb & Ht).
  by rewrite Hb, Ht.
Qed.

Lemma steps_operands rands x :
  steps x (foldl (λ r op, match op with
                          | VFunction g => visitAddrTakenFunc g r
                          | _ => r
                          end) x rands).
Proof.
  apply steps_then_foldl; [|apply steps_refl].
  intros ra op Hra. destruct op; try done. by apply steps_then_visitAddrTakenFunc.
Qed.

(** X3. Static calls: a function called statically (directly or as a
    closure) in a scanned function is reachable in the result. *)
Theorem static_callees_reachable fuel roots visited res f block call g :
  AnalyzeTrace fuel roots = Ok (Some (visited, res)) →
  f ∈ visited → block ∈ fn_blocks (func f) → ICall call ∈ block →
  IsInvoke call = false → StaticCallee call = Some g →
  is_Some (Reachable res !! g).
Proof.
  intros Ha Hf Hb Hi Hinv Hst.
  destruct (analyze_instr _ _ _ _ Ha) as (final & <- & _ & _ & _ & Hinstr).
  destruct (Hinstr f block _ Hf Hb Hi) as (xi & yi & Ei & Hyi).
  eapply tracks_is_Some; [exact Hyi|].
  revert Ei. unfold visitInstr. simpl. rewrite Hinv, Hst. simpl. intros [= <-].
  destruct (steps_Result_le _ _ (steps_operands (tail (cc_value call :: cc_args call))
              (checkSetFinalizer call (addEdge (Some g) false xi)))) as [Hle _].
  destruct (steps_Result_le _ _ (steps_then_checkSetFinalizer _ _ call
              (steps_refl (addEdge (Some g) false xi)))) as [Hle' _].
  assert (is_Some (Reachable (result (addEdge (Some g) false xi)) !! g)) as [v Hv].
  { unfold addEdge. rewrite addReachable_lookup, decide_True by done. eauto. }
  destruct (Hle' g v Hv) as (v' & Hv' & _).
  destruct (Hle g v' Hv') as (v'' & Hv'' & _). eauto.
Qed.

(** X4. Dynamic calls: a function whose value is taken in a scanned
    function, and whose signature is identical to the one of a dynamic
    call in a scanned function, is reachable and address-taken in the
    result, in whichever order the two were scanned. *)
Theorem dynamic_calls_resolved fuel roots visited res f1 block1 call f2 block2 i g :
  AnalyzeTrace fuel roots = Ok (Some (visited, res)) →
  f1 ∈ visited → block1 ∈ fn_blocks (func f1) → ICall call ∈ block1 →
  isDynCall call →
  f2 ∈ visited → block2 ∈ fn_blocks (func f2) → i ∈ block2 →
  VFunction g ∈ scannedOperands i →
  canon (callSignature call) = canon (fn_signature (func g)) →
  Reachable res !! g = Some true.
Proof.
  intros Ha Hf1 Hb1 Hi1 Hdyn Hf2 Hb2 Hi2 Hg Hsig.
  destruct (analyze_instr _ _ _ _ Ha) as (final & <- & Hres & _ & _ & Hinstr).
  destruct (Hinstr f1 block1 _ Hf1 Hb1 Hi1) as (x1 & y1 & E1 & Hy1).
  destruct (Hinstr f2 block2 _ Hf2 Hb2 Hi2) as (x2 & y2 & E2 & Hy2).
  apply tracks_visitInstr in E1 as (_ & Hsite & _).
  apply tracks_visitInstr in E2 as (_ & _ & Hfun).
  destruct Hy1 as (_ & _ & _ & Hd & _). destruct Hy2 as (_ & _ & _ & _ & Hf & _).
  destruct (Hd call (Hsite call eq_refl Hdyn)) as (sites & Hs1 & Hs2).
  destruct (Hf g (Hfun g Hg)) as (funcs & Hg1 & Hg2).
  apply (Hres (callSignature call) sites funcs); try done.
  - intros ->. by apply elem_of_nil in Hs2.
  - by rewrite (At_canon _ _ _ Hsig).
Qed.

(** X5. When the program holds [reflect.Value.Call], every function
    whose value is taken in a scanned function is reachable and
    address-taken in the result, whatever its signature. *)
Theorem reflect_reaches_function_values fuel roots visited res c f block i g :
  AnalyzeTrace fuel roots = Ok (Some (visited, res)) →
  prog_reflectValueCall prog = Some c →
  f ∈ visited → block ∈ fn_blocks (func f) → i ∈ block →
  VFunction g ∈ scannedOperands i →
  Reachable res !! g = Some true.
Proof.
  intros Ha Hc Hf Hb Hi Hg.
  destruct (analyze_instr _ _ _ _ Ha) as (final & <- & _ & Hres & Hr & Hinstr).
  destruct (Hinstr f block _ Hf Hb Hi) as (x & y & E & Hy).
  apply tracks_visitInstr in E as (_ & _ & Hfun).
  destruct Hy as (_ & _ & _ & _ & Hfn & _).
  destruct (Hfn g (Hfun g Hg)) as (funcs & Hg1 & Hg2).
  assert (is_Some (reflectValueCall final)) as Hsome by (rewrite Hr, Hc; eauto).
  by apply (Hres Hsome (fn_signature (func g)) funcs).
Qed.

Lemma foldl_marks_gen {A} (f : rta → A → rta) (P : Result → Prop) l a :
  (∀ r b, steps r (f r b)) →
  (∀ res res', Result_le res res' → P res → P res') →
  (∀ r, P (result (f r a))) →
  a ∈ l → ∀ x, P (result (foldl f x l)).
Proof.
  intros Hs Hmono Ha. induction l as [|b l IH]; intros Hin x;
    [by apply elem_of_nil in Hin|].
  simpl. apply elem_of_cons in Hin as [<-|Hin]; [|by apply IH].
  eapply Hmono; [|apply Ha].
  apply steps_Result_le, steps_then_foldl; [|apply steps_refl].
  intros ra b Hra. eapply steps_trans; [done|apply Hs].
Qed.

(** The two method sets [markInterfaceMethodsReachable] searches. *)
Lemma markInterfaceMethodsReachable_marks T i x m sel :
  m ∈ prog_iface_methods prog i →
  Lookup (MethodSet T) (fo_pkg m) (fo_name m) = Some sel
  ∨ Lookup (MethodSet (TPointer T)) (fo_pkg m) (fo_name m) = Some sel →
  marked sel (result (markInterfaceMethodsReachable T i x)).
Proof.
  intros Hm Hsel. unfold markInterfaceMethodsReachable.
  apply (foldl_marks_gen _ (marked sel) _ m); [| |
    |done].
  - intros r b. apply steps_then_foldl; [|apply steps_refl]. intros rb mset Hrb.
    destruct (Lookup mset _ _); [by apply steps_then_markSelection|done].
  - apply marked_mono.
  - intros r. simpl. destruct Hsel as [Hv|Hp].
    + rewrite Hv.
      match goal with |- marked sel (result (match ?o with _ => _ end)) =>
        destruct o as [sel'|] end.
      * eapply marked_mono; [|apply marked_markSelection].
        apply steps_Result_le, steps_then_markSelection, steps_refl.
      * apply marked_markSelection.
    + rewrite Hp. apply marked_markSelection.
Qed.

(** X6. A type assertion from an interface to a concrete type [T] in a
    scanned function marks every method of the interface that [T] or
    pointer-to-[T] has, unexported ones included. *)
Theorem type_assert_marks_methods fuel roots visited res f block v T i m sel :
  AnalyzeTrace fuel roots = Ok (Some (visited, res)) →
  f ∈ visited → block ∈ fn_blocks (func f) → ITypeAssert v T ∈ block →
  asInterface (value_type v) = Some i → isInterface T = false →
  m ∈ prog_iface_methods prog i →
  Lookup (MethodSet T) (fo_pkg m) (fo_name m) = Some sel
  ∨ Lookup (MethodSet (TPointer T)) (fo_pkg m) (fo_name m) = Some sel →
  marked sel res.
Proof.
  intros Ha Hf Hb Hi Hv HT Hm Hsel.
  destruct (analyze_instr _ _ _ _ Ha) as (final & <- & _ & _ & _ & Hinstr).
  destruct (Hinstr f block _ Hf Hb Hi) as (xi & yi & Ei & [Hle _]).
  apply (marked_mono sel (result yi)); [done|].
  revert Ei. unfold visitInstr. simpl. unfold handleTypeAssert.
  rewrite Hv, HT. unfold NumMethods.
  destruct (prog_iface_methods prog i) as [|m0 l] eqn:El;
    [by apply elem_of_nil in Hm|].
  simpl. intros [= <-].
  eapply marked_mono; [apply steps_Result_le, (steps_operands [v])|].
  apply (markInterfaceMethodsReachable_marks T i xi m); [by rewrite El|done].
Qed.

Lemma foldl_marks_lookup (mset : list Selection) l : ∀ x m sel,
  m ∈ l → Lookup mset (fo_pkg m) (fo_name m) = Some sel →
  marked sel (result (foldl (λ r method,
                               match Lookup mset (fo_pkg method) (fo_name method) with
                               | Some sel => markSelection sel r
                               | None => r
                               end) x l)).
Proof.
  intros x m sel Hm Hsel.
  apply (foldl_marks_gen _ (marked sel) _ m); [| | |done].
  - intros r b. destruct (Lookup mset (fo_pkg b) _);
      [apply steps_then_markSelection|]; apply steps_refl.
  - apply marked_mono.
  - intros r. rewrite Hsel. apply marked_markSelection.
Qed.

(** X7. A conversion of a concrete type to a non-empty interface in a
    scanned function marks every method of the interface found in the
    method set of the type, unexported ones included, whether or not the
    type was a runtime type before. *)
Theorem conversion_marks_interface_methods fuel roots visited res f block v t i m sel :
  AnalyzeTrace fuel roots = Ok (Some (visited, res)) →
  f ∈ visited → block ∈ fn_blocks (func f) → IMakeInterface v t ∈ block →
  asInterface t = Some i → isInterface (value_type v) = false →
  m ∈ prog_iface_methods prog i →
  Lookup (MethodSet (value_type v)) (fo_pkg m) (fo_name m) = Some sel →
  marked sel res.
Proof.
  intros Ha Hf Hb Hi Ht HT Hm Hsel.
  destruct (analyze_instr _ _ _ _ Ha) as (final & <- & _ & _ & _ & Hinstr).
  destruct (Hinstr f block _ Hf Hb Hi) as (xi & yi & Ei & [Hle _]).
  apply (marked_mono sel (result yi)); [done|].
  revert Ei. unfold visitInstr. simpl.
  destruct (handleMakeInterface fuel v t xi) as [x1| |] eqn:E; simpl; try done.
  intros [= <-].
  eapply marked_mono; [apply steps_Result_le, (steps_operands [v])|].
  revert E. unfold handleMakeInterface. rewrite Ht. unfold NumMethods.
  destruct (prog_iface_methods prog i) as [|m0 l] eqn:El;
    [by apply elem_of_nil in Hm|].
  simpl. unfold addRuntimeTypeForInterface.
  rewrite isInterface_Unalias, HT, MethodSet_Unalias, El.
  set (T := Unalias (value_type v)).
  match goal with |- context [foldl ?f ?x0 (m0 :: l)] =>
    set (xm := foldl f x0 (m0 :: l));
    assert (marked sel (result xm)) as Hxm
      by (apply (foldl_marks_lookup _ (m0 :: l) x0 m sel); done) end.
  destruct (inRuntimeTypes T xi); simpl.
  - by intros [= <-].
  - destruct (addInvokeEdges T xm) as [x2| |] eqn:E2; simpl; try done.
    intros E3. eapply marked_mono; [|exact Hxm].
    apply steps_Result_le.
    eapply steps_then_addRuntimeTypeStructure; [|exact E3].
    eapply steps_then_addInvokeEdges; [apply steps_refl|exact E2].
Qed.

End ClosureTheorems.

Lemma static_callees_reachable_witness : is_Some (Reachable genericResult !! 1).
Proof.
  apply (static_callees_reachable (prog:=genericProgram) 5 [Some 0] [0; 1] genericResult
           0 [staticCall 1 [VOther (TBasic "int")]]
           {| cc_value := VFunction 1; cc_method := None;
              cc_args := [VOther (TBasic "int")] |} 1);
    [vm_compute; reflexivity|set_solver|vm_compute; set_solver|set_solver
    |reflexivity|reflexivity].
Defined.

Lemma dynamic_calls_resolved_witness :
  ∃ res, AnalyzeTrace (prog:=dynamicProgram) 5 [Some 0] = Ok (Some ([0; 1], res))
         ∧ Reachable res !! 1 = Some true.
Proof.
  eexists. split; [vm_compute; reflexivity|].
  apply (dynamic_calls_resolved (prog:=dynamicProgram) 5 [Some 0] [0; 1] _
           0 [ICall dynamicCall] dynamicCall 0 [IOther [VFunction 1]] (IOther [VFunction 1]) 1);
    [vm_compute; reflexivity|set_solver|vm_compute; set_solver|set_solver
    |by repeat split|set_solver|vm_compute; set_solver|set_solver
    |simpl; set_solver|vm_compute; reflexivity].
Defined.

Lemma reflect_reaches_function_values_witness :
  ∃ res, AnalyzeTrace (prog:=reflectProgram) 5 [Some 0] = Ok (Some ([0; 1], res))
         ∧ Reachable res !! 1 = Some true.
Proof.
  eexists. split; [vm_compute; reflexivity|].
  apply (reflect_reaches_function_values (prog:=reflectProgram) 5 [Some 0] [0; 1] _ 7
           0 [IOther [VFunction 1]] (IOther [VFunction 1]) 1);
    [vm_compute; reflexivity|reflexivity|set_solver|vm_compute; set_solver
    |set_solver|simpl; set_solver].
Defined.

Lemma type_assert_marks_methods_witness :
  ∃ visited res,
    AnalyzeTrace (prog:=assertProgram) 5 [Some 0] = Ok (Some (visited, res))
    ∧ marked nfMarkerSel res.
Proof.
  eexists _, _. split; [vm_compute; reflexivity|].
  eapply (type_assert_marks_methods (prog:=assertProgram) 5 [Some 0] _ _
           0 [ITypeAssert (VOther (TNamed 1)) (TNamed 2)] (VOther (TNamed 1)) (TNamed 2)
           1 methMarker nfMarkerSel);
    [vm_compute; reflexivity|set_solver|vm_compute; set_solver|set_solver
    |reflexivity|reflexivity|vm_compute; set_solver|left; vm_compute; reflexivity].
Defined.

Lemma conversion_marks_interface_methods_witness :
  ∃ visited res,
    AnalyzeTrace (prog:=convertProgram) 20 [Some 0] = Ok (Some (visited, res))
    ∧ marked nfMarkerSel res.
Proof.
  eexists _, _. split; [vm_compute; reflexivity|].
  eapply (conversion_marks_interface_methods (prog:=convertProgram) 20 [Some 0] _ _
           0 [IMakeInterface (VOther (TNamed 2)) (TNamed 1)] (VOther (TNamed 2)) (TNamed 1)
           1 methMarker nfMarkerSel);
    [vm_compute; reflexivity|set_solver|vm_compute; set_solver|set_solver
    |reflexivity|reflexivity|vm_compute; set_solver|vm_compute; reflexivity].
Defined.

(** ** Runtime types: what a walk marks and what it leaves alone *)

Section RuntimeTypeProperties.

Context {prog : Program}.

Lemma unmarked_refl r : unmarked r r.
Proof. by repeat split. Qed.

Lemma unmarked_trans r1 r2 r3 : unmarked r1 r2 → unmarked r2 r3 → unmarked r1 r3.
Proof. intros (?&?&?) (?&?&?). repeat split; congruence. Qed.

Lemma core_eq_unmarked x y : core_eq x y → unmarked x y.
Proof. intros (Hres & Hwl & _). unfold unmarked. by rewrite Hres, Hwl. Qed.

Lemma unmarked_setRuntimeType T b x : unmarked x (setRuntimeType T b x).
Proof. by repeat split. Qed.

Section SkipRec.

Variable rec : type → bool → rta → outcome rta.
Hypothesis Hrec : ∀ T x y, rec T true x = Ok y → unmarked x y.

Lemma unmarked_rec_forM (l : list type) : ∀ x y,
  forM l (λ T, rec T true) x = Ok y → unmarked x y.
Proof.
  induction l as [|T l IH]; intros x y; simpl.
  - intros [= <-]. apply unmarked_refl.
  - destruct (rec T true x) as [x1| |] eqn:E; simpl; try done.
    intros Hy. eapply unmarked_trans; [by eapply Hrec|by apply IH].
Qed.

Lemma unmarked_structure T x y :
  addRuntimeTypeStructure_ rec T x = Ok y → unmarked x y.
Proof.
  destruct T; simpl; try (intros [= <-]; apply unmarked_refl);
    try (by apply Hrec); try (by apply unmarked_rec_forM).
  - destruct (rec T1 true x) as [x1| |] eqn:E; simpl; try done.
    intros Hy. eapply unmarked_trans; by eapply Hrec.
  - destruct (rec (TPointer (TNamed id)) true x) as [x1| |] eqn:E; simpl; try done.
    intros Hy. eapply unmarked_trans; by eapply Hrec.
Qed.

Lemma unmarked_children T x y :
  addRuntimeTypeChildren rec T true x = Ok y → unmarked x y.
Proof.
  destruct T; simpl; try (intros [= <-]; apply unmarked_refl);
    try (by apply Hrec); try (by apply unmarked_rec_forM).
  - destruct (rec T1 true x) as [x1| |] eqn:E; simpl; try done.
    intros Hy. eapply unmarked_trans; by eapply Hrec.
  - destruct (rec (TTuple params) true x) as [x1| |] eqn:E; simpl; try done.
    intros Hy. eapply unmarked_trans; by eapply Hrec.
  - destruct (rec (TPointer (TNamed id)) true x) as [x1| |] eqn:E; simpl; try done.
    destruct (rec (prog_underlying prog id) true x1) as [x2| |] eqn:E2; simpl; try done.
    intros Hy. eapply unmarked_trans; [by eapply Hrec|].
    eapply unmarked_trans; [by eapply Hrec|].
    revert Hy. generalize (prog_named_methods prog id). intros l. clear E2. revert x2.
    induction l as [|m l IH]; intros x2; simpl.
    + intros [= <-]. apply unmarked_refl.
    + destruct (rec (fo_type m) true x2) as [x3| |] eqn:E3; simpl; try done.
      intros Hy. eapply unmarked_trans; [by eapply Hrec|by apply IH].
Qed.

Lemma unmarked_addRuntimeTypeNew T x y :
  addRuntimeTypeNew rec T true x = Ok y → unmarked x y.
Proof.
  unfold addRuntimeTypeNew.
  destruct (addTypeToIndex T x) as [x1| |] eqn:E1; simpl; try done.
  destruct (addRuntimeTypeStructure_ rec T x1) as [x2| |] eqn:E2; simpl; try done.
  intros Hy.
  eapply unmarked_trans; [apply core_eq_unmarked, (core_eq_addTypeToIndex T _ _ E1)|].
  eapply unmarked_trans; [apply (unmarked_structure T _ _ E2)|].
  by apply (unmarked_children T).
Qed.

End SkipRec.

Lemma unmarked_addRuntimeType fuel : ∀ T x y,
  addRuntimeType fuel T true x = Ok y → unmarked x y.
Proof.
  induction fuel as [|fuel IH]; intros T x y; simpl; [done|].
  destruct (At (RuntimeTypes (result x)) T) as [prev|].
  - intros [= <-]. destruct prev; simpl;
      [apply unmarked_refl|apply unmarked_setRuntimeType].
  - intros Hy. eapply unmarked_trans; [apply (unmarked_setRuntimeType T true)|].
    by eapply unmarked_addRuntimeTypeNew.
Qed.

(** X8. A type that is added with the skip flag set, and everything
    [addRuntimeTypeStructure] adds, never makes a function or an object
    reachable and enqueues nothing: only the set of runtime types grows. *)
Theorem skipped_types_mark_nothing fuel T r r' :
  addRuntimeType fuel T true r = Ok r' ∨ addRuntimeTypeStructure fuel T r = Ok r' →
  unmarked r r'.
Proof.
  intros [H|H]; [by eapply unmarked_addRuntimeType|].
  eapply unmarked_structure; [|exact H].
  intros. by eapply unmarked_addRuntimeType.
Qed.

(** X9. Adding a runtime type is idempotent: after [addRuntimeType] has
    returned, the same call again returns the state unchanged. *)
Theorem addRuntimeType_idempotent fuel fuel' T skip r r' :
  addRuntimeType fuel T skip r = Ok r' →
  addRuntimeType (S fuel') T skip r' = Ok r'.
Proof.
  intros (_ & [prev Hprev] & Htrue)%addRuntimeType_post. simpl. rewrite Hprev.
  destruct skip; [|done]. rewrite Htrue in Hprev by done. by injection Hprev as <-.
Qed.

Lemma isInKnownSafeContext_current x y :
  currentFunction y = currentFunction x →
  isInKnownSafeContext y = isInKnownSafeContext x.
Proof. unfold isInKnownSafeContext. by intros ->. Qed.

Lemma markExportedMethods_marks mset : ∀ x sel,
  isInKnownSafeContext x = false → sel ∈ mset → Exported (sel_obj sel) = true →
  marked sel (result (markExportedMethods mset x)).
Proof.
  unfold markExportedMethods.
  induction mset as [|s mset IH]; intros x sel Hx Hin Hex;
    [by apply elem_of_nil in Hin|].
  simpl. rewrite Hx, andb_false_r. simpl.
  apply elem_of_cons in Hin as [->|Hin].
  - rewrite Hex.
    eapply marked_mono; [|apply marked_markSelection].
    apply steps_Result_le, (steps_then_markExportedMethods _ _ mset), steps_refl.
  - apply IH; [|done|done].
    destruct (Exported (sel_obj s)); [|done].
    rewrite <- Hx. apply isInKnownSafeContext_current.
    by destruct (quiet_then_markSelection x x s (quiet_refl x)) as (_ & _ & _ & ?).
Qed.

(** X10. Reflection safety: when a type newly becomes a runtime type
    through [addRuntimeType] with the skip flag cleared, and the current
    function calls no allow-listed function, every exported method of the
    type is marked. *)
Theorem new_runtime_type_marks_exported fuel T r r' :
  At (RuntimeTypes (result r)) T = None →
  isInKnownSafeContext r = false →
  addRuntimeType fuel T false r = Ok r' →
  ∀ sel, sel ∈ MethodSet T → Exported (sel_obj sel) = true → marked sel (result r').
Proof.
  intros HAt Hctx H sel Hsel Hex. destruct fuel as [|fuel]; [done|].
  simpl in H. rewrite HAt in H. revert H. unfold addRuntimeTypeNew.
  set (x0 := setRuntimeType T false r).
  destruct (addTypeToIndex T x0) as [x1| |] eqn:E1; simpl; try done.
  destruct (addRuntimeTypeStructure_ (addRuntimeType fuel) T x1) as [x2| |] eqn:E2;
    simpl; try done.
  match goal with |- obind ?m _ = _ → _ => destruct m as [x3| |] eqn:E3 end;
    simpl; try done.
  assert (quiet r x3) as (_ & _ & _ & Hcf).
  { assert (quiet r x1) as H1.
    { eapply quiet_then; [by eapply quiet_addTypeToIndex|].
      apply quiet_then_setRuntimeType, quiet_refl. }
    assert (quiet r x2) as H2.
    { eapply quiet_then_structure; [|exact H1|exact E2].
      intros. by eapply quiet_then_addRuntimeType. }
    destruct (isInterface T); simpl in E3.
    - by injection E3 as <-.
    - by eapply quiet_then_addInvokeEdges. }
  rewrite (isInKnownSafeContext_current r x3 Hcf), Hctx, andb_false_r. simpl.
  intros Hy.
  apply (marked_mono sel (result (markExportedMethods (MethodSet T) x3))).
  - apply steps_Result_le.
    eapply steps_then_children; [|apply steps_refl|exact Hy].
    intros. by eapply steps_then_addRuntimeType.
  - apply markExportedMethods_marks; [|done|done].
    by rewrite (isInKnownSafeContext_current r x3 Hcf).
Qed.

End RuntimeTypeProperties.

Lemma skipped_types_mark_nothing_witness :
  ∃ r', addRuntimeType (prog:=markerProgram) 10 (TNamed 2) true (initial (prog:=markerProgram))
        = Ok r'
        ∧ unmarked (initial (prog:=markerProgram)) r'.
Proof.
  eexists. split; [vm_compute; reflexivity|].
  eapply (skipped_types_mark_nothing (prog:=markerProgram) 10 (TNamed 2)).
  left. vm_compute. reflexivity.
Defined.

Lemma addRuntimeType_idempotent_witness :
  ∃ r', addRuntimeType (prog:=markerProgram) 10 (TNamed 2) false (initial (prog:=markerProgram))
        = Ok r'
        ∧ addRuntimeType (prog:=markerProgram) 1 (TNamed 2) false r' = Ok r'.
Proof.
  eexists. split; [vm_compute; reflexivity|].
  eapply (addRuntimeType_idempotent (prog:=markerProgram) 10 0 (TNamed 2) false
            (initial (prog:=markerProgram))).
  vm_compute. reflexivity.
Defined.

Lemma new_runtime_type_marks_exported_witness :
  ∃ r', addRuntimeType (prog:=markerProgram) 10 (TNamed 2) false (initial (prog:=markerProgram))
        = Ok r'
        ∧ marked nfErrorSel (result r').
Proof.
  eexists. split; [vm_compute; reflexivity|].
  eapply (new_runtime_type_marks_exported (prog:=markerProgram) 10 (TNamed 2)
            (initial (prog:=markerProgram)));
    [reflexivity|reflexivity|vm_compute; reflexivity|vm_compute; set_solver|reflexivity].
Defined.

(** ** Fingerprints, caches and single edges *)

Section LocalProperties.

Context {prog : Program}.

Lemma method_bit_range m : (0 ≤ method_bit m < 2 ^ 64)%Z.
Proof.
  unfold method_bit. rewrite Z.shiftl_1_l.
  pose proof (Z.mod_pos_bound (ChecksumIEEE (method_key m)) 64 ltac:(lia)) as Hk.
  split; [apply Z.pow_nonneg; lia|]. apply Z.pow_lt_mono_r; lia.
Qed.

Lemma lor_range a b :
  (0 ≤ a < 2 ^ 64)%Z → (0 ≤ b < 2 ^ 64)%Z → (0 ≤ Z.lor a b < 2 ^ 64)%Z.
Proof.
  intros [Ha Ha'] [Hb Hb'].
  assert (0 ≤ Z.lor a b)%Z as H0 by (apply Z.lor_nonneg; lia).
  split; [done|].
  destruct (decide (Z.lor a b = 0%Z)) as [->|Hne]; [lia|].
  apply Z.log2_lt_pow2; [lia|]. rewrite Z.log2_lor by lia.
  destruct (decide (a = 0%Z)) as [->|Ha0], (decide (b = 0%Z)) as [->|Hb0];
    simpl; try lia.
  - rewrite Z.max_r by apply Z.log2_nonneg. apply Z.log2_lt_pow2; lia.
  - rewrite Z.max_l by apply Z.log2_nonneg. apply Z.log2_lt_pow2; lia.
  - apply Z.max_lub_lt; apply Z.log2_lt_pow2; lia.
Qed.

Lemma fold_lor_range (l : list Selection) : ∀ a,
  (0 ≤ a < 2 ^ 64)%Z →
  (0 ≤ fold_left (λ mask sel, Z.lor mask (method_bit (sel_obj sel))) l a < 2 ^ 64)%Z.
Proof.
  induction l as [|sel l IH]; intros a Ha; simpl; [done|].
  apply IH, lor_range; [done|apply method_bit_range].
Qed.

(** X11. The fingerprint of a method set fits in 64 bits and depends
    only on which methods the set holds, not on their order or
    multiplicity. *)
Theorem Fingerprint_set mset mset' :
  (∀ sel, sel ∈ mset ↔ sel ∈ mset') →
  Fingerprint mset = Fingerprint mset' ∧ (0 ≤ Fingerprint mset < 2 ^ 64)%Z.
Proof.
  intros Hsame. split; [|unfold Fingerprint; apply fold_lor_range; lia].
  apply Z.bits_inj'. intros n _. rewrite !Fingerprint_testbit.
  apply Bool.eq_iff_eq_true. rewrite !existsb_exists.
  split; intros (sel & Hin & Hbit); exists sel; (split; [|done]);
    apply list_elem_of_In, Hsame, list_elem_of_In, Hin.
Qed.

(** X12. [hasModulePath]: a package path has a module path exactly when
    a dot comes before the first slash, that is, when the path reads
    [pre.post] with neither a slash nor a dot in [pre]. *)
Theorem hasModulePath_spec path :
  hasModulePath path = true
  ↔ ∃ pre post, path = pre +:+ String "."%char post
      ∧ ∀ c, c ∈ list_ascii_of_string pre → c ≠ "/"%char ∧ c ≠ "."%char.
Proof.
  induction path as [|ch rest IH]; simpl.
  - split; [done|]. intros (pre & post & H & _). by destruct pre.
  - destruct (Ascii.eqb ch "/") eqn:Eslash.
    { apply Ascii.eqb_eq in Eslash as ->. split; [done|].
      intros (pre & post & H & Hpre). destruct pre as [|c pre]; [done|].
      injection H as <- _. destruct (Hpre "/"%char); [simpl; set_solver|done]. }
    apply Ascii.eqb_neq in Eslash.
    destruct (Ascii.eqb ch ".") eqn:Edot.
    { apply Ascii.eqb_eq in Edot as ->. split; [|done]. intros _.
      exists "", rest. split; [done|]. intros c Hc. by apply elem_of_nil in Hc. }
    apply Ascii.eqb_neq in Edot. rewrite IH. split.
    + intros (pre & post & -> & Hpre). exists (String ch pre), post.
      split; [done|]. intros c [->|Hc]%elem_of_cons; [done|by apply Hpre].
    + intros (pre & post & H & Hpre). destruct pre as [|c pre].
      * simpl in H. by injection H as ->.
      * injection H as <- ->. exists pre, post. split; [done|].
        intros c' Hc'. apply Hpre. simpl. set_solver.
Qed.

(** X13. The cache of concrete types: a second lookup of the same type,
    under its alias or under its unaliased name, returns the record the
    first one made and leaves the state as it is. *)
Theorem getConcreteTypeInfo_cached C r :
  getConcreteTypeInfo C (snd (getConcreteTypeInfo C r)) = getConcreteTypeInfo C r
  ∧ getConcreteTypeInfo (Unalias C) (snd (getConcreteTypeInfo C r))
    = getConcreteTypeInfo C r.
Proof.
  destruct (getConcreteTypeInfo C r) as [cinfo r1] eqn:E. simpl.
  assert (At (concreteTypes r1) (Unalias C) = Some cinfo) as HAt.
  { revert E. unfold getConcreteTypeInfo.
    destruct (At (concreteTypes r) (Unalias C)) as [cinfo0|] eqn:E0.
    - by intros [= <- <-].
    - intros [= <- <-]. case_decide; simpl.
      + by apply At_Set_eq.
      + apply At_Set_eq. symmetry. apply canon_Unalias. }
  unfold getConcreteTypeInfo. by rewrite Unalias_idemp, HAt.
Qed.

(** X14. [addInvokeEdge] marks the method the invoke resolves to: when
    the method is found in the method set of [C], or else in the method
    set of pointer-to-[C], its function is marked reachable and
    address-taken; a method without SSA function marks nothing. *)
Theorem addInvokeEdge_marks site C m sel r :
  cc_method site = Some m →
  Lookup (MethodSet (Unalias C)) (fo_pkg m) (fo_name m) = Some sel
  ∨ (Lookup (MethodSet (Unalias C)) (fo_pkg m) (fo_name m) = None
     ∧ (∀ e, Unalias C ≠ TPointer e)
     ∧ Lookup (MethodSet (TPointer (Unalias C))) (fo_pkg m) (fo_name m) = Some sel) →
  addInvokeEdge site C r = Ok (addReachable (sel_fn sel) true r)
  ∧ (∀ g, sel_fn sel = Some g →
          Reachable (result (addReachable (sel_fn sel) true r)) !! g = Some true)
  ∧ (sel_fn sel = None → addInvokeEdge site C r = Ok r).
Proof.
  intros Hm Hsel.
  assert (addInvokeEdge site C r = Ok (addReachable (sel_fn sel) true r)) as E.
  { unfold addInvokeEdge. rewrite Hm. destruct Hsel as [Hv|(Hv & Hnp & Hp)].
    - rewrite Hv. unfold LookupMethod. by rewrite Hv.
    - rewrite Hv. destruct (Unalias C) eqn:EC; try (exfalso; by eapply Hnp);
        rewrite Hp; unfold LookupMethod; by rewrite Hp. }
  split; [done|]. split.
  - intros g ->. rewrite addReachable_lookup. by rewrite decide_True.
  - intros Hn. by rewrite E, Hn.
Qed.

(** X15. Taking the value of a function does not by itself make it
    reachable: without [reflect.Value.Call] in the program and without a
    dynamic call site of its signature recorded so far, the function is
    only recorded. *)
Theorem function_value_alone g r :
  reflectValueCall r = None →
  default [] (At (dynCallSites r) (fn_signature (func g))) = [] →
  unmarked r (visitAddrTakenFunc g r) ∧ addrTakenFunc (visitAddrTakenFunc g r) g.
Proof.
  intros Hrefl Hsites. split; [|apply tracks_visitAddrTakenFunc].
  unfold visitAddrTakenFunc.
  set (x1 := match At (addrTakenFuncsBySig r) _ with None => _ | Some _ => r end).
  assert (unmarked r x1 ∧ dynCallSites x1 = dynCallSites r
          ∧ reflectValueCall x1 = reflectValueCall r) as (H1 & Hd & Hr).
  { subst x1. destruct (At (addrTakenFuncsBySig r) _); by repeat split. }
  case_decide; [done|]. simpl. rewrite Hd, Hsites. simpl. rewrite Hr, Hrefl.
  destruct H1 as (?&?&?). by repeat split.
Qed.

End LocalProperties.


Lemma Fingerprint_set_witness :
  Fingerprint nfMethodSet = Fingerprint (nfMarkerSel :: nfMethodSet)
  ∧ (0 ≤ Fingerprint nfMethodSet < 2 ^ 64)%Z.
Proof.
  apply (Fingerprint_set nfMethodSet (nfMarkerSel :: nfMethodSet)).
  intros sel. unfold nfMethodSet, nfMarkerSel. set_solver.
Defined.

Lemma addInvokeEdge_marks_witness :
  addInvokeEdge (prog:=markerProgram) markerSite (TNamed 2) (initial (prog:=markerProgram))
  = Ok (addReachable (prog:=markerProgram) (Some 3) true (initial (prog:=markerProgram)))
  ∧ Reachable (result (addReachable (prog:=markerProgram) (Some 3) true
                         (initial (prog:=markerProgram)))) !! 3 = Some true.
Proof.
  assert (Lookup (MethodSet (prog:=markerProgram) (Unalias (TNamed 2)))
                 (fo_pkg methMarker) (fo_name methMarker) = Some nfMarkerSel) as HL
    by (vm_compute; reflexivity).
  destruct (addInvokeEdge_marks (prog:=markerProgram) markerSite (TNamed 2) methMarker
              nfMarkerSel (initial (prog:=markerProgram)) eq_refl (or_introl HL))
    as (H1 & H2 & _).
  split; [exact H1|]. by apply H2.
Defined.

Lemma function_value_alone_witness :
  unmarked (initial (prog:=dynamicProgram))
           (visitAddrTakenFunc (prog:=dynamicProgram) 1 (initial (prog:=dynamicProgram)))
  ∧ addrTakenFunc (prog:=dynamicProgram)
      (visitAddrTakenFunc (prog:=dynamicProgram) 1 (initial (prog:=dynamicProgram))) 1.
Proof.
  apply (function_value_alone (prog:=dynamicProgram) 1 (initial (prog:=dynamicProgram)));
    reflexivity.
Defined.

(** ** Finalizers, converted types and implementers, in the result *)

Section MoreClosure.

Context {prog : Program}.

Lemma checkSetFinalizer_flag call g arg h r :
  cc_method call = None → cc_value call = VFunction g → isSetFinalizer g →
  cc_args call !! 1 = Some arg → finalizerFunction arg = Some h →
  Reachable (result (checkSetFinalizer call r)) !! h = Some true.
Proof.
  intros Hm Hv (obj & Ho & Hp & Hn) Harg Hh.
  unfold checkSetFinalizer, IsInvoke. rewrite Hm, Hv, Ho, Hp, Hn. simpl.
  assert (2 ≤ length (cc_args call))%nat as Hlen.
  { apply lookup_lt_Some in Harg. lia. }
  rewrite bool_decide_eq_false_2 by lia. rewrite Harg.
  assert (match match arg with VMakeInterface x _ => x | _ => arg end with
          | VFunction f => addReachable (Some f) true r
          | VMakeClosure closureFn => addReachable (Some closureFn) true r
          | _ => r
          end = addReachable (Some h) true r) as ->.
  { unfold finalizerFunction, unwrapMakeInterface in Hh.
    destruct arg as [| |x t| |]; simpl in *; try congruence;
      destruct x; congruence. }
  rewrite addReachable_lookup. by rewrite decide_True.
Qed.

(** X16. Finalizers: the function or closure passed as second argument
    to [runtime.SetFinalizer] in a scanned function, a make-interface
    wrapper removed, is reachable and address-taken in the result. *)
Theorem finalizers_reachable fuel roots visited res f block call g arg h :
  AnalyzeTrace fuel roots = Ok (Some (visited, res)) →
  f ∈ visited → block ∈ fn_blocks (func f) → ICall call ∈ block →
  cc_method call = None → cc_value call = VFunction g → isSetFinalizer g →
  cc_args call !! 1 = Some arg → finalizerFunction arg = Some h →
  Reachable res !! h = Some true.
Proof.
  intros Ha Hf Hb Hi Hm Hv Hg Harg Hh.
  destruct (analyze_instr _ _ _ _ Ha) as (final & <- & _ & _ & _ & Hinstr).
  destruct (Hinstr f block _ Hf Hb Hi) as (xi & yi & Ei & Hyi).
  eapply tracks_flag; [exact Hyi|].
  revert Ei. unfold visitInstr. simpl. unfold IsInvoke, StaticCallee.
  rewrite Hm, Hv. simpl. intros [= <-].
  eapply steps_flag; [apply steps_operands|].
  by eapply checkSetFinalizer_flag.
Qed.

Lemma At_Unalias {V} (m : tmap V) T : At m (Unalias T) = At m T.
Proof. apply At_canon, canon_Unalias. Qed.

Lemma addRuntimeTypeSelective_some T skip x y :
  addRuntimeTypeSelective T skip x = Ok y → is_Some (At (RuntimeTypes (result y)) T).
Proof.
  intros H. rewrite <- At_Unalias. revert H. unfold addRuntimeTypeSelective.
  destruct (inRuntimeTypes (Unalias T) x) eqn:Ein.
  - intros [= <-]. by apply bool_decide_eq_true in Ein.
  - intros H. apply (keep_some (setRuntimeType (Unalias T) skip x)).
    + revert H. destruct (isInterface _); [intros [= <-]; apply steps_refl|].
      match goal with |- obind ?m _ = _ → _ => destruct m as [x1| |] eqn:E1 end;
        simpl; try done.
      apply steps_then_addInvokeEdges.
      revert E1. apply steps_then_forM; [|apply steps_refl].
      intros sel ra rb Hra. destruct (Exported _); [|by intros [= <-]].
      destruct (shouldMarkMethodForReflection _ _) as [[]| |]; simpl; try done;
        intros [= <-]; [by apply steps_then_markSelection|done].
    + unfold setRuntimeType. simpl. rewrite At_Set_eq by done. eauto.
Qed.

Lemma addRuntimeTypeForInterface_some fuel T iface skip x y :
  addRuntimeTypeForInterface fuel T iface skip x = Ok y →
  is_Some (At (RuntimeTypes (result y)) T).
Proof.
  intros H. rewrite <- At_Unalias.
  assert (is_Some (At (RuntimeTypes
            (result (if inRuntimeTypes (Unalias T) x then x
                     else setRuntimeType (Unalias T) skip x))) (Unalias T))) as H0.
  { destruct (inRuntimeTypes (Unalias T) x) eqn:Ein.
    - by apply bool_decide_eq_true in Ein.
    - unfold setRuntimeType. simpl. rewrite At_Set_eq by done. eauto. }
  eapply keep_some; [|exact H0].
  revert H. unfold addRuntimeTypeForInterface.
  set (x0 := if inRuntimeTypes (Unalias T) x then x else setRuntimeType (Unalias T) skip x).
  match goal with |- obind ?m _ = _ → _ => destruct m as [x1| |] eqn:E1 end;
    simpl; try done.
  assert (steps x0 x1) as H1.
  { revert E1. destruct (isInterface _); [intros [= <-]; apply steps_refl|].
    destruct iface as [i|]; [|done].
    assert (steps x0 (foldl (λ r method,
              match Lookup (MethodSet (Unalias T)) (fo_pkg method) (fo_name method) with
              | Some sel => markSelection sel r
              | None => r
              end) x0 (prog_iface_methods prog i))) as Hm.
    { apply steps_then_foldl; [|apply steps_refl]. intros ra m Hra.
      destruct (Lookup _ _ _); [by apply steps_then_markSelection|done]. }
    destruct (inRuntimeTypes (Unalias T) x).
    - by intros [= <-].
    - by apply steps_then_addInvokeEdges. }
  destruct (inRuntimeTypes (Unalias T) x).
  - by intros [= <-].
  - by apply steps_then_addRuntimeTypeStructure.
Qed.

(** X17. A type converted to an interface in a scanned function is a
    runtime type of the result, except when a pointer to an interface is
    converted to the empty interface: that conversion marks the
    implementers of the interface instead. *)
Theorem converted_types_are_runtime_types fuel roots visited res f block v t :
  AnalyzeTrace fuel roots = Ok (Some (visited, res)) →
  f ∈ visited → block ∈ fn_blocks (func f) → IMakeInterface v t ∈ block →
  (∀ i, asInterface t = Some i → NumMethods i = 0 →
        pointerToInterface (value_type v) = false) →
  is_Some (At (RuntimeTypes res) (value_type v)).
Proof.
  intros Ha Hf Hb Hi Hptr.
  destruct (analyze_instr _ _ _ _ Ha) as (final & <- & _ & _ & _ & Hinstr).
  destruct (Hinstr f block _ Hf Hb Hi) as (xi & yi & Ei & (_ & Hle & _)).
  assert (is_Some (At (RuntimeTypes (result yi)) (value_type v))) as [b Hb'].
  { revert Ei. unfold visitInstr. simpl.
    destruct (handleMakeInterface fuel v t xi) as [x1| |] eqn:E; simpl; try done.
    intros [= <-]. eapply keep_some; [apply (steps_operands [v])|].
    revert E. unfold handleMakeInterface.
    destruct (asInterface t) as [i|] eqn:Et;
      [|apply addRuntimeTypeForInterface_some].
    destruct (Nat.eqb (NumMethods i) 0) eqn:En;
      [|apply addRuntimeTypeForInterface_some].
    apply Nat.eqb_eq in En. specialize (Hptr i eq_refl En).
    assert (match value_type v with
            | TPointer elemType =>
                match elemType with
                | TNamed n => match prog_underlying prog n with
                              | TInterface i => Some i
                              | _ => None
                              end
                | _ => asInterface elemType
                end
            | _ => None
            end = None) as ->.
    { destruct (value_type v) as [| e | | | | | | | | | | | |]; try done.
      unfold pointerToInterface, isInterface in Hptr.
      destruct (asInterface e) as [j|] eqn:Ee; [done|].
      by destruct e. }
    destruct (isInKnownSafeContext xi).
    - apply addRuntimeTypeSelective_some.
    - intros H. by apply addRuntimeType_post in H as (_ & ? & _). }
  destruct (Hle _ _ Hb') as (b' & Hb'' & _). eauto.
Qed.

Lemma tracks_marks x (mset : list Selection) (l : list Func) :
  tracks x (foldl (λ r method,
                     match Lookup mset (fo_pkg method) (fo_name method) with
                     | Some sel => markSelection sel r
                     | None => r
                     end) x l).
Proof.
  apply quiet_tracks; [apply quiet_then_marks, quiet_refl|].
  apply steps_then_foldl; [|apply steps_refl]. intros ra m Hra.
  destruct (Lookup _ _ _); [by apply steps_then_markSelection|done].
Qed.

(** X18. Converting a pointer to an interface to the empty interface:
    on every package-level type that implements the interface (itself
    or through its pointer) and already is a runtime type, every method
    of the interface found in the method set of the type is marked,
    unexported ones included. *)
Theorem implementers_already_runtime fuel i r r' pkg T m sel :
  markImplementorsMethodsReachable fuel i r = Ok r' →
  pkg ∈ prog_packages prog → is_Some (pkg_path pkg) →
  T ∈ memberTypes (pkg_members pkg) → isInterface T = false →
  types_Implements T i || types_Implements (TPointer T) i = true →
  inRuntimeTypes T r = true →
  m ∈ prog_iface_methods prog i →
  Lookup (MethodSet T) (fo_pkg m) (fo_name m) = Some sel →
  marked sel (result r').
Proof.
  intros H Hpkg [path Hpath] HT Hif Himpl Hin Hm Hsel.
  set (typeBody := λ T r,
         if isInterface T then Ok r
         else if types_Implements T i || types_Implements (TPointer T) i
         then
           if inRuntimeTypes T r then
             Ok (foldl (λ r ifaceMethod,
                          match Lookup (MethodSet T) (fo_pkg ifaceMethod)
                                       (fo_name ifaceMethod) with
                          | Some sel => markSelection sel r
                          | None => r
                          end) r (prog_iface_methods prog i))
           else addRuntimeType fuel T false r
         else Ok r).
  assert (∀ T x y, typeBody T x = Ok y → tracks x y) as HtypeBody.
  { intros T0 x y. unfold typeBody.
    destruct (isInterface T0); [intros [= <-]; apply tracks_refl|].
    destruct (types_Implements T0 i || types_Implements (TPointer T0) i);
      [|intros [= <-]; apply tracks_refl].
    destruct (inRuntimeTypes T0 x).
    - intros [= <-]. apply tracks_marks.
    - intros E. apply quiet_tracks.
      + eapply quiet_then_addRuntimeType; [apply quiet_refl|exact E].
      + eapply steps_then_addRuntimeType; [apply steps_refl|exact E]. }
  set (pkgBody := λ (pkg : Package) r,
         match pkg_path pkg with
         | None => Ok r
         | Some _ => forM (memberTypes (pkg_members pkg)) typeBody r
         end).
  assert (∀ p x y, pkgBody p x = Ok y → tracks x y) as HpkgBody.
  { intros p x y. unfold pkgBody. destruct (pkg_path p);
      [|intros [= <-]; apply tracks_refl].
    by apply tracks_forM. }
  change (forM (prog_packages prog) pkgBody r = Ok r') in H.
  destruct (forM_elem pkgBody _ _ _ pkg HpkgBody H Hpkg) as (xp & yp & Hxp & Ep & Hyp).
  unfold pkgBody in Ep. rewrite Hpath in Ep.
  destruct (forM_elem typeBody _ _ _ T HtypeBody Ep HT) as (xt & yt & Hxt & Et & Hyt).
  assert (tracks r xt) as (_ & Hrt & _) by (by eapply tracks_trans).
  assert (inRuntimeTypes T xt = true) as Hin'.
  { apply bool_decide_eq_true. apply bool_decide_eq_true in Hin as [b Hb].
    destruct (Hrt _ _ Hb) as (b' & Hb' & _). eauto. }
  unfold typeBody in Et. rewrite Hif, Himpl, Hin' in Et. injection Et as <-.
  assert (tracks (foldl (λ r ifaceMethod,
                          match Lookup (MethodSet T) (fo_pkg ifaceMethod)
                                       (fo_name ifaceMethod) with
                          | Some sel => markSelection sel r
                          | None => r
                          end) xt (prog_iface_methods prog i)) r')
    as [Hle _] by (by eapply tracks_trans).
  eapply marked_mono; [exact Hle|]. by apply (foldl_marks_lookup _ _ xt m).
Qed.

End MoreClosure.

Lemma finalizers_reachable_witness :
  ∃ visited res,
    AnalyzeTrace (prog:=finalizerProgram) 5 [Some 0] = Ok (Some (visited, res))
    ∧ Reachable res !! 2 = Some true.
Proof.
  eexists _, _. split; [vm_compute; reflexivity|].
  eapply (finalizers_reachable (prog:=finalizerProgram) 5 [Some 0] _ _
            0 [ICall setFinalizerCall] setFinalizerCall 1
            (VMakeInterface (VMakeClosure 2) (TInterface 0)) 2);
    [vm_compute; reflexivity|set_solver|vm_compute; set_solver|set_solver
    |reflexivity|reflexivity| |reflexivity|reflexivity].
  eexists. split; [vm_compute; reflexivity|]. by split.
Defined.

Lemma converted_types_are_runtime_types_witness :
  ∃ visited res,
    AnalyzeTrace (prog:=convertProgram) 20 [Some 0] = Ok (Some (visited, res))
    ∧ is_Some (At (RuntimeTypes res) (TNamed 2)).
Proof.
  eexists _, _. split; [vm_compute; reflexivity|].
  eapply (converted_types_are_runtime_types (prog:=convertProgram) 20 [Some 0] _ _
            0 [IMakeInterface (VOther (TNamed 2)) (TNamed 1)] (VOther (TNamed 2)) (TNamed 1));
    [vm_compute; reflexivity|set_solver|vm_compute; set_solver|set_solver|done].
Defined.

Lemma implementers_already_runtime_witness :
  ∃ r', markImplementorsMethodsReachable (prog:=markerProgram) 10 1 markerSkipped = Ok r'
        ∧ marked nfMarkerSel (result r').
Proof.
  eexists. split; [vm_compute; reflexivity|].
  eapply (implementers_already_runtime (prog:=markerProgram) 10 1 markerSkipped _
            {| pkg_path := Some "example.com/app";
               pkg_members := [MOther; MType (TNamed 1); MType (TNamed 2)] |}
            (TNamed 2) methMarker nfMarkerSel);
    [vm_compute; reflexivity|vm_compute; set_solver|by eexists|simpl; set_solver
    |reflexivity|vm_compute; reflexivity|vm_compute; reflexivity
    |vm_compute; set_solver|vm_compute; reflexivity].
Defined.

(** ** The implementation index *)

Section IndexProperties.

Context {prog : Program}.

Lemma index_sound_keeps r r' : keeps r r' → index_sound r → index_sound r'.
Proof. intros (Hi & _) H. unfold index_sound. by rewrite Hi. Qed.

Lemma indexAdd_sound i T r r' :
  types_Implements T i || types_Implements (TPointer T) i = true →
  index_sound r → indexAdd i T r = Ok r' → index_sound r'.
Proof.
  intros Himpl Hr. unfold indexAdd.
  destruct (interfaceToTypes r) as [i2t|] eqn:E1; [|done].
  destruct (typeToInterfaces r) as [t2i|]; [|done].
  intros [= <-] m I Ts T0. simpl. intros [= <-].
  destruct (decide (I = i)) as [->|Hne].
  - rewrite lookup_insert_eq. intros [= <-] [Hin|Hin%list_elem_of_singleton]%elem_of_app;
      [|by subst T0].
    destruct (i2t !! i) as [l|] eqn:El; simpl in Hin; [|by apply elem_of_nil in Hin].
    by apply (Hr i2t i l).
  - rewrite lookup_insert_ne by done. by apply Hr.
Qed.

Lemma indexStep_sound i T r r' :
  index_sound r →
  (if types_Implements T i || types_Implements (TPointer T) i
   then indexAdd i T r else Ok r) = Ok r' →
  index_sound r'.
Proof.
  intros Hr. destruct (_ || _) eqn:E; [by apply indexAdd_sound|by intros [= <-]].
Qed.

Lemma addTypeToIndex_sound T r r' :
  index_sound r → addTypeToIndex T r = Ok r' → index_sound r'.
Proof.
  intros Hr. unfold addTypeToIndex.
  destruct (interfaceToTypes r) eqn:E; [|by intros [= <-]].
  destruct (isInterface T); [by intros [= <-]|].
  pose proof (keeps_getConcreteTypeInfo T r) as Hk.
  destruct (getConcreteTypeInfo T r) as [cinfo r1]. simpl in Hk.
  apply (forM_inv index_sound); [|by eapply index_sound_keeps].
  intros e x y _ Hx. destruct (negb _); [by intros [= <-]|].
  by apply indexStep_sound.
Qed.

Lemma buildUserTypesIndex_sound r r' :
  index_sound r → buildUserTypesIndex r = Ok r' → index_sound r'.
Proof.
  intros Hr. unfold buildUserTypesIndex.
  destruct (userTypesIndexBuilt r); [by intros [= <-]|].
  match goal with |- obind (forM ?l ?body ?x) _ = _ → _ =>
    assert (index_sound x) as H0;
      [|destruct (forM l body x) as [r2| |] eqn:E; simpl; try done] end.
  - match goal with |- index_sound (match interfaceToTypes ?y with _ => _ end) =>
      assert (keeps r y) as Hy end.
    { apply keeps_then_foldl; [|by repeat split].
      intros ra T Hra.
      eapply keeps_trans; [|apply keeps_getConcreteTypeInfo].
      eapply keeps_trans; [|apply keeps_getConcreteTypeInfo]. done. }
    destruct (interfaceToTypes _) eqn:Ei; [by eapply index_sound_keeps|].
    intros m I Ts T. simpl. intros [= <-]. by rewrite lookup_empty.
  - intros [= <-].
    assert (index_sound r2) as H2; [|exact H2].
    revert E. apply (forM_inv index_sound); [|done].
    intros T xa ya _ Hxa.
    pose proof (keeps_getConcreteTypeInfo T xa) as Hka.
    destruct (getConcreteTypeInfo T xa) as [vi x3]. simpl in Hka.
    pose proof (keeps_getConcreteTypeInfo (TPointer T) x3) as Hkb.
    destruct (getConcreteTypeInfo (TPointer T) x3) as [pi x4]. simpl in Hkb.
    apply (forM_inv index_sound).
    + intros iinfo xb yb _ Hxb. destruct (_ && _); [by intros [= <-]|].
      by apply indexStep_sound.
    + eapply index_sound_keeps; [exact Hkb|]. by eapply index_sound_keeps.
Qed.

(** X19. The implementation index is sound: built by
    [buildUserTypesIndex] and extended by [addTypeToIndex], it lists
    under an interface only types that implement it by value or through
    their pointer, so that [findAllImplementationsInProgram] returns
    only implementers. *)
Theorem index_lists_implementers r :
  index_sound r →
  (∀ T r', addTypeToIndex T r = Ok r' → index_sound r')
  ∧ (∀ i Ts r', findAllImplementationsInProgram i r = Ok (Ts, r') →
       index_sound r'
       ∧ ∀ T, T ∈ Ts →
           types_Implements T i || types_Implements (TPointer T) i = true).
Proof.
  intros Hr. split; [intros T r'; by apply addTypeToIndex_sound|].
  intros i Ts r'. unfold findAllImplementationsInProgram.
  destruct (buildUserTypesIndex r) as [r1| |] eqn:E; simpl; try done.
  intros [= <- <-]. pose proof (buildUserTypesIndex_sound r r1 Hr E) as H1.
  split; [done|]. intros T. unfold indexLookup.
  destruct (interfaceToTypes r1) as [m|] eqn:Em; simpl;
    [|intros H; by apply elem_of_nil in H].
  destruct (m !! i) as [l|] eqn:El; simpl; [|intros H; by apply elem_of_nil in H].
  by apply (H1 m i l).
Qed.

End IndexProperties.

Lemma index_lists_implementers_witness :
  ∃ r', findAllImplementationsInProgram (prog:=markerProgram) 1 markerKnown
        = Ok ([TNamed 2], r')
        ∧ ∀ T, T ∈ [TNamed 2] →
            types_Implements (prog:=markerProgram) T 1
            || types_Implements (prog:=markerProgram) (TPointer T) 1 = true.
Proof.
  assert (index_sound (prog:=markerProgram) markerKnown) as Hs.
  { intros m I Ts T Hm. vm_compute in Hm. discriminate. }
  destruct (index_lists_implementers (prog:=markerProgram) markerKnown Hs) as [_ H].
  eexists. split; [vm_compute; reflexivity|].
  eapply H. vm_compute. reflexivity.
Defined.

(** ** The caller: what [findReachableMethods] returns *)

Section CallerProperties.

Variable TypeParams : fn → option (list nat).
Variable markTemplateMethodCalls : nat → gset tobject → gset tobject.

Lemma foldl_grows {A} (step : gset tobject → A → gset tobject) l :
  (∀ s a, s ⊆ step s a) → ∀ s, s ⊆ foldl step s l.
Proof.
  intros Hstep. induction l as [|a l IH]; intros s; simpl; [done|].
  etransitivity; [apply (Hstep s a)|apply IH].
Qed.

Lemma foldl_adds {A} (step : gset tobject → A → gset tobject) l a x :
  (∀ s a, s ⊆ step s a) → (∀ s, x ∈ step s a) → a ∈ l →
  ∀ s, x ∈ foldl step s l.
Proof.
  intros Hstep Hx. induction l as [|b l IH]; intros Hin s;
    [by apply elem_of_nil in Hin|].
  simpl. apply elem_of_cons in Hin as [<-|Hin]; [|by apply IH].
  by apply (foldl_grows step l Hstep).
Qed.

Lemma reachableObjects_function P res f b o :
  Reachable res !! f = Some b → fn_object (func (prog:=P) f) = Some o →
  ObjFunction o ∈ reachableObjects P res.
Proof.
  intros Hf Ho. unfold reachableObjects.
  apply (foldl_grows (λ reachable obj, {[ObjMethod obj]} ∪ reachable));
    [set_solver|].
  apply (foldl_adds _ _ (f, b)).
  - intros s [g c]. destruct (fn_object (func g)); set_solver.
  - intros s. rewrite Ho. set_solver.
  - by apply elem_of_map_to_list.
Qed.

Lemma reachableObjects_method P res m :
  m ∈ ReachableObjects res → ObjMethod m ∈ reachableObjects P res.
Proof.
  intros Hm. unfold reachableObjects.
  apply (foldl_adds _ _ m); [set_solver|set_solver|].
  by apply elem_of_elements.
Qed.

Lemma Analyze_not_nil {prog : Program} fuel f rest :
  Analyze fuel (Some f :: rest) ≠ Ok None.
Proof.
  unfold Analyze, AnalyzeTrace.
  by destruct (drain fuel fuel [] (seed (Some f :: rest))) as [[visited r]| |].
Qed.

(** X20. The only errors of [findReachableMethods] are the two about an
    analyzer that was not initialised, and they come without a set.  The
    third one in its text, for a nil result of [Analyze], cannot occur:
    [Analyze] is only called on a list that is not empty. *)
Theorem findReachableMethods_errors fuel sa out err :
  findReachableMethods TypeParams markTemplateMethodCalls fuel sa = Ok (out, Some err) →
  out = None
  ∧ match err with
    | ErrProgramNotInitialized => sa_program sa = None
    | ErrEntryPointsNotInitialized => sa_program sa ≠ None ∧ sa_entryPoints sa = None
    | ErrRTAFailed => False
    end.
Proof.
  unfold findReachableMethods.
  destruct (sa_program sa) as [P|]; [|by intros [= <- <-]].
  destruct (sa_entryPoints sa) as [[|e eps]|]; [done| |by intros [= <- <-]].
  destruct (concreteEntryPoints TypeParams P (e :: eps)) as [[|f concrete]| |];
    try done.
  cbn [obind fmap list_fmap].
  pose proof (Analyze_not_nil (prog:=P) fuel f (Some <$> concrete)) as Hnil.
  destruct (Analyze fuel (Some f :: (Some <$> concrete))) as [[res|]| |]; done.
Qed.

(** X21. With a program and entry points in place, [findReachableMethods]
    returns no set and no error when the filter leaves no entry point,
    and otherwise the set built from the result of [Analyze] on the
    entry points kept: on a well-formed program [Analyze] runs to
    completion, the object of every function it reached, every method
    object it tracked and every exported template object is in the set.
    The walk [markTemplateMethodCalls] is taken to add to the set only. *)
Theorem findReachableMethods_outcome U fuel sa P entryPoints concrete :
  sa_program sa = Some P → sa_entryPoints sa = Some entryPoints →
  concreteEntryPoints TypeParams P entryPoints = Ok concrete →
  wf_program (prog:=P) U = true →
  (size (dom (prog_funcs P) : gset fn) + length U < fuel)%nat →
  (∀ m s, s ⊆ markTemplateMethodCalls m s) →
  match concrete with
  | [] => findReachableMethods TypeParams markTemplateMethodCalls fuel sa
          = Ok (None, None)
  | _ => ∃ res reachable,
      Analyze (prog:=P) fuel (Some <$> concrete) = Ok (Some res)
      ∧ findReachableMethods TypeParams markTemplateMethodCalls fuel sa
        = Ok (Some reachable, None)
      ∧ (∀ f o, is_Some (Reachable res !! f) →
                fn_object (func (prog:=P) f) = Some o → ObjFunction o ∈ reachable)
      ∧ (∀ m, m ∈ ReachableObjects res → ObjMethod m ∈ reachable)
      ∧ (∀ m, Some m ∈ sa_exportedTemplateObjects sa → ObjMethod m ∈ reachable)
  end.
Proof.
  intros HP He Hc Hwf Hfuel Hadd. unfold findReachableMethods. rewrite HP, He.
  destruct entryPoints as [|e eps]; [by injection Hc as <-|].
  rewrite Hc. cbn [obind]. destruct concrete as [|f concrete]; [done|].
  cbn [fmap list_fmap]. unfold Analyze, AnalyzeTrace.
  destruct (drain_total (prog:=P) U Hwf fuel ltac:(lia) fuel []
              (seed (Some f :: (Some <$> concrete)))) as ([visited r] & E).
  { apply WInv_seed. }
  { apply tables_ok_seed. }
  { pose proof (pending_bound (prog:=P) []). lia. }
  rewrite E. cbn [obind fmap option_fmap option_map snd].
  set (step := λ (reachable : gset tobject) (obj : option nat),
         match obj with
         | Some m => markTemplateMethodCalls m ({[ObjMethod m]} ∪ reachable)
         | None => reachable
         end).
  assert (∀ s a, s ⊆ step s a) as Hstep.
  { intros s [m|]; simpl; [|done]. etransitivity; [|apply Hadd]. set_solver. }
  exists (result r), (foldl step (reachableObjects P (result r))
                        (sa_exportedTemplateObjects sa)).
  split; [done|]. split; [done|]. split; [|split].
  - intros g o [b Hb] Ho. apply (foldl_grows step _ Hstep).
    by apply (reachableObjects_function P _ g b).
  - intros m Hm. apply (foldl_grows step _ Hstep).
    by apply reachableObjects_method.
  - intros m Hm. apply (foldl_adds step _ (Some m)); [done| |done].
    intros s. simpl. apply (Hadd m). set_solver.
Qed.

End CallerProperties.

Lemma findReachableMethods_errors_witness :
  (None : option (gset tobject)) = None ∧ sa_program emptyAnalyzer = None.
Proof.
  apply (findReachableMethods_errors (λ _, None) (λ _ s, s) 0 emptyAnalyzer
           None ErrProgramNotInitialized).
  reflexivity.
Defined.

Lemma findReachableMethods_outcome_witness :
  ∃ res reachable,
    Analyze (prog:=markerProgram) 17 [Some 0; Some 2] = Ok (Some res)
    ∧ findReachableMethods (λ _, None) (λ _ s, s) 17 markerAnalyzer
      = Ok (Some reachable, None)
    ∧ (∀ f o, is_Some (Reachable res !! f) →
              fn_object (func (prog:=markerProgram) f) = Some o →
              ObjFunction o ∈ reachable)
    ∧ (∀ m, m ∈ ReachableObjects res → ObjMethod m ∈ reachable)
    ∧ (∀ m, Some m ∈ sa_exportedTemplateObjects markerAnalyzer →
            ObjMethod m ∈ reachable).
Proof.
  apply (findReachableMethods_outcome (λ _, None) (λ _ s, s) markerUniverse 17
           markerAnalyzer markerProgram [Some 0; Some 2] [0; 2]);
    [reflexivity|reflexivity|reflexivity|vm_compute; reflexivity|vm_compute; lia|done].
Defined.

(** ** The harness: the name a package is shown under *)

Section HarnessProperties.

(** X22. For a package that is not nil, [getDisplayPackageName] returns
    the package path in every case: where it picks the module path of a
    main package, that path equals the package path. *)
Theorem getDisplayPackageName_path pkg :
  getDisplayPackageName (Some pkg) = gp_PkgPath pkg.
Proof.
  unfold getDisplayPackageName.
  destruct (String.eqb (gp_Name pkg) "main"); [|done].
  destruct (gp_Module pkg) as [m|]; [|done].
  destruct (String.eqb (mod_Path m) ""); [done|]. simpl.
  destruct (String.eqb (gp_PkgPath pkg) (mod_Path m)) eqn:E; [|done].
  apply String.eqb_eq in E.
  destruct (String.eqb (mod_Path m) "main") eqn:E'; simpl; [|done].
  apply String.eqb_eq in E'. congruence.
Qed.

End HarnessProperties.

(** ** The harness: comparing the report with the expectation *)

Section ValidateResults.

Variable quote : string → string.

Lemma collect_spec {A} (step : list string * bool → A → list string * bool)
    (f : A → option string) :
  (∀ out b a, step (out, b) a = match f a with
                                | Some s => (out ++ [s], false)
                                | None => (out, b)
                                end) →
  ∀ l out b, foldl step (out, b) l
             = (out ++ omap f l, b && bool_decide (omap f l = [])).
Proof.
  intros Hstep. induction l as [|a l IH]; intros out b; simpl.
  - by rewrite app_nil_r, andb_true_r.
  - rewrite Hstep. destruct (f a) as [s|]; rewrite IH.
    + by rewrite <- app_assoc, andb_false_r.
    + done.
Qed.

Lemma omap_nil {A B} (f : A → option B) l :
  omap f l = [] ↔ ∀ a, a ∈ l → f a = None.
Proof.
  induction l as [|a l IH]; simpl.
  - split; [|done]. intros _ a Ha. by apply elem_of_nil in Ha.
  - destruct (f a) as [b|] eqn:E.
    + split; [done|]. intros H. specialize (H a (list_elem_of_here _ _)). congruence.
    + rewrite IH. split.
      * intros H x [->|Hx]%elem_of_cons; [done|by apply H].
      * intros H x Hx. apply H. by apply elem_of_cons; right.
Qed.

Lemma insertString_length s l : length (insertString s l) = S (length l).
Proof.
  induction l as [|x l IH]; simpl; [done|].
  destruct (String.leb s x); simpl; [done|by rewrite IH].
Qed.

Lemma sortStrings_length l : length (sortStrings l) = length l.
Proof.
  induction l as [|x l IH]; simpl; [done|].
  by rewrite insertString_length, IH.
Qed.

Lemma sortStrings_nil l : sortStrings l = [] ↔ l = [].
Proof.
  split; [|by intros ->]. intros H.
  apply nil_length_inv. rewrite <- sortStrings_length. by rewrite H.
Qed.

Lemma details_lines (p : string) l : ∀ details,
  foldl (λ details m, details ++ [p +:+ m]) details l = details ++ map (λ m, p +:+ m) l.
Proof.
  induction l as [|m l IH]; intros details; simpl; [by rewrite app_nil_r|].
  by rewrite IH, <- app_assoc.
Qed.

Lemma expectedMap_dom expected name :
  is_Some (expectedMap expected !! name) ↔ name ∈ ef_FuncName <$> expected.
Proof.
  unfold expectedMap.
  enough (∀ m : gmap string ExpectedFunc,
            is_Some (foldl (λ m e, <[ef_FuncName e := e]> m) m expected !! name)
            ↔ is_Some (m !! name) ∨ name ∈ ef_FuncName <$> expected) as H.
  { rewrite H, lookup_empty. split; [|by right].
    intros [Hs|Hin]; [by apply is_Some_None in Hs|done]. }
  induction expected as [|e l IH]; intros m; simpl.
  - split; [by left|]. intros [H|H]; [done|by apply elem_of_nil in H].
  - rewrite IH, elem_of_cons.
    destruct (decide (name = ef_FuncName e)) as [->|Hne].
    + rewrite lookup_insert_eq. split; [by right; left|eauto].
    + rewrite lookup_insert_ne by done. tauto.
Qed.

Lemma actualMap_dom actual name :
  is_Some (actualMap actual !! name) ↔ name ∈ uf_Name <$> actual.
Proof.
  unfold actualMap.
  enough (∀ m : gmap string UnusedFunc,
            is_Some (foldl (λ m a, <[uf_Name a := a]> m) m actual !! name)
            ↔ is_Some (m !! name) ∨ name ∈ uf_Name <$> actual) as H.
  { rewrite H, lookup_empty. split; [|by right].
    intros [Hs|Hin]; [by apply is_Some_None in Hs|done]. }
  induction actual as [|a l IH]; intros m; simpl.
  - split; [by left|]. intros [H|H]; [done|by apply elem_of_nil in H].
  - rewrite IH, elem_of_cons.
    destruct (decide (name = uf_Name a)) as [->|Hne].
    + rewrite lookup_insert_eq. split; [by right; left|eauto].
    + rewrite lookup_insert_ne by done. tauto.
Qed.

(** X23. [validateResults] reports success exactly when it records no
    detail line, and exactly when the names expected and the names
    reported are the same and, for every name, the reported file ends
    with the expected file unless that is empty.  With a name that
    occurs more than once the last entry counts; the package of a
    reported function and the reason of an expected one play no part. *)
Theorem validateResults_success expected actual :
  (cr_Success (validateResults quote expected actual) = true
   ↔ cr_Details (validateResults quote expected actual) = [])
  ∧ (cr_Success (validateResults quote expected actual) = true ↔
       (∀ name, name ∈ ef_FuncName <$> expected ↔ name ∈ uf_Name <$> actual)
       ∧ (∀ name exp act,
            expectedMap expected !! name = Some exp →
            actualMap actual !! name = Some act →
            ef_File exp = "" ∨ HasSuffix (uf_File act) (ef_File exp) = true)).
Proof.
  unfold validateResults.
  set (em := expectedMap expected). set (am := actualMap actual).
  set (f1 := λ kv : string * ExpectedFunc,
         match am !! kv.1 with
         | None => Some (ef_FuncName kv.2 +:+ " (" +:+ ef_Reason kv.2 +:+ ")")
         | Some _ => None
         end).
  set (f2 := λ kv : string * UnusedFunc,
         match em !! kv.1 with
         | None => Some (uf_Name kv.2)
         | Some _ => None
         end).
  set (f3 := λ kv : string * ExpectedFunc,
         match am !! kv.1 with
         | Some act =>
             if negb (String.eqb (ef_File kv.2) "")
                && negb (HasSuffix (uf_File act) (ef_File kv.2))
             then Some ("File mismatch for " +:+ ef_FuncName kv.2
                        +:+ ": expected file ending with "
                        +:+ quote (ef_File kv.2) +:+ ", got "
                        +:+ quote (uf_File act))
             else None
         | None => None
         end).
  rewrite (collect_spec _ f1).
  2:{ intros out b [key exp]. unfold f1. simpl. by destruct (am !! key). }
  rewrite (collect_spec _ f2).
  2:{ intros out b [key act]. unfold f2. simpl. by destruct (em !! key). }
  rewrite !details_lines.
  rewrite (collect_spec _ f3).
  2:{ intros out b [key exp]. unfold f3. simpl.
      destruct (am !! key) as [act|]; [|done].
      by destruct (negb (ef_File exp =? "") && negb (HasSuffix (uf_File act) (ef_File exp))). }
  cbn [cr_Success cr_Details app]. rewrite !andb_true_l.
  set (L1 := map_to_list em). set (L2 := map_to_list am).
  assert (omap f1 L1 = [] ↔ ∀ name, name ∈ ef_FuncName <$> expected →
                                     name ∈ uf_Name <$> actual) as H1.
  { rewrite omap_nil. split.
    - intros H name [exp Hexp]%expectedMap_dom.
      apply actualMap_dom. fold am.
      specialize (H (name, exp)). unfold f1 in H. simpl in H.
      destruct (am !! name); [eauto|].
      discriminate H. by apply elem_of_map_to_list.
    - intros H [key exp] Hin%elem_of_map_to_list. unfold f1. simpl.
      destruct (am !! key) eqn:E; [done|].
      assert (is_Some (am !! key)) as [? Hs]; [|congruence].
      apply actualMap_dom, H, expectedMap_dom. by exists exp. }
  assert (omap f2 L2 = [] ↔ ∀ name, name ∈ uf_Name <$> actual →
                                     name ∈ ef_FuncName <$> expected) as H2.
  { rewrite omap_nil. split.
    - intros H name [act Hact]%actualMap_dom.
      apply expectedMap_dom. fold em.
      specialize (H (name, act)). unfold f2 in H. simpl in H.
      destruct (em !! name); [eauto|].
      discriminate H. by apply elem_of_map_to_list.
    - intros H [key act] Hin%elem_of_map_to_list. unfold f2. simpl.
      destruct (em !! key) eqn:E; [done|].
      assert (is_Some (em !! key)) as [? Hs]; [|congruence].
      apply expectedMap_dom, H, actualMap_dom. by exists act. }
  assert (omap f3 L1 = [] ↔ ∀ name exp act,
            em !! name = Some exp → am !! name = Some act →
            ef_File exp = "" ∨ HasSuffix (uf_File act) (ef_File exp) = true) as H3.
  { rewrite omap_nil. split.
    - intros H name exp act Hexp Hact.
      specialize (H (name, exp)). unfold f3 in H. simpl in H. rewrite Hact in H.
      destruct (String.eqb_spec (ef_File exp) "") as [->|Hne]; [by left|right].
      destruct (HasSuffix (uf_File act) (ef_File exp)); [done|].
      discriminate H. by apply elem_of_map_to_list.
    - intros H [key exp] Hin%elem_of_map_to_list. unfold f3. simpl.
      destruct (am !! key) as [act|] eqn:E; [|done].
      destruct (H key exp act Hin E) as [Hf|Hf]; rewrite Hf; [done|].
      by rewrite andb_false_r. }
  rewrite !andb_true_iff, !bool_decide_eq_true. split.
  - split.
    + intros [[E1 E2] E3]. by rewrite E1, E2, E3.
    + intros [[Ha Hb]%app_eq_nil Hc]%app_eq_nil.
      apply map_eq_nil in Ha. apply (proj1 (sortStrings_nil _)) in Ha.
      apply map_eq_nil in Hb. apply (proj1 (sortStrings_nil _)) in Hb.
      by repeat split.
  - rewrite H1, H2, H3. split.
    + intros [[Ha Hb] Hc]. split; [|done]. intros name. split; [apply Ha|apply Hb].
    + intros [Hn Hc]. split; [split|done]; intros name; apply Hn.
Qed.

End ValidateResults.

(** ** Interfaces the index does not know *)

Section IndexScope.

Context {prog : Program}.

Lemma interfaceTypes_getConcreteTypeInfo C r :
  interfaceTypes (snd (getConcreteTypeInfo C r)) = interfaceTypes r.
Proof.
  unfold getConcreteTypeInfo. destruct (At (concreteTypes r) (Unalias C)); [done|].
  simpl. by destruct (decide (C = Unalias C)).
Qed.

Lemma indexLookup_keeps i r r' :
  keeps r r' → indexLookup i r' = indexLookup i r.
Proof. intros (Hi & _). unfold indexLookup. by rewrite Hi. Qed.

Lemma indexAdd_other i j T r r' :
  j ≠ i → indexAdd j T r = Ok r' → indexLookup i r' = indexLookup i r.
Proof.
  intros Hne. unfold indexAdd, indexLookup.
  destruct (interfaceToTypes r) as [i2t|]; [|done].
  destruct (typeToInterfaces r) as [t2i|]; [|done].
  intros [= <-]. simpl. by rewrite lookup_insert_ne.
Qed.

Lemma indexStep_other i j T r r' :
  j ≠ i →
  (if types_Implements T j || types_Implements (TPointer T) j
   then indexAdd j T r else Ok r) = Ok r' →
  indexLookup i r' = indexLookup i r.
Proof.
  intros Hne. destruct (_ || _); [by apply indexAdd_other|by intros [= <-]].
Qed.

Lemma addTypeToIndex_other i T r r' :
  (∀ e, e ∈ interfaceTypes r → ii_I e.2 ≠ i) →
  addTypeToIndex T r = Ok r' → indexLookup i r' = indexLookup i r.
Proof.
  intros Hun. unfold addTypeToIndex.
  destruct (interfaceToTypes r) eqn:E; [|by intros [= <-]].
  destruct (isInterface T); [by intros [= <-]|].
  pose proof (keeps_getConcreteTypeInfo T r) as Hk.
  pose proof (interfaceTypes_getConcreteTypeInfo T r) as Hi.
  destruct (getConcreteTypeInfo T r) as [cinfo r1]. simpl in Hk, Hi.
  rewrite Hi. rewrite <- (indexLookup_keeps i r r1 Hk).
  apply (forM_inv (λ x, indexLookup i x = indexLookup i r1)); [|done].
  intros e x y He Hx. destruct (negb _); [by intros [= <-]|].
  intros Hy. rewrite <- Hx. eapply indexStep_other; [|exact Hy]. by apply Hun.
Qed.

Lemma buildUserTypesIndex_other i r r' :
  (∀ e, e ∈ interfaceTypes r → ii_I e.2 ≠ i) → indexLookup i r = [] →
  buildUserTypesIndex r = Ok r' → indexLookup i r' = [].
Proof.
  intros Hun Hr. unfold buildUserTypesIndex.
  destruct (userTypesIndexBuilt r); [by intros [= <-]|].
  match goal with |- obind (forM ?l ?body ?x) _ = _ → _ =>
    assert (indexLookup i x = [] ∧ interfaceTypes x = interfaceTypes r) as [H0 Hi0];
      [|destruct (forM l body x) as [r2| |] eqn:E; simpl; try done] end.
  - match goal with |- indexLookup i (match interfaceToTypes ?y with _ => _ end) = _ ∧ _ =>
      assert (keeps r y ∧ interfaceTypes y = interfaceTypes r) as [Hy Hiy] end.
    { match goal with |- keeps r (foldl ?f ?a ?l) ∧ _ =>
        generalize l; intros l0;
        assert (keeps r a ∧ interfaceTypes a = interfaceTypes r) as Ha
          by (by repeat split);
        revert Ha; generalize a end.
      induction l0 as [|T l0 IH]; intros a Ha; [done|]. simpl. apply IH.
      destruct Ha as [Hka Hia]. split.
      - eapply keeps_trans; [|apply keeps_getConcreteTypeInfo].
        eapply keeps_trans; [|apply keeps_getConcreteTypeInfo]. done.
      - by rewrite !interfaceTypes_getConcreteTypeInfo. }
    destruct (interfaceToTypes _) eqn:Ei.
    + split; [|done]. by rewrite (indexLookup_keeps i r _ Hy).
    + split; [|done]. unfold indexLookup. simpl. by rewrite lookup_empty.
  - intros [= <-].
    assert (indexLookup i r2 = []) as H2; [|exact H2].
    revert E. rewrite Hi0. apply (forM_inv (λ x, indexLookup i x = [])); [|done].
    intros T xa ya _ Hxa.
    pose proof (keeps_getConcreteTypeInfo T xa) as Hka.
    destruct (getConcreteTypeInfo T xa) as [vi x3]. simpl in Hka.
    pose proof (keeps_getConcreteTypeInfo (TPointer T) x3) as Hkb.
    destruct (getConcreteTypeInfo (TPointer T) x3) as [pi x4]. simpl in Hkb.
    apply (forM_inv (λ x, indexLookup i x = [])).
    + intros iinfo xb yb Hin Hxb. destruct (_ && _); [by intros [= <-]|].
      intros Hy. rewrite <- Hxb. eapply indexStep_other; [|exact Hy].
      apply list_elem_of_fmap in Hin as (e & -> & He). by apply Hun.
    + by rewrite (indexLookup_keeps i x3 x4 Hkb), (indexLookup_keeps i xa x3 Hka).
Qed.

(** X24. The index knows only the interfaces the engine has recorded.
    For an interface that is not recorded and has no entry, neither
    [addTypeToIndex] nor building the index lists a type under it:
    [findAllImplementationsInProgram] returns nil for it, and a
    [ChangeInterface] to it leaves the result as it was, whatever
    types of the program implement it. *)
Theorem unrecorded_interface_unindexed i r :
  (∀ e, e ∈ interfaceTypes r → ii_I e.2 ≠ i) → indexLookup i r = [] →
  (∀ T r', addTypeToIndex T r = Ok r' → indexLookup i r' = [])
  ∧ (∀ Ts r', findAllImplementationsInProgram i r = Ok (Ts, r') → Ts = [])
  ∧ (∀ t r', asInterface t = Some i → handleChangeInterface t r = Ok r' →
             result r' = result r).
Proof.
  intros Hun Hr. split; [|split].
  - intros T r' H. rewrite <- Hr. by apply (addTypeToIndex_other i T).
  - intros Ts r'. unfold findAllImplementationsInProgram.
    destruct (buildUserTypesIndex r) as [r1| |] eqn:E; simpl; try done.
    intros [= <- <-]. by apply (buildUserTypesIndex_other i r).
  - intros t r' Ht. unfold handleChangeInterface. rewrite Ht.
    destruct (NumMethods i =? 0)%nat; [by intros [= <-]|].
    unfold findAllImplementationsInProgram.
    destruct (buildUserTypesIndex r) as [r1| |] eqn:E; simpl; try done.
    rewrite (buildUserTypesIndex_other i r r1 Hun Hr E). simpl.
    intros [= <-]. by destruct (core_eq_buildUserTypesIndex r r1 E).
Qed.

End IndexScope.

Lemma unrecorded_interface_unindexed_witness :
  ∃ r', handleChangeInterface (prog:=markerProgram) (TNamed 1)
          (initial (prog:=markerProgram)) = Ok r'
        ∧ types_Implements (prog:=markerProgram) (TNamed 2) 1 = true
        ∧ result r' = result (initial (prog:=markerProgram)).
Proof.
  assert (∀ e, e ∈ interfaceTypes (initial (prog:=markerProgram)) → ii_I e.2 ≠ 1) as Hun.
  { intros e He. by apply elem_of_nil in He. }
  destruct (unrecorded_interface_unindexed (prog:=markerProgram) 1
              (initial (prog:=markerProgram)) Hun eq_refl) as (_ & _ & H).
  eexists. split; [vm_compute; reflexivity|]. split; [vm_compute; reflexivity|].
  apply (H (TNamed 1)); [vm_compute; reflexivity|vm_compute; reflexivity].
Defined.

(** ** Internal packages *)

Section InternalPackages.

Lemma string_app_assoc (a b c : string) : (a +:+ b) +:+ c = a +:+ b +:+ c.
Proof.
  induction a as [|x a IH]; [done|].
  change (String x ((a +:+ b) +:+ c) = String x (a +:+ b +:+ c)). by rewrite IH.
Qed.

Lemma string_app_nil_r (a : string) : a +:+ "" = a.
Proof.
  induction a as [|x a IH]; [done|].
  change (String x (a +:+ "") = String x a). by rewrite IH.
Qed.

Lemma string_app_length (a b : string) :
  String.length (a +:+ b) = (String.length a + String.length b)%nat.
Proof.
  induction a as [|x a IH]; [done|].
  change (S (String.length (a +:+ b)) = S (String.length a + String.length b)).
  by rewrite IH.
Qed.

Lemma string_length_nil (a : string) : String.length a = 0%nat → a = "".
Proof. by destruct a. Qed.

Lemma substring_head (t b : string) : substring 0 (String.length t) (t +:+ b) = t.
Proof.
  induction t as [|x t IH]; [by destruct b|].
  change (String x (substring 0 (String.length t) (t +:+ b)) = String x t).
  by rewrite IH.
Qed.

Lemma substring_app (a t b : string) :
  substring (String.length a) (String.length t) (a +:+ t +:+ b) = t.
Proof. induction a as [|x a IH]; [exact (substring_head t b)|exact IH]. Qed.

Lemma substring_head_inv (m : nat) : ∀ s t : string,
  substring 0 m s = t → String.length t = m → ∃ b, s = t +:+ b.
Proof.
  induction m as [|m IH]; intros s t Hs Ht.
  - apply string_length_nil in Ht as ->. by exists s.
  - destruct s as [|c s]; simpl in Hs; [by subst t|].
    destruct t as [|c' t]; [done|]. injection Hs as <- Hs.
    destruct (IH s t Hs) as [b ->]; [by injection Ht|]. by exists b.
Qed.

Lemma substring_inv (n m : nat) : ∀ s t : string,
  (n ≤ String.length s)%nat → substring n m s = t → String.length t = m →
  ∃ a b, s = a +:+ t +:+ b ∧ String.length a = n.
Proof.
  induction n as [|n IH]; intros s t Hn Hs Ht.
  - destruct (substring_head_inv m s t Hs Ht) as [b ->]. by exists "", b.
  - destruct s as [|c s]; simpl in Hn; [lia|]. simpl in Hs.
    destruct (IH s t ltac:(lia) Hs Ht) as (a & b & -> & Ha).
    exists (String c a), b. split; [done|]. simpl. by rewrite Ha.
Qed.

Lemma substring_short (n m : nat) : ∀ s : string,
  (String.length s < n)%nat → substring n m s = "".
Proof.
  induction n as [|n IH]; intros s Hn; [lia|].
  destruct s as [|c s]; simpl; [done|]. apply IH. simpl in Hn. lia.
Qed.

Lemma strings_Contains_spec (s t : string) :
  t ≠ "" → strings_Contains s t = true ↔ ∃ a b, s = a +:+ t +:+ b.
Proof.
  intros Ht. unfold strings_Contains. split.
  - destruct (index 0 t s) as [m|] eqn:E; [intros _|done].
    apply index_correct1 in E.
    destruct (decide (m ≤ String.length s)%nat) as [Hm|Hm].
    + destruct (substring_inv m _ s t Hm E eq_refl) as (a & b & -> & _). eauto.
    + rewrite substring_short in E by lia. by subst t.
  - intros (a & b & ->). destruct (index 0 t _) as [m|] eqn:E; [done|].
    exfalso. apply (index_correct3 0 (String.length a) _ _ E Ht); [lia|].
    apply substring_app.
Qed.

Lemma HasSuffix_spec (s t : string) :
  HasSuffix s t = true ↔ ∃ a, s = a +:+ t.
Proof.
  unfold HasSuffix. rewrite andb_true_iff, Nat.leb_le, String.eqb_eq. split.
  - intros [Hle Hs].
    destruct (substring_inv (String.length s - String.length t) (String.length t)
                s t ltac:(lia) Hs eq_refl) as (a & b & -> & Ha).
    rewrite !string_app_length in Ha.
    assert (b = "") as -> by (apply string_length_nil; lia).
    exists a. by rewrite string_app_nil_r.
  - intros [a ->]. rewrite string_app_length. split; [lia|].
    replace (String.length a + String.length t - String.length t)%nat
      with (String.length a) by lia.
    rewrite <- (string_app_nil_r t) at 2. apply substring_app.
Qed.

Lemma HasPrefix_spec (s t : string) :
  HasPrefix s t = true ↔ ∃ b, s = t +:+ b.
Proof.
  unfold HasPrefix. rewrite prefix_correct. split.
  - intros H. by apply (substring_head_inv _ s t H).
  - intros [b ->]. apply substring_head.
Qed.

(** X25. [isInternalPackage] holds exactly of the paths that have
    [internal] as one of their elements: the word is preceded by a slash
    or starts the path, and is followed by a slash or ends it. *)
Theorem isInternalPackage_element (pkgPath : string) :
  isInternalPackage pkgPath = true ↔
  ∃ a b, pkgPath = a +:+ "internal" +:+ b
         ∧ (a = "" ∨ ∃ a', a = a' +:+ "/")
         ∧ (b = "" ∨ ∃ b', b = "/" +:+ b').
Proof.
  unfold isInternalPackage.
  rewrite !orb_true_iff, (strings_Contains_spec _ "/internal/") by done.
  rewrite HasSuffix_spec, HasPrefix_spec, String.eqb_eq. split.
  - intros [[[(a & b & ->)|(a & ->)]|(b & ->)]| ->].
    + exists (a +:+ "/"), ("/" +:+ b).
      split; [by rewrite string_app_assoc|split; right; by eexists].
    + exists (a +:+ "/"), "".
      split; [by rewrite string_app_assoc|split; [right; by eexists|by left]].
    + exists "", ("/" +:+ b). split; [done|split; [by left|right; by eexists]].
    + exists "", "". split; [done|split; by left].
  - intros (a & b & -> & [->|[a' ->]] & [->|[b' ->]]).
    + by right.
    + left. right. by exists b'.
    + left. left. right. exists a'. by rewrite string_app_assoc.
    + left. left. left. exists a', b'. by rewrite string_app_assoc.
Qed.

End InternalPackages.
